(** * SmashMoves: the BTL ranking engine ([src/web/btl-calculator.js])

    A shallow embedding of [BTLCalculator]: the tally pass
    ([createMoveDataMap]), the win-rate seeded scores with min-max scaling
    ([calculateBTLIterative]), the standings ([calculateBTLScores]), the
    logistic confidence ([calculateConfidence]), the percentile tiers
    ([groupMovesByTier]) and the prediction ([calculateBTLPrediction]).

    Modelling choices.
    - JavaScript numbers are read as real numbers ([R]): sums, quotients and
      comparisons are the exact ones, [Math.exp] is [exp].  Counters that are
      only ever incremented from [0] ([total], array indices) are [nat] and
      enter the arithmetic through [INR].  The engine computes on double
      precision numbers: what it holds is the number of the model rounded,
      so statements that compare two computed numbers keep the margin
      [Rounding.tolerance] around the point of equality, and [Binary64]
      evaluates the arithmetic of the prediction on the doubles themselves.
    - [moveData] and [scores] are plain objects keyed by move id; they are
      association lists in insertion order, which is the order of
      [Object.keys] and [Object.values] for keys that are not array indices.
      [BTL] reads own properties only.  A plain object also inherits the
      properties of [Object.prototype]; [Proto] adds them: the guards see an
      inherited value as truthy, the tally loop throws on it, and
      [ProtoFacts] shows when that happens and that otherwise the engine is
      the one of [BTL].
    - [Array.prototype.sort] mutates the array it is called on, so
      [groupMovesByTier] returns the caller's array after the call next to
      the tiers. *)

From Stdlib Require Import Reals Lra Lia List String ZArith Bool Arith.
From Stdlib Require Import Permutation Sorted.
From Stdlib Require Floats.
Import ListNotations.

Open Scope R_scope.

(** ** Numbers *)

Module Num.

(** [x || d] on numbers: [0] is falsy. *)
Definition orElse (x d : R) : R := if Req_dec_T x 0 then d else x.

(** [Math.max(...l)] and [Math.min(...l)]; the engine calls them on the
    values of a non-empty object only (the empty case returns before), so
    the empty list, whose JavaScript value is an infinity, is given [0]. *)
Definition maxOf (l : list R) : R :=
  match l with
  | [] => 0
  | x :: xs => fold_left Rmax xs x
  end.

Definition minOf (l : list R) : R :=
  match l with
  | [] => 0
  | x :: xs => fold_left Rmin xs x
  end.

End Num.

(** ** Confidence *)

Module Confidence.

Definition k : R := 0.5.
Definition x0 : R := 10.

(** [calculateConfidence(totalComparisons)] *)
Definition calculateConfidence (totalComparisons : R) : R :=
  if Req_dec_T totalComparisons 0 then 0
  else 1 / (1 + exp (- k * (totalComparisons - x0))).

(** The logistic curve of the documentation, without the guard at [0]. *)
Definition logistic (n : R) : R := 1 / (1 + exp (- (0.5) * (n - 10))).

End Confidence.

(** ** Association lists keyed by move id *)

Module Obj.

Section Assoc.
Context {A : Type}.

(** [m[key]] *)
Fixpoint lookup (key : string) (m : list (string * A)) : option A :=
  match m with
  | [] => None
  | (k, v) :: m' => if String.eqb k key then Some v else lookup key m'
  end.

(** [m[key] = f(m[key])] for a key that is present; a new key is never
    created this way. *)
Fixpoint update (key : string) (f : A -> A) (m : list (string * A)) : list (string * A) :=
  match m with
  | [] => []
  | (k, v) :: m' =>
      if String.eqb k key then (k, f v) :: m' else (k, v) :: update key f m'
  end.

(** [Object.keys(m)] and [Object.values(m)] *)
Definition keys (m : list (string * A)) : list string := map fst m.
Definition values (m : list (string * A)) : list A := map snd m.

End Assoc.

End Obj.

(** ** The calculator *)

Module BTL.
Import Num Confidence Obj.

(** A move of the catalog: the identifier and the display fields the
    engine copies into a standing. *)
Record Move := {
  id : string;
  name : string;
  characterDisplayName : string
}.

(** One user choice: [userChoice] is [1] (first move wins), [2] (second move
    wins), anything else counts as a tie. *)
Record Choice := {
  move1 : Move;
  move2 : Move;
  userChoice : Z;
  moveType : string
}.

(** An entry of [moveData]. *)
Record MoveStats := {
  move : Move;
  wins : R;
  total : nat;
  opponents : list string
}.

Definition MoveData := list (string * MoveStats).
Definition Scores := list (string * R).

(** An element of the result of [calculateBTLScores]: the move's own fields
    and the computed ones. *)
Record Standing := {
  moveOf : Move;
  btlScore : R;
  userWins : R;
  userTotal : nat;
  winRate : R;
  confidence : R
}.

(** [new Map(moves.map(move => [move.id, move]))]: a later move with the
    same id replaces an earlier one. *)
Definition moveMap_get (moves : list Move) (key : string) : option Move :=
  find (fun m => String.eqb (id m) key) (rev moves).

Definition moveMap_has (moves : list Move) (key : string) : bool :=
  match moveMap_get moves key with Some _ => true | None => false end.

(** First loop of [createMoveDataMap]: a participant gets an entry when it
    is in the move list and has none yet. *)
Definition initMove (moves : list Move) (moveData : MoveData) (moveId : string) : MoveData :=
  match moveMap_get moves moveId, lookup moveId moveData with
  | Some m, None =>
      moveData ++ [(moveId, {| move := m; wins := 0; total := 0; opponents := [] |})]
  | _, _ => moveData
  end.

Definition initChoice (moves : list Move) (moveData : MoveData) (choice : Choice) : MoveData :=
  initMove moves (initMove moves moveData (id (move1 choice))) (id (move2 choice)).

Definition incTotal (d : MoveStats) : MoveStats :=
  {| move := move d; wins := wins d; total := S (total d); opponents := opponents d |}.

Definition addWins (w : R) (d : MoveStats) : MoveStats :=
  {| move := move d; wins := wins d + w; total := total d; opponents := opponents d |}.

(** [opponents.add(x)] on a [Set] *)
Definition addOpponent (x : string) (d : MoveStats) : MoveStats :=
  {| move := move d; wins := wins d; total := total d;
     opponents := if existsb (String.eqb x) (opponents d) then opponents d
                  else opponents d ++ [x] |}.

(** Second loop of [createMoveDataMap]: the body for one choice. *)
Definition recordChoice (moveData : MoveData) (choice : Choice) : MoveData :=
  let move1Id := id (move1 choice) in
  let move2Id := id (move2 choice) in
  match lookup move1Id moveData, lookup move2Id moveData with
  | Some _, Some _ =>
      let md := update move1Id incTotal moveData in
      let md := update move2Id incTotal md in
      let md := update move1Id (addOpponent move2Id) md in
      let md := update move2Id (addOpponent move1Id) md in
      if (userChoice choice =? 1)%Z then update move1Id (addWins 1) md
      else if (userChoice choice =? 2)%Z then update move2Id (addWins 1) md
      else update move2Id (addWins 0.5) (update move1Id (addWins 0.5) md)
  | _, _ => moveData
  end.

Definition createMoveDataMap (moves : list Move) (choices : list Choice) : MoveData :=
  fold_left recordChoice choices (fold_left (initChoice moves) choices []).

(** The score of one entry before scaling. *)
Definition seedScore (data : MoveStats) : R :=
  if (0 <? total data)%nat then
    let winRate := wins data / INR (total data) in
    let confidence := calculateConfidence (INR (total data)) in
    winRate * (0.5 + 0.5 * confidence)
  else 0.5.

Definition seedScores (moveData : MoveData) : Scores :=
  map (fun kd => (fst kd, seedScore (snd kd))) moveData.

Definition calculateBTLIterative (moveData : MoveData) : Scores :=
  match moveData with
  | [] => []
  | _ =>
      let scores := seedScores moveData in
      let maxScore := maxOf (values scores) in
      let minScore := minOf (values scores) in
      let range := maxScore - minScore in
      if Rlt_dec 0 range
      then map (fun ks => (fst ks, (snd ks - minScore) / range)) scores
      else scores
  end.

(** [btlScores[id] || 0.5] *)
Definition scoreOr (btlScores : Scores) (key : string) : R :=
  match lookup key btlScores with
  | Some s => orElse s 0.5
  | None => 0.5
  end.

Definition standingOf (btlScores : Scores) (data : MoveStats) : Standing :=
  {| moveOf := move data;
     btlScore := scoreOr btlScores (id (move data));
     userWins := wins data;
     userTotal := total data;
     winRate := if (0 <? total data)%nat then wins data / INR (total data) else 0;
     confidence := calculateConfidence (INR (total data)) |}.

Definition typeChoicesOf (userChoices : list Choice) (moveType' : string) : list Choice :=
  filter (fun choice => String.eqb (moveType choice) moveType') userChoices.

Definition calculateBTLScores (moves : list Move) (userChoices : list Choice)
    (moveType' : string) : list Standing :=
  let typeChoices := typeChoicesOf userChoices moveType' in
  match typeChoices with
  | [] => []
  | _ =>
      let moveData := createMoveDataMap moves typeChoices in
      let btlScores := calculateBTLIterative moveData in
      map (standingOf btlScores) (values moveData)
  end.

(** *** Tiers *)

Inductive TierName := TierS | TierA | TierB | TierC | TierD | TierF.

Record Tiers := {
  tS : list Standing;
  tA : list Standing;
  tB : list Standing;
  tC : list Standing;
  tD : list Standing;
  tF : list Standing
}.

Definition noTiers : Tiers :=
  {| tS := []; tA := []; tB := []; tC := []; tD := []; tF := [] |}.

Definition bucket (t : TierName) (ts : Tiers) : list Standing :=
  match t with
  | TierS => tS ts | TierA => tA ts | TierB => tB ts
  | TierC => tC ts | TierD => tD ts | TierF => tF ts
  end.

(** [tiers[t].push(m)] *)
Definition push (t : TierName) (m : Standing) (ts : Tiers) : Tiers :=
  match t with
  | TierS => {| tS := tS ts ++ [m]; tA := tA ts; tB := tB ts; tC := tC ts; tD := tD ts; tF := tF ts |}
  | TierA => {| tS := tS ts; tA := tA ts ++ [m]; tB := tB ts; tC := tC ts; tD := tD ts; tF := tF ts |}
  | TierB => {| tS := tS ts; tA := tA ts; tB := tB ts ++ [m]; tC := tC ts; tD := tD ts; tF := tF ts |}
  | TierC => {| tS := tS ts; tA := tA ts; tB := tB ts; tC := tC ts ++ [m]; tD := tD ts; tF := tF ts |}
  | TierD => {| tS := tS ts; tA := tA ts; tB := tB ts; tC := tC ts; tD := tD ts ++ [m]; tF := tF ts |}
  | TierF => {| tS := tS ts; tA := tA ts; tB := tB ts; tC := tC ts; tD := tD ts; tF := tF ts ++ [m] |}
  end.

(** [sort((a, b) => b.btlScore - a.btlScore)]: the sort is stable, so an
    element moves behind another one only when that one's score is strictly
    larger. *)
Fixpoint insertDesc (x : Standing) (l : list Standing) : list Standing :=
  match l with
  | [] => [x]
  | y :: l' =>
      if Rlt_dec (btlScore x) (btlScore y) then y :: insertDesc x l'
      else x :: y :: l'
  end.

Definition sortDesc (l : list Standing) : list Standing :=
  fold_right insertDesc [] l.

Definition percentileOf (index totalMoves : nat) : R :=
  INR index / INR totalMoves * 100.

Definition tierOfPercentile (percentile : R) : TierName :=
  if Rlt_dec percentile 10 then TierS
  else if Rlt_dec percentile 25 then TierA
  else if Rlt_dec percentile 50 then TierB
  else if Rlt_dec percentile 75 then TierC
  else if Rlt_dec percentile 90 then TierD
  else TierF.

(** The [forEach((move, index) => ...)] loop from position [index] on. *)
Fixpoint tierLoop (totalMoves index : nat) (l : list Standing) (ts : Tiers) : Tiers :=
  match l with
  | [] => ts
  | m :: l' =>
      tierLoop totalMoves (S index) l'
        (push (tierOfPercentile (percentileOf index totalMoves)) m ts)
  end.

(** [groupMovesByTier(movesWithScores)]: the first component is the content
    of the argument array when the call returns, the second the result. *)
Definition groupMovesByTier (movesWithScores : list Standing) : list Standing * Tiers :=
  let sortedMoves := sortDesc movesWithScores in
  let totalMoves := List.length sortedMoves in
  (sortedMoves, tierLoop totalMoves 0 sortedMoves noTiers).

(** *** Prediction *)

Record Prediction := {
  move1Score : R;
  move2Score : R;
  predictedWinner : Z;
  predictionConfidence : R
}.

Definition predictionRate (d : MoveStats) : R :=
  if (0 <? total d)%nat then wins d / INR (total d) else 0.5.

Definition calculateBTLPrediction (m1 m2 : Move) (moveData : MoveData) : Prediction :=
  match lookup (id m1) moveData, lookup (id m2) moveData with
  | Some move1Data, Some move2Data =>
      let move1WinRate := predictionRate move1Data in
      let move2WinRate := predictionRate move2Data in
      let totalRate := move1WinRate + move2WinRate in
      let s1 := if Rlt_dec 0 totalRate then move1WinRate / totalRate else 0.5 in
      let s2 := if Rlt_dec 0 totalRate then move2WinRate / totalRate else 0.5 in
      let winner :=
        if Rlt_dec (s2 + 0.1) s1 then 1%Z
        else if Rlt_dec (s1 + 0.1) s2 then 2%Z
        else 0%Z in
      let totalComparisons := (total move1Data + total move2Data)%nat in
      {| move1Score := s1; move2Score := s2; predictedWinner := winner;
         predictionConfidence := calculateConfidence (INR totalComparisons) |}
  | _, _ =>
      {| move1Score := 0.5; move2Score := 0.5; predictedWinner := 0;
         predictionConfidence := 0 |}
  end.

End BTL.

(** ** Tallies counted directly from a list of choices

    What one choice adds to the tallies of the move [key], and the sums over
    a list of choices, accumulated from left to right as the engine does. *)

Module Tally.
Import BTL.

Definition participant (key : string) (c : Choice) : bool :=
  String.eqb (id (move1 c)) key || String.eqb (id (move2 c)) key.

(** Both participants are in the move list. *)
Definition bothKnown (moves : list Move) (c : Choice) : bool :=
  moveMap_has moves (id (move1 c)) && moveMap_has moves (id (move2 c)).

Definition totalGain (key : string) (c : Choice) : nat :=
  (if String.eqb (id (move1 c)) key then 1 else 0) +
  (if String.eqb (id (move2 c)) key then 1 else 0).

Definition winsGain (key : string) (c : Choice) : R :=
  if (userChoice c =? 1)%Z then (if String.eqb (id (move1 c)) key then 1 else 0)
  else if (userChoice c =? 2)%Z then (if String.eqb (id (move2 c)) key then 1 else 0)
  else (if String.eqb (id (move1 c)) key then 0.5 else 0) +
       (if String.eqb (id (move2 c)) key then 0.5 else 0).

Definition totalFrom (key : string) (cs : list Choice) (t0 : nat) : nat :=
  fold_left (fun t c => (t + totalGain key c)%nat) cs t0.

Definition winsFrom (key : string) (cs : list Choice) (w0 : R) : R :=
  fold_left (fun w c => w + winsGain key c) cs w0.

(** [moveData[key]] is truthy *)
Definition has (key : string) (moveData : MoveData) : bool :=
  match Obj.lookup key moveData with Some _ => true | None => false end.

(** The guard of the second loop of [createMoveDataMap]. *)
Definition present (moveData : MoveData) (c : Choice) : bool :=
  has (id (move1 c)) moveData && has (id (move2 c)) moveData.

(** Every entry made by the first loop is a move of the list under its own
    id, with empty tallies, and no id is entered twice. *)
Definition fresh (moves : list Move) (md : MoveData) : Prop :=
  NoDup (Obj.keys md) /\
  Forall (fun kd => moveMap_get moves (fst kd) = Some (move (snd kd)) /\
                    wins (snd kd) = 0 /\ total (snd kd) = 0%nat) md.

End Tally.

(** ** Scaling, and the two-step definition of the specification *)

Module Scale.
Import Num Obj BTL.

(** [maxScore], [minScore] and the scaling step of [calculateBTLIterative]
    applied to one seed score. *)
Definition maxSeed (moveData : MoveData) : R := maxOf (values (seedScores moveData)).
Definition minSeed (moveData : MoveData) : R := minOf (values (seedScores moveData)).

Definition scaled (moveData : MoveData) (s : R) : R :=
  if Rlt_dec 0 (maxSeed moveData - minSeed moveData)
  then (s - minSeed moveData) / (maxSeed moveData - minSeed moveData)
  else s.

End Scale.

Module Reference.
Import Num Confidence Obj BTL.

(** The definition in the words of the specification.  Step 2: an item with
    [total > 0] has the seed [winRate * (0.5 + 0.5 * confidence(total))],
    confidence being the logistic curve.  Step 3: the maximum and the minimum
    are taken over the items with [total > 0]; when [max > min] every such
    item is rescaled to [(score - min) / (max - min)]; an item with
    [total = 0] keeps [0.5]. *)
Definition seed (d : MoveStats) : R :=
  wins d / INR (total d) * (0.5 + 0.5 * logistic (INR (total d))).

Definition scoredSeeds (moveData : MoveData) : list R :=
  map (fun kd => seed (snd kd))
      (filter (fun kd => (0 <? total (snd kd))%nat) moveData).

Definition strength (moveData : MoveData) (d : MoveStats) : R :=
  if (0 <? total d)%nat then
    let max := maxOf (scoredSeeds moveData) in
    let min := minOf (scoredSeeds moveData) in
    if Rlt_dec min max then (seed d - min) / (max - min) else seed d
  else 0.5.

(** The strength score of every standing is the one of the two-step
    definition. *)
Definition agrees (moves : list Move) (userChoices : list Choice) (moveType' : string) : Prop :=
  let moveData := createMoveDataMap moves (typeChoicesOf userChoices moveType') in
  forall s key d,
    In s (calculateBTLScores moves userChoices moveType') ->
    lookup key moveData = Some d ->
    moveOf s = move d ->
    btlScore s = strength moveData d.

End Reference.

(** ** Ranks and tiers *)

Module Ranking.
Import BTL.

Definition tierIdx (t : TierName) : nat :=
  match t with
  | TierS => 0 | TierA => 1 | TierB => 2 | TierC => 3 | TierD => 4 | TierF => 5
  end.

Definition tier_eqb (a b : TierName) : bool := Nat.eqb (tierIdx a) (tierIdx b).

(** The six buckets one after the other, from S to F. *)
Definition allTiers (ts : Tiers) : list Standing :=
  tS ts ++ tA ts ++ tB ts ++ tC ts ++ tD ts ++ tF ts.

Definition descending : list Standing -> Prop :=
  StronglySorted (fun a b => btlScore b <= btlScore a).

(** The elements of a list with their positions, counted from [start]. *)
Definition rankedFrom (start : nat) (l : list Standing) : list (nat * Standing) :=
  combine (seq start (List.length l)) l.

(** The elements whose position falls into the percentile band of [t]. *)
Definition atTier (t : TierName) (totalMoves : nat) (il : list (nat * Standing)) : list Standing :=
  map snd (filter (fun p => tier_eqb (tierOfPercentile (percentileOf (fst p) totalMoves)) t) il).

(** The band of a position, by integer arithmetic. *)
Definition rankTier (index totalMoves : nat) : TierName :=
  if (100 * index <? 10 * totalMoves)%nat then TierS
  else if (100 * index <? 25 * totalMoves)%nat then TierA
  else if (100 * index <? 50 * totalMoves)%nat then TierB
  else if (100 * index <? 75 * totalMoves)%nat then TierC
  else if (100 * index <? 90 * totalMoves)%nat then TierD
  else TierF.

End Ranking.

(** ** The neutral standing *)

Module Neutral.
Import BTL Tally.

(** Every move of the list that takes part in no choice of the category has
    a standing with score [0.5] and empty tallies. *)
Definition neutralStandings (moves : list Move) (userChoices : list Choice)
    (moveType' : string) : Prop :=
  forall m,
    In m moves ->
    existsb (participant (id m)) (typeChoicesOf userChoices moveType') = false ->
    exists s,
      In s (calculateBTLScores moves userChoices moveType') /\
      moveOf s = m /\ btlScore s = 0.5 /\
      userWins s = 0 /\ userTotal s = 0%nat /\ confidence s = 0.

End Neutral.

(** ** Sample data *)

Module Examples.
Import BTL.

Definition mk (i : string) : Move :=
  {| id := i; name := i; characterDisplayName := i |}.

(** A choice of the category [jab]. *)
Definition jab (a b : string) (u : Z) : Choice :=
  {| move1 := mk a; move2 := mk b; userChoice := u; moveType := "jab" |}.

Definition standing (i : string) (score : R) : Standing :=
  {| moveOf := mk i; btlScore := score; userWins := 0; userTotal := 0;
     winRate := 0; confidence := 0 |}.

Definition entry (i : string) (w : R) (t : nat) : string * MoveStats :=
  (i, {| move := mk i; wins := w; total := t; opponents := [] |}).

End Examples.

(** ** Sums over the standings *)

Module Totals.
Import BTL.



(** The ids of the standings, in the order of the result. *)
Definition standingIds (l : list Standing) : list string :=
  map (fun s => id (moveOf s)) l.

End Totals.

(** ** Opponents *)

Module Opponents.
Import BTL.

(** The choice [c] puts [key] against [x]. *)
Definition faced (key x : string) (c : Choice) : bool :=
  (String.eqb (id (move1 c)) key && String.eqb (id (move2 c)) x) ||
  (String.eqb (id (move2 c)) key && String.eqb (id (move1 c)) x).

(** [set.add(x)] on the list of the elements of a [Set]. *)
Definition setAdd (x : string) (l : list string) : list string :=
  if existsb (String.eqb x) l then l else l ++ [x].

(** What one counted choice does to the opponents of [key]. *)
Definition oppStep (key : string) (c : Choice) (l : list string) : list string :=
  let l1 := if String.eqb (id (move1 c)) key then setAdd (id (move2 c)) l else l in
  if String.eqb (id (move2 c)) key then setAdd (id (move1 c)) l1 else l1.

Definition oppFrom (key : string) (cs : list Choice) (l : list string) : list string :=
  fold_left (fun l c => oppStep key c l) cs l.

End Opponents.

(** ** Reading a prediction *)

Module Predict.
Import BTL.

(** The prediction returned when an entry is missing. *)
Definition neutralPrediction : Prediction :=
  {| move1Score := 0.5; move2Score := 0.5; predictedWinner := 0;
     predictionConfidence := 0 |}.

(** The same prediction seen from the other move. *)
Definition mirrored (p : Prediction) : Prediction :=
  {| move1Score := move2Score p;
     move2Score := move1Score p;
     predictedWinner :=
       if (predictedWinner p =? 1)%Z then 2
       else if (predictedWinner p =? 2)%Z then 1 else 0;
     predictionConfidence := predictionConfidence p |}.

End Predict.

(** ** Slices of the sorted array *)

Module Slices.
Import BTL.

(** The number of positions [index < totalMoves] whose percentile
    [index / totalMoves * 100] is below [q]: the ceiling of
    [q * totalMoves / 100]. *)
Definition cut (q totalMoves : nat) : nat := (q * totalMoves + 99) / 100.

(** The positions [lo <= index < hi] of a list. *)
Definition slice {A : Type} (lo hi : nat) (l : list A) : list A := skipn lo (firstn hi l).

(** The lower and the upper percentile of a tier's band. *)
Definition bandOf (t : TierName) : nat * nat :=
  match t with
  | TierS => (0, 10) | TierA => (10, 25) | TierB => (25, 50)
  | TierC => (50, 75) | TierD => (75, 90) | TierF => (90, 100)
  end%nat.

(** [x.btlScore === s] *)
Definition scoreIs (s : R) (x : Standing) : bool :=
  if Req_dec_T (btlScore x) s then true else false.

End Slices.

(** ** Statistics ([getBTLStatistics], [getTotalComparisons]) *)

Module Stats.
Import Num BTL Opponents.

(** A choice as the comparison page stores it: the choice and, when one was
    made, the prediction shown with it ([choice.btlPrediction]). *)
Record StoredChoice := {
  choiceOf : Choice;
  btlPrediction : option Prediction
}.

Record Statistics := {
  totalComparisons : nat;
  uniqueMoves : nat;
  averageConfidence : R;
  tieRate : R;
  agreementRate : R
}.

(** [choice.btlPrediction && choice.btlPrediction.predictedWinner === choice.userChoice] *)
Definition agrees (c : StoredChoice) : bool :=
  match btlPrediction c with
  | Some p => (predictedWinner p =? userChoice (choiceOf c))%Z
  | None => false
  end.

(** [choice.btlPrediction?.confidence || 0] *)
Definition confidenceOr0 (c : StoredChoice) : R :=
  match btlPrediction c with
  | Some p => orElse (predictionConfidence p) 0
  | None => 0
  end.

(** The elements of the [Set] of the ids, in insertion order. *)
Definition uniqueMoveIds (typeChoices : list StoredChoice) : list string :=
  fold_left (fun ids c => setAdd (id (move2 (choiceOf c)))
                                 (setAdd (id (move1 (choiceOf c))) ids))
            typeChoices [].

Definition getBTLStatistics (userChoices : list StoredChoice) (moveType' : string) : Statistics :=
  let typeChoices :=
    filter (fun c => String.eqb (moveType (choiceOf c)) moveType') userChoices in
  match typeChoices with
  | [] =>
      {| totalComparisons := 0; uniqueMoves := 0; averageConfidence := 0;
         tieRate := 0; agreementRate := 0 |}
  | _ =>
      let totalComparisons := List.length typeChoices in
      let ties :=
        List.length (filter (fun c => (userChoice (choiceOf c) =? 0)%Z) typeChoices) in
      let tieRate :=
        if (0 <? totalComparisons)%nat then INR ties / INR totalComparisons else 0 in
      let agreements := List.length (filter agrees typeChoices) in
      let agreementRate :=
        if (0 <? totalComparisons)%nat then INR agreements / INR totalComparisons else 0 in
      let totalConfidence :=
        fold_left (fun sum c => sum + confidenceOr0 c) typeChoices 0 in
      let averageConfidence :=
        if (0 <? totalComparisons)%nat then totalConfidence / INR totalComparisons else 0 in
      {| totalComparisons := totalComparisons;
         uniqueMoves := List.length (uniqueMoveIds typeChoices);
         averageConfidence := averageConfidence;
         tieRate := tieRate;
         agreementRate := agreementRate |}
  end.

(** [getTotalComparisons(move1Data, move2Data)] *)
Definition getTotalComparisons (move1Data move2Data : MoveStats) : nat :=
  Nat.min (total move1Data) (total move2Data).

End Stats.

(** ** The tier list of the global rankings ([src/web/tier-list.js]) *)

Module Global.
Import Num BTL.

(** [[...new Set(l)]] on numbers: the first occurrence of every value. *)
Fixpoint uniqueOf (seen l : list R) : list R :=
  match l with
  | [] => []
  | x :: l' =>
      if in_dec Req_dec_T x seen then uniqueOf seen l'
      else x :: uniqueOf (x :: seen) l'
  end.

(** [sort((a, b) => b - a)] on numbers. *)
Fixpoint insertNumDesc (x : R) (l : list R) : list R :=
  match l with
  | [] => [x]
  | y :: l' => if Rlt_dec x y then y :: insertNumDesc x l' else x :: y :: l'
  end.

Definition sortNumDesc (l : list R) : list R := fold_right insertNumDesc [] l.

(** [scoreGroups]: an object whose keys are scores. *)
Definition ScoreGroups := list (R * list Standing).

Fixpoint groupOf (score : R) (groups : ScoreGroups) : option (list Standing) :=
  match groups with
  | [] => None
  | (k, g) :: groups' =>
      if Req_dec_T k score then Some g else groupOf score groups'
  end.

(** [scoreGroups[score].push(move)] on a key that is present. *)
Fixpoint pushTo (score : R) (m : Standing) (groups : ScoreGroups) : ScoreGroups :=
  match groups with
  | [] => []
  | (k, g) :: groups' =>
      if Req_dec_T k score then (k, g ++ [m]) :: groups'
      else (k, g) :: pushTo score m groups'
  end.

(** The body of [sortedRankings.forEach(move => ...)]. *)
Definition addToGroup (groups : ScoreGroups) (m : Standing) : ScoreGroups :=
  let score := orElse (btlScore m) 0 in
  let groups' :=
    match groupOf score groups with
    | Some _ => groups
    | None => groups ++ [(score, [])]
    end in
  pushTo score m groups'.

Definition tierNames : list TierName := [TierS; TierA; TierB; TierC; TierD; TierF].

(** [tieredMoves[t] = tieredMoves[t].concat(g)] *)
Definition concatTo (t : TierName) (g : list Standing) (ts : Tiers) : Tiers :=
  match t with
  | TierS => {| tS := tS ts ++ g; tA := tA ts; tB := tB ts; tC := tC ts; tD := tD ts; tF := tF ts |}
  | TierA => {| tS := tS ts; tA := tA ts ++ g; tB := tB ts; tC := tC ts; tD := tD ts; tF := tF ts |}
  | TierB => {| tS := tS ts; tA := tA ts; tB := tB ts ++ g; tC := tC ts; tD := tD ts; tF := tF ts |}
  | TierC => {| tS := tS ts; tA := tA ts; tB := tB ts; tC := tC ts ++ g; tD := tD ts; tF := tF ts |}
  | TierD => {| tS := tS ts; tA := tA ts; tB := tB ts; tC := tC ts; tD := tD ts ++ g; tF := tF ts |}
  | TierF => {| tS := tS ts; tA := tA ts; tB := tB ts; tC := tC ts; tD := tD ts; tF := tF ts ++ g |}
  end.

(** The body of [for (const score of uniqueScores)]; the state is
    [tieredMoves] and [currentTierIndex].  Every score of [uniqueScores] is a
    key of [scoreGroups] (shown below), so the missing group, which
    JavaScript would append as [undefined], does not occur. *)
Definition assignGroup (scoreGroups : ScoreGroups) (state : Tiers * nat) (score : R)
    : Tiers * nat :=
  let (tieredMoves, currentTierIndex) := state in
  let movesWithScore :=
    match groupOf score scoreGroups with Some g => g | None => [] end in
  if (currentTierIndex <? List.length tierNames)%nat then
    let currentTier := nth currentTierIndex tierNames TierF in
    (concatTo currentTier movesWithScore tieredMoves, S currentTierIndex)
  else
    (concatTo TierF movesWithScore tieredMoves, currentTierIndex).

Section Sorting.

(** [a.localeCompare(b)]: negative, zero or positive. *)
Variable localeCompare : string -> string -> Z.

(** The comparison function of the sort: positive when [b] goes first. *)
Definition goesAfter (a b : Standing) : bool :=
  let scoreDiff := orElse (btlScore b) 0 - orElse (btlScore a) 0 in
  if Req_dec_T scoreDiff 0
  then (0 <? localeCompare (characterDisplayName (moveOf a))
                           (characterDisplayName (moveOf b)))%Z
  else if Rlt_dec 0 scoreDiff then true else false.

(** The stable sort with that comparison function: an element moves behind
    the ones that the function puts first. *)
Fixpoint insertRanking (x : Standing) (l : list Standing) : list Standing :=
  match l with
  | [] => [x]
  | y :: l' => if goesAfter x y then y :: insertRanking x l' else x :: y :: l'
  end.

Definition sortRankings (l : list Standing) : list Standing :=
  fold_right insertRanking [] l.

Definition groupGlobalRankingsByTier (globalRankings : list Standing) : Tiers :=
  let sortedRankings := sortRankings globalRankings in
  let scoreGroups := fold_left addToGroup sortedRankings [] in
  let uniqueScores := sortNumDesc (uniqueOf [] (map btlScore sortedRankings)) in
  fst (fold_left (assignGroup scoreGroups) uniqueScores (noTiers, 0%nat)).

End Sorting.

(** The tier of the [j]-th score of [uniqueScores]. *)
Definition tierAt (j : nat) : TierName := nth j tierNames TierF.

End Global.

(** ** Reading the loop over the unique scores *)

Module GlobalSpec.
Import BTL Ranking Slices Global.

(** [scoreGroups[score]], an absent group read as empty. *)
Definition groupOr (o : option (list Standing)) : list Standing :=
  match o with Some g => g | None => [] end.

(** The rankings with the score [s], in the order of [l]. *)
Definition withScore (s : R) (l : list Standing) : list Standing := filter (scoreIs s) l.

(** What the scores of [scores], the first of them at position [j], bring
    into the tier [t]. *)
Fixpoint collect (sorted : list Standing) (t : TierName) (j : nat) (scores : list R)
    : list Standing :=
  match scores with
  | [] => []
  | s :: scores' =>
      (if tier_eqb (tierAt j) t then withScore s sorted else []) ++
      collect sorted t (S j) scores'
  end.

End GlobalSpec.

(** ** One sprite per character ([getUniqueCharactersForTierFromGlobal]) *)

Module Characters.
Import Num Obj BTL.

(** A global ranking: a standing as it was saved, and the [character] field
    that is read when [characterDisplayName] is empty. *)
Record GlobalRanking := {
  rankingOf : Standing;
  character : string
}.

Record CharacterEntry := {
  entryName : string;
  bestMove : GlobalRanking;
  entryScore : R
}.

(** [ranking.characterDisplayName || ranking.character] *)
Definition nameOf (ranking : GlobalRanking) : string :=
  let displayName := characterDisplayName (moveOf (rankingOf ranking)) in
  if String.eqb displayName "" then character ranking else displayName.

Definition entryFor (ranking : GlobalRanking) : CharacterEntry :=
  {| entryName := nameOf ranking;
     bestMove := ranking;
     entryScore := orElse (btlScore (rankingOf ranking)) 0 |}.

(** The body of [globalRankings.forEach(ranking => ...)] on the entries of
    [characterMap], in the order of their insertion. *)
Definition noteRanking (characterMap : list (string * CharacterEntry))
    (ranking : GlobalRanking) : list (string * CharacterEntry) :=
  let characterName := nameOf ranking in
  match lookup characterName characterMap with
  | None => characterMap ++ [(characterName, entryFor ranking)]
  | Some existing =>
      if Rlt_dec (orElse (entryScore existing) 0) (orElse (btlScore (rankingOf ranking)) 0)
      then update characterName (fun _ => entryFor ranking) characterMap
      else characterMap
  end.

(** [sort((a, b) => (b.btlScore || 0) - (a.btlScore || 0))] *)
Fixpoint insertEntry (x : CharacterEntry) (l : list CharacterEntry) : list CharacterEntry :=
  match l with
  | [] => [x]
  | y :: l' =>
      if Rlt_dec (orElse (entryScore x) 0) (orElse (entryScore y) 0)
      then y :: insertEntry x l' else x :: y :: l'
  end.

Definition sortEntries (l : list CharacterEntry) : list CharacterEntry :=
  fold_right insertEntry [] l.

Definition getUniqueCharactersForTierFromGlobal (globalRankings : list GlobalRanking)
    : list CharacterEntry :=
  sortEntries (values (fold_left noteRanking globalRankings [])).

(** What [characterMap] knows after the rankings [seen]. *)
Definition bestSoFar (seen : list GlobalRanking) (characterMap : list (string * CharacterEntry))
    : Prop :=
  NoDup (keys characterMap) /\
  (forall r, In r seen -> lookup (nameOf r) characterMap <> None) /\
  forall name e, lookup name characterMap = Some e ->
    entryName e = name /\ nameOf (bestMove e) = name /\ In (bestMove e) seen /\
    entryScore e = btlScore (rankingOf (bestMove e)) /\
    forall r, In r seen -> nameOf r = name -> btlScore (rankingOf r) <= entryScore e.

End Characters.

(** ** The tally pass of the demo script ([src/scripts/btl-demo.js]) *)

Module Demo.
Import Obj BTL.

(** [moveData[key] = v]: an existing property is overwritten in place, a
    new one is appended. *)
Definition setEntry (key : string) (v : MoveStats) (moveData : MoveData) : MoveData :=
  match lookup key moveData with
  | Some _ => update key (fun _ => v) moveData
  | None => moveData ++ [(key, v)]
  end.

(** The body of [moves.forEach(move => ...)]. *)
Definition initEntry (moveData : MoveData) (m : Move) : MoveData :=
  setEntry (id m) {| move := m; wins := 0; total := 0; opponents := [] |} moveData.

(** [createMoveDataMap] of the demo: every move of the list gets an entry,
    then the choices are recorded by the same loop as in the calculator of
    the web page. *)
Definition createMoveDataMap (moves : list Move) (choices : list Choice) : MoveData :=
  fold_left recordChoice choices (fold_left initEntry moves []).

End Demo.

(** ** What a plain object inherits

    [moveData] is created as [{}], so [moveData[key]] also finds what the
    object inherits from [Object.prototype].  For each of the names below
    that is a function (for [__proto__] the prototype object itself): a
    truthy value without [total], [wins] or [opponents].  Both guards of
    [createMoveDataMap] and the guard of [calculateBTLPrediction] see it:
    [!moveData[id]] is false, so no entry is ever stored under such a name,
    and [moveData[id1] && moveData[id2]] is passed, after which
    [moveData[id].opponents.add(...)] is a call on [undefined] and throws a
    [TypeError].

    [BTL] above is the engine on own properties; this module adds the
    inherited ones on top of it, and [ProtoFacts] relates the two. *)

Module Proto.
Import Obj BTL.

(** The properties of [Object.prototype] (ECMA-262, section 20.1.3 and
    annex B.2.2). *)
Definition objectPrototype : list string :=
  ["constructor"; "__defineGetter__"; "__defineSetter__"; "hasOwnProperty";
   "__lookupGetter__"; "__lookupSetter__"; "isPrototypeOf";
   "propertyIsEnumerable"; "toString"; "valueOf"; "__proto__";
   "toLocaleString"]%string.

Definition inherited (key : string) : bool :=
  existsb (String.eqb key) objectPrototype.

(** What [moveData[key]] evaluates to. *)
Inductive Value :=
| Entry (data : MoveStats)
| Inherited
| Undefined.

Definition get (moveData : MoveData) (key : string) : Value :=
  match lookup key moveData with
  | Some data => Entry data
  | None => if inherited key then Inherited else Undefined
  end.

Definition truthy (v : Value) : bool :=
  match v with
  | Undefined => false
  | _ => true
  end.

(** A call returns a value or throws. *)
Inductive Outcome (A : Type) : Type :=
| Returns (a : A)
| Throws.

Arguments Returns {A} a.
Arguments Throws {A}.

Definition bind {A B : Type} (o : Outcome A) (f : A -> Outcome B) : Outcome B :=
  match o with
  | Returns a => f a
  | Throws => Throws
  end.

(** First loop of [createMoveDataMap] (lines 89 and 99):
    [moveMap.has(id) && !moveData[id]]. *)
Definition initMove (moves : list Move) (moveData : MoveData) (moveId : string) : MoveData :=
  if moveMap_has moves moveId && negb (truthy (get moveData moveId)) then
    match moveMap_get moves moveId with
    | Some m =>
        moveData ++ [(moveId, {| move := m; wins := 0; total := 0; opponents := [] |})]
    | None => moveData
    end
  else moveData.

Definition initChoice (moves : list Move) (moveData : MoveData) (choice : Choice) : MoveData :=
  initMove moves (initMove moves moveData (id (move1 choice))) (id (move2 choice)).

(** Second loop (lines 123 to 140).  With two entries the body is the one of
    [BTL.recordChoice]; when one of the two values is inherited, line 125
    and 126 write a [NaN] to it and line 127 or 128 throws. *)
Definition recordChoice (moveData : MoveData) (choice : Choice) : Outcome MoveData :=
  let move1Id := id (move1 choice) in
  let move2Id := id (move2 choice) in
  if truthy (get moveData move1Id) && truthy (get moveData move2Id) then
    match get moveData move1Id, get moveData move2Id with
    | Entry _, Entry _ => Returns (BTL.recordChoice moveData choice)
    | _, _ => Throws
    end
  else Returns moveData.

Definition recordLoop (choices : list Choice) (moveData : MoveData) : Outcome MoveData :=
  fold_left (fun state choice => bind state (fun md => recordChoice md choice))
            choices (Returns moveData).

Definition createMoveDataMap (moves : list Move) (choices : list Choice) : Outcome MoveData :=
  recordLoop choices (fold_left (initChoice moves) choices []).

(** [scores] has the own keys of [moveData] and is read under these keys
    only, so the rest of [calculateBTLScores] is the one of [BTL]. *)
Definition calculateBTLScores (moves : list Move) (userChoices : list Choice)
    (moveType' : string) : Outcome (list Standing) :=
  let typeChoices := typeChoicesOf userChoices moveType' in
  match typeChoices with
  | [] => Returns []
  | _ =>
      bind (createMoveDataMap moves typeChoices) (fun moveData =>
        let btlScores := calculateBTLIterative moveData in
        Returns (map (standingOf btlScores) (values moveData)))
  end.

(** The result of [calculateBTLPrediction]; the confidence [None] is
    [NaN]. *)
Record Prediction := {
  move1Score : R;
  move2Score : R;
  predictedWinner : Z;
  predictionConfidence : option R
}.

Definition neutralPrediction : Prediction :=
  {| move1Score := 0.5; move2Score := 0.5; predictedWinner := 0;
     predictionConfidence := Some 0 |}.

(** [data.total > 0 ? data.wins / data.total : 0.5]: an inherited value has
    no [total], and [undefined > 0] is false. *)
Definition rateOf (v : Value) : R :=
  match v with
  | Entry data => predictionRate data
  | _ => 0.5
  end.

(** [data.total] as a number, [None] for [undefined]; a sum with
    [undefined] is [NaN], and so is the confidence computed from it. *)
Definition totalOf (v : Value) : option nat :=
  match v with
  | Entry data => Some (total data)
  | _ => None
  end.

Definition calculateBTLPrediction (m1 m2 : Move) (moveData : MoveData) : Prediction :=
  let move1Data := get moveData (id m1) in
  let move2Data := get moveData (id m2) in
  if negb (truthy move1Data) || negb (truthy move2Data) then neutralPrediction
  else
    let move1WinRate := rateOf move1Data in
    let move2WinRate := rateOf move2Data in
    let totalRate := move1WinRate + move2WinRate in
    let s1 := if Rlt_dec 0 totalRate then move1WinRate / totalRate else 0.5 in
    let s2 := if Rlt_dec 0 totalRate then move2WinRate / totalRate else 0.5 in
    let winner :=
      if Rlt_dec (s2 + 0.1) s1 then 1%Z
      else if Rlt_dec (s1 + 0.1) s2 then 2%Z
      else 0%Z in
    {| move1Score := s1; move2Score := s2; predictedWinner := winner;
       predictionConfidence :=
         match totalOf move1Data, totalOf move2Data with
         | Some t1, Some t2 => Some (Confidence.calculateConfidence (INR (t1 + t2)))
         | _, _ => None
         end |}.

(** A prediction of [BTL] as one of this module. *)
Definition ofPrediction (p : BTL.Prediction) : Prediction :=
  {| move1Score := BTL.move1Score p; move2Score := BTL.move2Score p;
     predictedWinner := BTL.predictedWinner p;
     predictionConfidence := Some (BTL.predictionConfidence p) |}.

(** *** Reading the two loops *)

(** The moves an entry can be stored for. *)
Definition plainMoves (moves : list Move) : list Move :=
  filter (fun m => negb (inherited (id m))) moves.

(** Neither participant is named like an inherited property. *)
Definition plain (c : Choice) : bool :=
  negb (inherited (id (move1 c))) && negb (inherited (id (move2 c))).

(** The choice passes the guard of the second loop on an inherited value:
    one participant is named like an inherited property, and the other one
    is so too or is a move of the list. *)
Definition poisoned (moves : list Move) (c : Choice) : bool :=
  (inherited (id (move1 c)) || inherited (id (move2 c))) &&
  (inherited (id (move1 c)) || moveMap_has moves (id (move1 c))) &&
  (inherited (id (move2 c)) || moveMap_has moves (id (move2 c))).

(** The same, read off a given [moveData]. *)
Definition failsOn (moveData : MoveData) (c : Choice) : bool :=
  truthy (get moveData (id (move1 c))) && truthy (get moveData (id (move2 c))) &&
  (inherited (id (move1 c)) || inherited (id (move2 c))).

(** No entry is stored under the name of an inherited property. *)
Definition noInherited (moveData : MoveData) : Prop :=
  forall key, inherited key = true -> lookup key moveData = None.

End Proto.

(** ** The percentile bands in the words of the specification *)

Module TierSpec.
Import BTL.

(** The bucket of a standing is chosen by its rank position [index/total]:
    [[0,10%)] S, [[10%,25%)] A, [[25%,50%)] B, [[50%,75%)] C, [[75%,90%)] D
    and [[90%,100%]] F. *)
Definition lower (t : TierName) : R :=
  match t with
  | TierS => 0 | TierA => 10 / 100 | TierB => 25 / 100
  | TierC => 50 / 100 | TierD => 75 / 100 | TierF => 90 / 100
  end.

Definition upper (t : TierName) : R :=
  match t with
  | TierS => 10 / 100 | TierA => 25 / 100 | TierB => 50 / 100
  | TierC => 75 / 100 | TierD => 90 / 100 | TierF => 100 / 100
  end.

Definition inBand (t : TierName) (position : R) : bool :=
  if Rle_dec (lower t) position then
    match t with
    | TierF => if Rle_dec position (upper t) then true else false
    | _ => if Rlt_dec position (upper t) then true else false
    end
  else false.

(** The elements of a ranked list whose rank position lies in the band of
    [t]. *)
Definition inBandOf (t : TierName) (ranked : list Standing) : list Standing :=
  map snd (filter (fun p => inBand t (INR (fst p) / INR (List.length ranked)))
                  (combine (seq 0 (List.length ranked)) ranked)).

End TierSpec.

(** ** Rounding *)

Module Rounding.

(** The engine computes on double precision numbers.  A quotient or a sum
    of the model and the number the engine holds differ by a few units in
    the sixteenth digit; statements that compare two computed numbers
    leave this margin around the point of equality. *)
Definition tolerance : R := 1 / 1000000000.

End Rounding.

(** ** The arithmetic of the prediction on binary64 numbers *)

Module Binary64.
Import PrimFloat.
#[local] Set Warnings "-inexact-float".
#[local] Open Scope float_scope.

(** Lines 285 to 299 of [calculateBTLPrediction] on IEEE 754 double
    precision numbers, the numbers of the engine: the two win rates from the
    tallies, the two scores and the predicted winner. *)
Definition winRate (wins total : float) : float :=
  if 0 <? total then wins / total else 0.5.

(** A whole number as the engine holds it. *)
Definition number (n : Z) : float := of_uint63 (Uint63.of_Z n).

Definition move1Score (wins1 total1 wins2 total2 : float) : float :=
  let move1WinRate := winRate wins1 total1 in
  let move2WinRate := winRate wins2 total2 in
  let totalRate := move1WinRate + move2WinRate in
  if 0 <? totalRate then move1WinRate / totalRate else 0.5.

Definition move2Score (wins1 total1 wins2 total2 : float) : float :=
  let move1WinRate := winRate wins1 total1 in
  let move2WinRate := winRate wins2 total2 in
  let totalRate := move1WinRate + move2WinRate in
  if 0 <? totalRate then move2WinRate / totalRate else 0.5.

Definition predictedWinner (wins1 total1 wins2 total2 : float) : Z :=
  let s1 := move1Score wins1 total1 wins2 total2 in
  let s2 := move2Score wins1 total1 wins2 total2 in
  if s2 + 0.1 <? s1 then 1%Z
  else if s1 + 0.1 <? s2 then 2%Z
  else 0%Z.

(** Wins are counted in steps of one half: [halves] is twice the number of
    wins. *)
Definition halves (h : Z) : float := number h / 2.

End Binary64.

(** ** The band of the prediction in whole numbers

    For tallies given by whole numbers, twice the wins and the total, the
    win rate is a fraction, and [scoreA > scoreB + 1/10] for the scores
    [rA/(rA+rB)] and [rB/(rA+rB)] is [9 rA > 11 rB]. *)

Module Band.

Definition rate (halves total : Z) : Z * Z :=
  if (0 <? total)%Z then (halves, 2 * total)%Z else (1, 2)%Z.

Definition winner (halves1 total1 halves2 total2 : Z) : Z :=
  let rA := rate halves1 total1 in
  let rB := rate halves2 total2 in
  if (11 * fst rB * snd rA <? 9 * fst rA * snd rB)%Z then 1%Z
  else if (11 * fst rA * snd rB <? 9 * fst rB * snd rA)%Z then 2%Z
  else 0%Z.

(** The two scores differ by exactly [1/10]. *)
Definition onEdge (halves1 total1 halves2 total2 : Z) : bool :=
  let rA := rate halves1 total1 in
  let rB := rate halves2 total2 in
  negb ((fst rA =? 0)%Z && (fst rB =? 0)%Z) &&
  ((11 * fst rB * snd rA =? 9 * fst rA * snd rB)%Z ||
   (11 * fst rA * snd rB =? 9 * fst rB * snd rA)%Z).

(** All tallies of at most [n] comparisons, as pairs of twice the wins and
    the total. *)
Definition tallies (n : nat) : list (Z * Z) :=
  flat_map (fun t => map (fun h => (Z.of_nat h, Z.of_nat t)) (seq 0 (2 * t + 1)))
           (seq 0 (n + 1)).

Definition agree (x y : Z * Z) : bool :=
  onEdge (fst x) (snd x) (fst y) (snd y) ||
  (Binary64.predictedWinner (Binary64.halves (fst x)) (Binary64.number (snd x))
                            (Binary64.halves (fst y)) (Binary64.number (snd y))
   =? winner (fst x) (snd x) (fst y) (snd y))%Z.

Definition agreeUpTo (n : nat) : bool :=
  forallb (fun x => forallb (agree x) (tallies n)) (tallies n).

End Band.

(** * Facts *)

(** ** Maxima, minima and the falsy zero *)

Module NumFacts.
Import Num.

Lemma orElse_nonzero x d : x <> 0 -> orElse x d = x.
Proof. unfold orElse; intros H; destruct (Req_dec_T x 0); [contradiction|reflexivity]. Qed.

Lemma orElse_zero d : orElse 0 d = d.
Proof. unfold orElse; destruct (Req_dec_T 0 0); [reflexivity|contradiction]. Qed.

Lemma fold_max_ge xs : forall a, a <= fold_left Rmax xs a.
Proof.
  induction xs as [|x xs IH]; intros a; simpl; [lra|].
  eapply Rle_trans; [apply (Rmax_l a x)|apply IH].
Qed.

Lemma fold_max_upper xs : forall a y, In y xs -> y <= fold_left Rmax xs a.
Proof.
  induction xs as [|x xs IH]; intros a y Hin; simpl; [destruct Hin|].
  destruct Hin as [->|Hin]; [|now apply IH].
  eapply Rle_trans; [apply (Rmax_r a y)|apply fold_max_ge].
Qed.

Lemma fold_max_in xs : forall a, fold_left Rmax xs a = a \/ In (fold_left Rmax xs a) xs.
Proof.
  induction xs as [|x xs IH]; intros a; simpl; [now left|].
  destruct (IH (Rmax a x)) as [H|H]; [|now right; right].
  rewrite H. unfold Rmax. destruct (Rle_dec a x); [right; now left|now left].
Qed.

Lemma fold_min_le xs : forall a, fold_left Rmin xs a <= a.
Proof.
  induction xs as [|x xs IH]; intros a; simpl; [lra|].
  eapply Rle_trans; [apply IH|apply Rmin_l].
Qed.

Lemma fold_min_lower xs : forall a y, In y xs -> fold_left Rmin xs a <= y.
Proof.
  induction xs as [|x xs IH]; intros a y Hin; simpl; [destruct Hin|].
  destruct Hin as [->|Hin]; [|now apply IH].
  eapply Rle_trans; [apply fold_min_le|apply Rmin_r].
Qed.

Lemma fold_min_in xs : forall a, fold_left Rmin xs a = a \/ In (fold_left Rmin xs a) xs.
Proof.
  induction xs as [|x xs IH]; intros a; simpl; [now left|].
  destruct (IH (Rmin a x)) as [H|H]; [|now right; right].
  rewrite H. unfold Rmin. destruct (Rle_dec a x); [now left|right; now left].
Qed.

Lemma maxOf_upper l y : In y l -> y <= maxOf l.
Proof.
  destruct l as [|x xs]; simpl; [tauto|].
  intros [->|H]; [apply fold_max_ge|now apply fold_max_upper].
Qed.

Lemma maxOf_in l : l <> [] -> In (maxOf l) l.
Proof.
  destruct l as [|x xs]; [congruence|intros _; simpl].
  destruct (fold_max_in xs x) as [H|H]; [left; now rewrite H|now right].
Qed.

Lemma minOf_lower l y : In y l -> minOf l <= y.
Proof.
  destruct l as [|x xs]; simpl; [tauto|].
  intros [->|H]; [apply fold_min_le|now apply fold_min_lower].
Qed.

Lemma minOf_in l : l <> [] -> In (minOf l) l.
Proof.
  destruct l as [|x xs]; [congruence|intros _; simpl].
  destruct (fold_min_in xs x) as [H|H]; [left; now rewrite H|now right].
Qed.

End NumFacts.

(** ** The confidence curve *)

Module ConfidenceFacts.
Import Confidence.

Lemma logistic_pos n : 0 < logistic n.
Proof.
  unfold logistic. pose proof (exp_pos (- (0.5) * (n - 10))).
  apply Rdiv_lt_0_compat; lra.
Qed.

Lemma logistic_lt_1 n : logistic n < 1.
Proof.
  unfold logistic. pose proof (exp_pos (- (0.5) * (n - 10))) as H.
  apply (Rmult_lt_reg_r (1 + exp (- (0.5) * (n - 10)))); [lra|].
  unfold Rdiv. rewrite Rmult_assoc, Rinv_l; lra.
Qed.

Lemma logistic_increasing a b : a < b -> logistic a < logistic b.
Proof.
  intros Hab. unfold logistic.
  pose proof (exp_pos (- (0.5) * (a - 10))) as Ha.
  pose proof (exp_pos (- (0.5) * (b - 10))) as Hb.
  assert (Hexp : exp (- (0.5) * (b - 10)) < exp (- (0.5) * (a - 10)))
    by (apply exp_increasing; lra).
  unfold Rdiv. rewrite !Rmult_1_l.
  apply Rinv_lt_contravar; [|lra].
  apply Rmult_lt_0_compat; lra.
Qed.

Lemma calculateConfidence_0 : calculateConfidence 0 = 0.
Proof. unfold calculateConfidence. destruct (Req_dec_T 0 0); [reflexivity|contradiction]. Qed.

Lemma calculateConfidence_nonzero n : n <> 0 -> calculateConfidence n = logistic n.
Proof.
  intros Hn. unfold calculateConfidence, logistic, k, x0.
  destruct (Req_dec_T n 0); [contradiction|reflexivity].
Qed.

Lemma calculateConfidence_INR_S n : calculateConfidence (INR (S n)) = logistic (INR (S n)).
Proof. apply calculateConfidence_nonzero. apply not_0_INR. discriminate. Qed.

Lemma calculateConfidence_range n : 0 <= calculateConfidence n < 1.
Proof.
  unfold calculateConfidence. destruct (Req_dec_T n 0); [lra|].
  fold k x0. change (0 <= logistic n < 1).
  pose proof (logistic_pos n); pose proof (logistic_lt_1 n); lra.
Qed.

End ConfidenceFacts.

(** ** Objects as association lists *)

Module ObjFacts.
Import Obj.

Section Assoc.
Context {A : Type}.
Implicit Types (m : list (string * A)) (key k : string).

Lemma lookup_app key m1 m2 :
  lookup key (m1 ++ m2) =
  match lookup key m1 with Some v => Some v | None => lookup key m2 end.
Proof.
  induction m1 as [|[k v] m1 IH]; simpl; [reflexivity|].
  destruct (String.eqb k key); [reflexivity|apply IH].
Qed.

Lemma lookup_update key k (f : A -> A) m :
  lookup key (update k f m) =
  if String.eqb k key then option_map f (lookup key m) else lookup key m.
Proof.
  induction m as [|[k' v] m IH]; simpl.
  - now destruct (String.eqb k key).
  - destruct (String.eqb k' k) eqn:Ek; simpl.
    + apply String.eqb_eq in Ek; subst k'.
      destruct (String.eqb k key); reflexivity.
    + destruct (String.eqb k' key) eqn:Ekey.
      * apply String.eqb_eq in Ekey; subst k'. rewrite String.eqb_sym in Ek. now rewrite Ek.
      * apply IH.
Qed.

Lemma keys_update k (f : A -> A) m : keys (update k f m) = keys m.
Proof.
  induction m as [|[k' v] m IH]; simpl; [reflexivity|].
  destruct (String.eqb k' k); simpl; [reflexivity|].
  f_equal. exact IH.
Qed.

Lemma lookup_None key m : lookup key m = None <-> ~ In key (keys m).
Proof.
  induction m as [|[k v] m IH]; simpl; [tauto|].
  destruct (String.eqb k key) eqn:E.
  - apply String.eqb_eq in E. split; [discriminate|tauto].
  - apply String.eqb_neq in E. rewrite IH. tauto.
Qed.

Lemma lookup_Some_In key v m : lookup key m = Some v -> In (key, v) m.
Proof.
  induction m as [|[k w] m IH]; simpl; [discriminate|].
  destruct (String.eqb k key) eqn:E.
  - apply String.eqb_eq in E. intros [= ->]. subst. now left.
  - intros H. right. now apply IH.
Qed.

Lemma In_lookup key v m : NoDup (keys m) -> In (key, v) m -> lookup key m = Some v.
Proof.
  induction m as [|[k w] m IH]; simpl; [tauto|].
  intros Hnd Hin. inversion Hnd as [|? ? Hnotin Hnd']; subst.
  destruct Hin as [[= -> ->]|Hin].
  - now rewrite String.eqb_refl.
  - destruct (String.eqb k key) eqn:E; [|now apply IH].
    apply String.eqb_eq in E; subst k. exfalso. apply Hnotin.
    change key with (fst (key, v)). now apply in_map.
Qed.

Lemma lookup_map_values {B : Type} (g : A -> B) key m :
  lookup key (map (fun kv => (fst kv, g (snd kv))) m) = option_map g (lookup key m).
Proof.
  induction m as [|[k v] m IH]; simpl; [reflexivity|].
  destruct (String.eqb k key); [reflexivity|apply IH].
Qed.

Lemma keys_app m1 m2 : keys (m1 ++ m2) = keys m1 ++ keys m2.
Proof. apply map_app. Qed.

End Assoc.

End ObjFacts.

(** ** The tally pass *)

Module TallyFacts.
Import Obj ObjFacts BTL Tally.

Lemma moveMap_get_Some moves key m :
  moveMap_get moves key = Some m -> id m = key /\ In m moves.
Proof.
  unfold moveMap_get. intros H. apply find_some in H. destruct H as [Hin Heq].
  apply String.eqb_eq in Heq. split; [assumption|]. now apply in_rev.
Qed.

Lemma moveMap_has_true moves key :
  moveMap_has moves key = true <-> exists m, moveMap_get moves key = Some m.
Proof.
  unfold moveMap_has. destruct (moveMap_get moves key) as [m|].
  - split; [intros _; now exists m|reflexivity].
  - split; [discriminate|intros [m H]; discriminate].
Qed.

Lemma moveMap_has_In moves m : In m moves -> moveMap_has moves (id m) = true.
Proof.
  intros Hin. unfold moveMap_has, moveMap_get.
  destruct (find (fun m0 => String.eqb (id m0) (id m)) (rev moves)) eqn:E; [reflexivity|].
  apply in_rev in Hin. pose proof (find_none _ _ E m Hin) as H.
  simpl in H. rewrite String.eqb_refl in H. discriminate.
Qed.

Lemma has_lookup key md : has key md = true <-> exists d, lookup key md = Some d.
Proof.
  unfold has. destruct (lookup key md) as [d|].
  - split; [intros _; now exists d|reflexivity].
  - split; [discriminate|intros [d H]; discriminate].
Qed.

(** *** First loop *)

Lemma has_initMove moves md k key :
  has key (initMove moves md k) = has key md || (String.eqb k key && moveMap_has moves k).
Proof.
  unfold initMove, moveMap_has, has.
  destruct (moveMap_get moves k) as [m|]; [|now rewrite andb_false_r, orb_false_r].
  rewrite andb_true_r.
  destruct (lookup k md) eqn:Ek.
  - destruct (String.eqb k key) eqn:E; [|now rewrite orb_false_r].
    apply String.eqb_eq in E; subst k. now rewrite Ek.
  - rewrite lookup_app. destruct (lookup key md); [reflexivity|]. simpl.
    now destruct (String.eqb k key).
Qed.

Lemma moveMap_has_eqb moves k key :
  String.eqb k key && moveMap_has moves k = String.eqb k key && moveMap_has moves key.
Proof.
  destruct (String.eqb k key) eqn:E; [|reflexivity].
  apply String.eqb_eq in E. now subst.
Qed.

Lemma has_initChoice moves md c key :
  has key (initChoice moves md c) = has key md || (moveMap_has moves key && participant key c).
Proof.
  unfold initChoice, participant. rewrite !has_initMove, !moveMap_has_eqb.
  destruct (has key md), (moveMap_has moves key),
    (String.eqb (id (move1 c)) key), (String.eqb (id (move2 c)) key); reflexivity.
Qed.

Lemma has_initLoop moves cs : forall md key,
  has key (fold_left (initChoice moves) cs md) =
  has key md || (moveMap_has moves key && existsb (participant key) cs).
Proof.
  induction cs as [|c cs IH]; intros md key; simpl.
  - now rewrite andb_false_r, orb_false_r.
  - rewrite IH, has_initChoice.
    destruct (has key md), (moveMap_has moves key), (participant key c); reflexivity.
Qed.

Lemma fresh_initMove moves md k : fresh moves md -> fresh moves (initMove moves md k).
Proof.
  intros [Hnd Hall]. unfold initMove.
  destruct (moveMap_get moves k) as [m|] eqn:Em; [|now split].
  destruct (lookup k md) eqn:Ek; [now split|].
  split.
  - rewrite keys_app. simpl. apply NoDup_app; [assumption|repeat constructor; simpl; tauto|].
    intros x Hx [<-|[]]. now apply lookup_None in Ek.
  - apply Forall_app. split; [assumption|]. constructor; [|constructor].
    simpl. auto.
Qed.

Lemma fresh_initLoop moves cs : forall md,
  fresh moves md -> fresh moves (fold_left (initChoice moves) cs md).
Proof.
  induction cs as [|c cs IH]; intros md H; simpl; [assumption|].
  apply IH. unfold initChoice. now do 2 apply fresh_initMove.
Qed.

Lemma fresh_nil moves : fresh moves [].
Proof. split; constructor. Qed.

(** *** Second loop *)

Lemma keys_recordChoice md c : keys (recordChoice md c) = keys md.
Proof.
  unfold recordChoice.
  destruct (lookup (id (move1 c)) md); [|reflexivity].
  destruct (lookup (id (move2 c)) md); [|reflexivity].
  destruct (userChoice c =? 1)%Z; [|destruct (userChoice c =? 2)%Z];
    now rewrite !keys_update.
Qed.

Lemma has_keys key md md' : keys md = keys md' -> has key md = has key md'.
Proof.
  intros Hk. unfold has.
  destruct (lookup key md) eqn:E, (lookup key md') eqn:E'; try reflexivity.
  - apply lookup_None in E'. rewrite <- Hk in E'. apply lookup_None in E'. congruence.
  - apply lookup_None in E. rewrite Hk in E. apply lookup_None in E. congruence.
Qed.

Lemma has_recordChoice key md c : has key (recordChoice md c) = has key md.
Proof. apply has_keys, keys_recordChoice. Qed.

Lemma present_recordChoice md c c' : present (recordChoice md c) c' = present md c'.
Proof. unfold present. now rewrite !has_recordChoice. Qed.

Lemma recordChoice_absent md c : present md c = false -> recordChoice md c = md.
Proof.
  unfold present, has, recordChoice.
  destruct (lookup (id (move1 c)) md); [|reflexivity].
  destruct (lookup (id (move2 c)) md); [discriminate|reflexivity].
Qed.

Ltac record_cases c key md :=
  unfold present, has, recordChoice;
  destruct (lookup (id (move1 c)) md); [|discriminate];
  destruct (lookup (id (move2 c)) md); [|discriminate]; intros _;
  destruct (userChoice c =? 1)%Z; [|destruct (userChoice c =? 2)%Z];
  rewrite !lookup_update;
  destruct (String.eqb (id (move1 c)) key), (String.eqb (id (move2 c)) key);
  destruct (lookup key md); simpl; try reflexivity.

Lemma total_recordChoice key md c :
  present md c = true ->
  option_map total (lookup key (recordChoice md c)) =
  option_map (fun t => (t + totalGain key c)%nat) (option_map total (lookup key md)).
Proof.
  unfold totalGain. record_cases c key md; f_equal; lia.
Qed.

Lemma wins_recordChoice key md c :
  present md c = true ->
  option_map wins (lookup key (recordChoice md c)) =
  option_map (fun w => w + winsGain key c) (option_map wins (lookup key md)).
Proof.
  unfold winsGain. record_cases c key md; f_equal; lra.
Qed.

Lemma move_recordChoice key md c :
  option_map move (lookup key (recordChoice md c)) = option_map move (lookup key md).
Proof.
  destruct (present md c) eqn:E; [|now rewrite recordChoice_absent].
  revert E. record_cases c key md.
Qed.

Lemma filter_present_recordChoice md c cs :
  filter (present (recordChoice md c)) cs = filter (present md) cs.
Proof. apply filter_ext. intros c'. apply present_recordChoice. Qed.

Lemma has_recordLoop key cs : forall md,
  has key (fold_left recordChoice cs md) = has key md.
Proof.
  induction cs as [|c cs IH]; intros md; simpl; [reflexivity|].
  now rewrite IH, has_recordChoice.
Qed.

Lemma keys_recordLoop cs : forall md, keys (fold_left recordChoice cs md) = keys md.
Proof.
  induction cs as [|c cs IH]; intros md; simpl; [reflexivity|].
  now rewrite IH, keys_recordChoice.
Qed.

Lemma move_recordLoop key cs : forall md,
  option_map move (lookup key (fold_left recordChoice cs md)) =
  option_map move (lookup key md).
Proof.
  induction cs as [|c cs IH]; intros md; simpl; [reflexivity|].
  now rewrite IH, move_recordChoice.
Qed.

Lemma total_recordLoop key cs : forall md,
  option_map total (lookup key (fold_left recordChoice cs md)) =
  option_map (totalFrom key (filter (present md) cs)) (option_map total (lookup key md)).
Proof.
  induction cs as [|c cs IH]; intros md; simpl.
  - now destruct (lookup key md).
  - rewrite IH, filter_present_recordChoice.
    destruct (present md c) eqn:E.
    + rewrite total_recordChoice by assumption.
      now destruct (lookup key md).
    + now rewrite recordChoice_absent.
Qed.

Lemma wins_recordLoop key cs : forall md,
  option_map wins (lookup key (fold_left recordChoice cs md)) =
  option_map (winsFrom key (filter (present md) cs)) (option_map wins (lookup key md)).
Proof.
  induction cs as [|c cs IH]; intros md; simpl.
  - now destruct (lookup key md).
  - rewrite IH, filter_present_recordChoice.
    destruct (present md c) eqn:E.
    + rewrite wins_recordChoice by assumption.
      now destruct (lookup key md).
    + now rewrite recordChoice_absent.
Qed.

(** *** Both loops *)

Lemma participant_self1 c : participant (id (move1 c)) c = true.
Proof. unfold participant. now rewrite String.eqb_refl. Qed.

Lemma participant_self2 c : participant (id (move2 c)) c = true.
Proof. unfold participant. now rewrite String.eqb_refl, orb_true_r. Qed.

Lemma present_initLoop moves cs c :
  In c cs -> present (fold_left (initChoice moves) cs []) c = bothKnown moves c.
Proof.
  intros Hin. unfold present, bothKnown. rewrite !has_initLoop. simpl.
  assert (H1 : existsb (participant (id (move1 c))) cs = true)
    by (apply existsb_exists; exists c; split; [assumption|apply participant_self1]).
  assert (H2 : existsb (participant (id (move2 c))) cs = true)
    by (apply existsb_exists; exists c; split; [assumption|apply participant_self2]).
  now rewrite H1, H2, !andb_true_r.
Qed.

Lemma has_createMoveDataMap moves cs key :
  has key (createMoveDataMap moves cs) =
  moveMap_has moves key && existsb (participant key) cs.
Proof. unfold createMoveDataMap. now rewrite has_recordLoop, has_initLoop. Qed.

Lemma NoDup_createMoveDataMap moves cs : NoDup (keys (createMoveDataMap moves cs)).
Proof.
  unfold createMoveDataMap. rewrite keys_recordLoop.
  apply (fresh_initLoop moves cs []), fresh_nil.
Qed.

(** An entry of [createMoveDataMap] is a move of the list that takes part in
    some choice, and its tallies are the sums over the choices whose two
    participants are both in the list. *)
Lemma lookup_createMoveDataMap moves cs key d :
  lookup key (createMoveDataMap moves cs) = Some d ->
  moveMap_get moves key = Some (move d) /\
  existsb (participant key) cs = true /\
  wins d = winsFrom key (filter (bothKnown moves) cs) 0 /\
  total d = totalFrom key (filter (bothKnown moves) cs) 0%nat.
Proof.
  intros Hd.
  assert (Hhas : has key (createMoveDataMap moves cs) = true)
    by (apply has_lookup; now exists d).
  rewrite has_createMoveDataMap in Hhas. apply andb_prop in Hhas as [_ Hpart].
  pose proof (fresh_initLoop moves cs [] (fresh_nil moves)) as [_ Hall].
  unfold createMoveDataMap in Hd.
  set (md0 := fold_left (initChoice moves) cs []) in *.
  assert (Hfilter : filter (present md0) cs = filter (bothKnown moves) cs)
    by (apply filter_ext_in; intros c Hc; now apply present_initLoop).
  pose proof (move_recordLoop key cs md0) as Hm.
  pose proof (wins_recordLoop key cs md0) as Hw.
  pose proof (total_recordLoop key cs md0) as Ht.
  rewrite Hd in Hm, Hw, Ht. rewrite Hfilter in Hw, Ht. simpl in Hm, Hw, Ht.
  destruct (lookup key md0) as [d0|] eqn:E0; [|discriminate].
  apply lookup_Some_In in E0. rewrite Forall_forall in Hall.
  destruct (Hall _ E0) as (Hmv & Hw0 & Ht0). simpl in *.
  injection Hm as Hm. injection Hw as Hw. injection Ht as Ht.
  rewrite Hm, Hw, Ht, Hw0, Ht0. auto.
Qed.

Lemma createMoveDataMap_entry moves cs key m :
  moveMap_get moves key = Some m ->
  existsb (participant key) cs = true ->
  exists d, lookup key (createMoveDataMap moves cs) = Some d /\ move d = m.
Proof.
  intros Hm Hp.
  assert (Hhas : has key (createMoveDataMap moves cs) = true).
  { rewrite has_createMoveDataMap, Hp. unfold moveMap_has. now rewrite Hm. }
  apply has_lookup in Hhas as [d Hd]. exists d. split; [assumption|].
  apply lookup_createMoveDataMap in Hd as (Hmv & _). congruence.
Qed.

(** *** Sums of gains *)

Lemma totalGain_nonparticipant key c : participant key c = false -> totalGain key c = 0%nat.
Proof.
  unfold participant, totalGain. intros H. apply orb_false_elim in H as [-> ->]. reflexivity.
Qed.

Lemma winsGain_nonparticipant key c : participant key c = false -> winsGain key c = 0.
Proof.
  unfold participant, winsGain. intros H. apply orb_false_elim in H as [-> ->].
  destruct (userChoice c =? 1)%Z; [|destruct (userChoice c =? 2)%Z]; lra.
Qed.

Lemma totalGain_zero key c : totalGain key c = 0%nat -> participant key c = false.
Proof.
  unfold participant, totalGain.
  destruct (String.eqb (id (move1 c)) key), (String.eqb (id (move2 c)) key);
    simpl; intros H; try reflexivity; discriminate.
Qed.

Lemma totalFrom_nonparticipant key cs : forall t,
  (forall c, In c cs -> participant key c = false) -> totalFrom key cs t = t.
Proof.
  induction cs as [|c cs IH]; intros t H; simpl; [reflexivity|].
  unfold totalFrom in *. simpl. rewrite totalGain_nonparticipant by (apply H; now left).
  rewrite Nat.add_0_r. apply IH. intros c' Hc'. apply H. now right.
Qed.

Lemma winsFrom_nonparticipant key cs : forall w,
  (forall c, In c cs -> participant key c = false) -> winsFrom key cs w = w.
Proof.
  induction cs as [|c cs IH]; intros w H; simpl; [reflexivity|].
  unfold winsFrom in *. simpl. rewrite winsGain_nonparticipant by (apply H; now left).
  rewrite Rplus_0_r. apply IH. intros c' Hc'. apply H. now right.
Qed.

Lemma totalFrom_ge key cs : forall t, (t <= totalFrom key cs t)%nat.
Proof.
  induction cs as [|c cs IH]; intros t; unfold totalFrom in *; simpl; [lia|].
  specialize (IH (t + totalGain key c)%nat). lia.
Qed.



(** No comparison counted, no win counted. *)
Lemma winsFrom_untouched key cs : forall t w,
  totalFrom key cs t = t -> winsFrom key cs w = w.
Proof.
  induction cs as [|c cs IH]; intros t w H; [reflexivity|].
  unfold totalFrom, winsFrom in *. simpl in *.
  pose proof (totalFrom_ge key cs (t + totalGain key c)%nat) as Hge.
  unfold totalFrom in Hge.
  assert (Hg : totalGain key c = 0%nat) by lia.
  rewrite Hg, Nat.add_0_r in H.
  rewrite (winsGain_nonparticipant key c) by now apply totalGain_zero.
  rewrite Rplus_0_r. now apply (IH t).
Qed.

End TallyFacts.

(** ** Scores and standings *)

Module ScoreFacts.
Import Num NumFacts Confidence ConfidenceFacts Obj ObjFacts BTL Tally TallyFacts Scale.

Lemma values_seedScores md : values (seedScores md) = map (fun kd => seedScore (snd kd)) md.
Proof. unfold values, seedScores. now rewrite map_map. Qed.

Lemma lookup_calculateBTLIterative key md :
  lookup key (calculateBTLIterative md) =
  option_map (fun d => scaled md (seedScore d)) (lookup key md).
Proof.
  destruct md as [|kd md]; [reflexivity|].
  unfold calculateBTLIterative, scaled, maxSeed, minSeed.
  set (md' := kd :: md).
  destruct (Rlt_dec 0 _).
  - rewrite (lookup_map_values (fun s => (s - _) / _)).
    unfold seedScores. rewrite (lookup_map_values seedScore).
    now destruct (lookup key md').
  - unfold seedScores. now rewrite (lookup_map_values seedScore).
Qed.

Lemma maxSeed_upper md d key : lookup key md = Some d -> seedScore d <= maxSeed md.
Proof.
  intros H. apply maxOf_upper. rewrite values_seedScores.
  apply lookup_Some_In in H. now apply (in_map (fun kd => seedScore (snd kd))) in H.
Qed.

Lemma minSeed_lower md d key : lookup key md = Some d -> minSeed md <= seedScore d.
Proof.
  intros H. apply minOf_lower. rewrite values_seedScores.
  apply lookup_Some_In in H. now apply (in_map (fun kd => seedScore (snd kd))) in H.
Qed.

Lemma maxSeed_attained md : md <> [] -> exists kd, In kd md /\ seedScore (snd kd) = maxSeed md.
Proof.
  intros H. unfold maxSeed. rewrite values_seedScores.
  assert (Hne : map (fun kd : string * MoveStats => seedScore (snd kd)) md <> [])
    by (destruct md; [congruence|discriminate]).
  apply maxOf_in in Hne. apply in_map_iff in Hne as (kd & Heq & Hin). eauto.
Qed.

Lemma minSeed_attained md : md <> [] -> exists kd, In kd md /\ seedScore (snd kd) = minSeed md.
Proof.
  intros H. unfold minSeed. rewrite values_seedScores.
  assert (Hne : map (fun kd : string * MoveStats => seedScore (snd kd)) md <> [])
    by (destruct md; [congruence|discriminate]).
  apply minOf_in in Hne. apply in_map_iff in Hne as (kd & Heq & Hin). eauto.
Qed.

(** The standings are the entries of [moveData], in its order. *)
Lemma calculateBTLScores_nonempty moves choices mt :
  typeChoicesOf choices mt <> [] ->
  calculateBTLScores moves choices mt =
  let md := createMoveDataMap moves (typeChoicesOf choices mt) in
  map (standingOf (calculateBTLIterative md)) (values md).
Proof.
  unfold calculateBTLScores. destruct (typeChoicesOf choices mt); [congruence|reflexivity].
Qed.

Lemma calculateBTLScores_empty moves choices mt :
  typeChoicesOf choices mt = [] -> calculateBTLScores moves choices mt = [].
Proof. unfold calculateBTLScores. now intros ->. Qed.

Lemma In_calculateBTLScores moves choices mt s :
  In s (calculateBTLScores moves choices mt) ->
  let md := createMoveDataMap moves (typeChoicesOf choices mt) in
  exists d, lookup (id (move d)) md = Some d /\
            s = standingOf (calculateBTLIterative md) d.
Proof.
  intros Hin md.
  destruct (typeChoicesOf choices mt) as [|c cs] eqn:E.
  - rewrite calculateBTLScores_empty in Hin by assumption. destruct Hin.
  - rewrite calculateBTLScores_nonempty in Hin by (rewrite E; discriminate).
    rewrite E in Hin. fold md in Hin. simpl in Hin.
    apply in_map_iff in Hin as (d & Hs & Hd).
    apply in_map_iff in Hd as ([key d'] & Hd' & Hkd). simpl in Hd'. subst d'.
    assert (Hl : lookup key md = Some d)
      by (apply In_lookup; [apply NoDup_createMoveDataMap|assumption]).
    exists d. split; [|now symmetry].
    pose proof (lookup_createMoveDataMap _ _ _ _ Hl) as (Hm & _).
    apply moveMap_get_Some in Hm as [-> _]. assumption.
Qed.

Lemma standing_of_entry moves choices mt key d :
  let md := createMoveDataMap moves (typeChoicesOf choices mt) in
  lookup key md = Some d ->
  In (standingOf (calculateBTLIterative md) d) (calculateBTLScores moves choices mt).
Proof.
  intros md Hl.
  assert (Hne : typeChoicesOf choices mt <> []).
  { intros E. subst md. rewrite E in Hl. discriminate. }
  rewrite calculateBTLScores_nonempty by assumption. fold md.
  apply in_map. apply lookup_Some_In in Hl.
  now apply (in_map snd) in Hl.
Qed.

Lemma btlScore_standingOf md d :
  lookup (id (move d)) md = Some d ->
  btlScore (standingOf (calculateBTLIterative md) d) = orElse (scaled md (seedScore d)) 0.5.
Proof.
  intros Hl. unfold standingOf, scoreOr. simpl.
  now rewrite lookup_calculateBTLIterative, Hl.
Qed.

End ScoreFacts.

(** ** Sorting and tiers *)

Module TierFacts.
Import BTL Ranking.

Lemma insertDesc_perm x l : Permutation (x :: l) (insertDesc x l).
Proof.
  induction l as [|y l IH]; simpl; [apply Permutation_refl|].
  destruct (Rlt_dec (btlScore x) (btlScore y)); [|apply Permutation_refl].
  eapply perm_trans; [apply perm_swap|]. now apply perm_skip.
Qed.

Lemma sortDesc_perm l : Permutation l (sortDesc l).
Proof.
  induction l as [|x l IH]; simpl; [constructor|].
  eapply perm_trans; [apply perm_skip, IH|apply insertDesc_perm].
Qed.

Lemma insertDesc_descending x l : descending l -> descending (insertDesc x l).
Proof.
  unfold descending. induction l as [|y l IH]; intros Hs; simpl.
  - repeat constructor.
  - inversion Hs as [|? ? Hl Hy]; subst.
    destruct (Rlt_dec (btlScore x) (btlScore y)) as [Hlt|Hge].
    + constructor; [now apply IH|].
      rewrite Forall_forall in *. intros z Hz.
      apply (Permutation_in _ (Permutation_sym (insertDesc_perm x l))) in Hz.
      destruct Hz as [<-|Hz]; [lra|now apply Hy].
    + constructor; [assumption|]. constructor; [lra|].
      rewrite Forall_forall in *. intros z Hz. specialize (Hy z Hz). lra.
Qed.

Lemma sortDesc_descending l : descending (sortDesc l).
Proof.
  induction l as [|x l IH]; simpl; [constructor|now apply insertDesc_descending].
Qed.

Lemma sortDesc_length l : List.length (sortDesc l) = List.length l.
Proof. symmetry. apply Permutation_length, sortDesc_perm. Qed.

(** *** Percentile bands *)

Lemma percentile_lt (index totalMoves q : nat) :
  (0 < totalMoves)%nat ->
  percentileOf index totalMoves < INR q <-> (100 * index < q * totalMoves)%nat.
Proof.
  intros Hn. unfold percentileOf.
  assert (HnR : 0 < INR totalMoves) by (apply lt_0_INR; lia).
  assert (H100 : INR 100 = 100) by (rewrite INR_IZR_INZ; reflexivity).
  assert (Heq : INR index / INR totalMoves * 100 * INR totalMoves = 100 * INR index)
    by (field; lra).
  split; intros H.
  - apply INR_lt. rewrite !mult_INR, H100, <- Heq.
    apply Rmult_lt_compat_r; assumption.
  - apply lt_INR in H. rewrite !mult_INR, H100, <- Heq in H.
    apply Rmult_lt_reg_r in H; assumption.
Qed.

Lemma tierOfPercentile_rank index totalMoves :
  (0 < totalMoves)%nat ->
  tierOfPercentile (percentileOf index totalMoves) = rankTier index totalMoves.
Proof.
  intros Hn. unfold tierOfPercentile, rankTier.
  pose proof (percentile_lt index totalMoves 10 Hn) as H10.
  pose proof (percentile_lt index totalMoves 25 Hn) as H25.
  pose proof (percentile_lt index totalMoves 50 Hn) as H50.
  pose proof (percentile_lt index totalMoves 75 Hn) as H75.
  pose proof (percentile_lt index totalMoves 90 Hn) as H90.
  replace (INR 10) with 10 in H10 by (rewrite INR_IZR_INZ; reflexivity).
  replace (INR 25) with 25 in H25 by (rewrite INR_IZR_INZ; reflexivity).
  replace (INR 50) with 50 in H50 by (rewrite INR_IZR_INZ; reflexivity).
  replace (INR 75) with 75 in H75 by (rewrite INR_IZR_INZ; reflexivity).
  replace (INR 90) with 90 in H90 by (rewrite INR_IZR_INZ; reflexivity).
  repeat match goal with
  | |- context [Rlt_dec ?a ?b] => destruct (Rlt_dec a b)
  | |- context [(?a <? ?b)%nat] => destruct (Nat.ltb_spec a b)
  end; try reflexivity; exfalso; intuition lia.
Qed.

Lemma rankTier_mono i j n :
  (i <= j)%nat -> (tierIdx (rankTier i n) <= tierIdx (rankTier j n))%nat.
Proof.
  intros Hij. unfold rankTier.
  repeat match goal with
  | |- context [(?a <? ?b)%nat] => destruct (Nat.ltb_spec a b)
  end; simpl; lia.
Qed.

(** *** The loop over the sorted array *)

Lemma bucket_push T t m ts :
  bucket T (push t m ts) = bucket T ts ++ (if tier_eqb t T then [m] else []).
Proof. destruct T, t; simpl; now rewrite ?app_nil_r. Qed.

Lemma tierLoop_bucket n T l : forall i ts,
  bucket T (tierLoop n i l ts) = bucket T ts ++ atTier T n (rankedFrom i l).
Proof.
  induction l as [|m l IH]; intros i ts; simpl.
  - now rewrite app_nil_r.
  - rewrite IH, bucket_push, <- app_assoc. f_equal.
    unfold atTier, rankedFrom. simpl.
    now destruct (tier_eqb (tierOfPercentile (percentileOf i n)) T).
Qed.

Lemma allTiers_push_last t m ts :
  (forall T, (tierIdx t < tierIdx T)%nat -> bucket T ts = []) ->
  allTiers (push t m ts) = allTiers ts ++ [m].
Proof.
  intros H.
  pose proof (H TierA) as HA. pose proof (H TierB) as HB. pose proof (H TierC) as HC.
  pose proof (H TierD) as HD. pose proof (H TierF) as HF.
  unfold allTiers.
  destruct t; simpl in *;
    rewrite ?HA, ?HB, ?HC, ?HD, ?HF by lia;
    rewrite ?app_nil_r, <- ?app_assoc; reflexivity.
Qed.

Lemma tierLoop_allTiers n l : forall i ts,
  n = (i + List.length l)%nat ->
  (forall T, (tierIdx (rankTier i n) < tierIdx T)%nat -> bucket T ts = []) ->
  allTiers (tierLoop n i l ts) = allTiers ts ++ l.
Proof.
  induction l as [|m l IH]; intros i ts Hn Hempty; simpl.
  - now rewrite app_nil_r.
  - simpl in Hn.
    rewrite tierOfPercentile_rank by lia.
    rewrite IH.
    + rewrite allTiers_push_last by assumption. now rewrite <- app_assoc.
    + lia.
    + intros T HT. rewrite bucket_push.
      pose proof (rankTier_mono i (S i) n ltac:(lia)) as Hmono.
      rewrite Hempty by lia.
      unfold tier_eqb. destruct (Nat.eqb_spec (tierIdx (rankTier i n)) (tierIdx T)); [lia|reflexivity].
Qed.

Lemma groupMovesByTier_allTiers l : allTiers (snd (groupMovesByTier l)) = sortDesc l.
Proof.
  unfold groupMovesByTier. simpl.
  rewrite tierLoop_allTiers; [reflexivity|reflexivity|].
  intros T _. now destruct T.
Qed.

Lemma groupMovesByTier_bucket l T :
  bucket T (snd (groupMovesByTier l)) =
  atTier T (List.length l) (rankedFrom 0 (sortDesc l)).
Proof.
  unfold groupMovesByTier. simpl.
  rewrite tierLoop_bucket, sortDesc_length. now destruct T.
Qed.

(** The bands of [tierOfPercentile]. *)
Lemma tierOfPercentile_bands p :
  (tierOfPercentile p = TierS <-> p < 10) /\
  (tierOfPercentile p = TierA <-> 10 <= p < 25) /\
  (tierOfPercentile p = TierB <-> 25 <= p < 50) /\
  (tierOfPercentile p = TierC <-> 50 <= p < 75) /\
  (tierOfPercentile p = TierD <-> 75 <= p < 90) /\
  (tierOfPercentile p = TierF <-> 90 <= p).
Proof.
  unfold tierOfPercentile.
  repeat match goal with
  | |- context [Rlt_dec ?a ?b] => destruct (Rlt_dec a b)
  end; repeat split; intros; try discriminate; try reflexivity; lra.
Qed.

Lemma percentileOf_range index totalMoves :
  (index < totalMoves)%nat -> 0 <= percentileOf index totalMoves < 100.
Proof.
  intros H. unfold percentileOf.
  assert (Hn : 0 < INR totalMoves) by (apply lt_0_INR; lia).
  pose proof (pos_INR index) as Hi. apply lt_INR in H.
  assert (Hq : 0 <= INR index / INR totalMoves < 1).
  { split.
    - apply Rmult_le_pos; [assumption|]. left. now apply Rinv_0_lt_compat.
    - apply (Rmult_lt_reg_r (INR totalMoves)); [assumption|].
      unfold Rdiv. rewrite Rmult_assoc, Rinv_l; lra. }
  lra.
Qed.

End TierFacts.

(** ** Inherited properties *)

Module ProtoFacts.
Import Obj ObjFacts BTL Tally TallyFacts.

Lemma find_filter {A : Type} (p f : A -> bool) l :
  find p (filter f l) = find (fun x => f x && p x) l.
Proof.
  induction l as [|x l IH]; [reflexivity|]. simpl.
  destruct (f x); simpl; [|exact IH]. now destruct (p x).
Qed.

(** The moves an entry can be stored for are the moves of the list whose id
    is no inherited name. *)
Lemma moveMap_get_plainMoves moves key :
  moveMap_get (Proto.plainMoves moves) key =
  if Proto.inherited key then None else moveMap_get moves key.
Proof.
  unfold moveMap_get, Proto.plainMoves. rewrite <- filter_rev, find_filter.
  induction (rev moves) as [|m l IH]; simpl; [now destruct (Proto.inherited key)|].
  destruct (String.eqb (id m) key) eqn:E.
  - apply String.eqb_eq in E. rewrite E.
    destruct (Proto.inherited key); simpl; [|reflexivity].
    rewrite IH. reflexivity.
  - now rewrite andb_false_r.
Qed.

Lemma moveMap_has_plainMoves moves key :
  moveMap_has (Proto.plainMoves moves) key =
  negb (Proto.inherited key) && moveMap_has moves key.
Proof.
  unfold moveMap_has. rewrite moveMap_get_plainMoves.
  now destruct (Proto.inherited key).
Qed.

Lemma truthy_get md key :
  Proto.truthy (Proto.get md key) = has key md || Proto.inherited key.
Proof.
  unfold Proto.get, has. destruct (lookup key md); [reflexivity|].
  now destruct (Proto.inherited key).
Qed.

Lemma get_entry md key :
  has key md = true -> exists d, Proto.get md key = Proto.Entry d /\ lookup key md = Some d.
Proof.
  unfold Proto.get, has. destruct (lookup key md) as [d|]; [|discriminate].
  intros _. now exists d.
Qed.

Lemma noInherited_has md key :
  Proto.noInherited md -> has key md = true -> Proto.inherited key = false.
Proof.
  intros Hno Hhas. destruct (Proto.inherited key) eqn:E; [|reflexivity].
  unfold has in Hhas. now rewrite (Hno key E) in Hhas.
Qed.

Lemma noInherited_keys md md' :
  keys md = keys md' -> Proto.noInherited md -> Proto.noInherited md'.
Proof.
  intros Hk Hno key Hi. specialize (Hno key Hi).
  apply lookup_None in Hno. rewrite Hk in Hno. now apply lookup_None.
Qed.

(** *** First loop *)

Lemma initMove_plainMoves moves md key :
  Proto.noInherited md ->
  Proto.initMove moves md key = initMove (Proto.plainMoves moves) md key /\
  Proto.noInherited (initMove (Proto.plainMoves moves) md key).
Proof.
  intros Hno. unfold Proto.initMove, initMove.
  rewrite moveMap_get_plainMoves. unfold moveMap_has, Proto.get.
  destruct (Proto.inherited key) eqn:Ei.
  - rewrite (Hno key Ei). simpl. rewrite andb_false_r.
    split; [now destruct (moveMap_get moves key)|exact Hno].
  - destruct (moveMap_get moves key) as [m|]; [|split; [reflexivity|exact Hno]].
    destruct (lookup key md) eqn:El; simpl; [split; [reflexivity|exact Hno]|].
    split; [reflexivity|].
    intros k Hk. rewrite lookup_app, (Hno k Hk). simpl.
    destruct (String.eqb key k) eqn:E; [|reflexivity].
    apply String.eqb_eq in E. congruence.
Qed.

Lemma initChoice_plainMoves moves md c :
  Proto.noInherited md ->
  Proto.initChoice moves md c = initChoice (Proto.plainMoves moves) md c /\
  Proto.noInherited (initChoice (Proto.plainMoves moves) md c).
Proof.
  intros Hno. unfold Proto.initChoice, initChoice.
  destruct (initMove_plainMoves moves md (id (move1 c)) Hno) as [E1 Hno1].
  rewrite E1.
  exact (initMove_plainMoves moves _ (id (move2 c)) Hno1).
Qed.

Lemma initLoop_plainMoves moves cs : forall md,
  Proto.noInherited md ->
  fold_left (Proto.initChoice moves) cs md =
    fold_left (initChoice (Proto.plainMoves moves)) cs md /\
  Proto.noInherited (fold_left (initChoice (Proto.plainMoves moves)) cs md).
Proof.
  induction cs as [|c cs IH]; intros md Hno; [now split|].
  cbn [fold_left].
  destruct (initChoice_plainMoves moves md c Hno) as [E Hno'].
  rewrite E. now apply IH.
Qed.

Lemma noInherited_nil : Proto.noInherited [].
Proof. intros key _. reflexivity. Qed.

(** *** Second loop *)

Lemma recordChoice_failsOn md c :
  Proto.noInherited md ->
  Proto.recordChoice md c =
  if Proto.failsOn md c then Proto.Throws else Proto.Returns (recordChoice md c).
Proof.
  intros Hno. unfold Proto.recordChoice, Proto.failsOn.
  set (i1 := id (move1 c)). set (i2 := id (move2 c)).
  destruct (Proto.truthy (Proto.get md i1)) eqn:T1; simpl.
  2:{ f_equal. symmetry. apply recordChoice_absent. unfold present. fold i1.
      rewrite truthy_get in T1. apply orb_false_elim in T1 as [-> _]. reflexivity. }
  destruct (Proto.truthy (Proto.get md i2)) eqn:T2; simpl.
  2:{ f_equal. symmetry. apply recordChoice_absent. unfold present. fold i2.
      rewrite truthy_get in T2. apply orb_false_elim in T2 as [-> _].
      apply andb_false_r. }
  unfold Proto.get in *.
  destruct (Proto.inherited i1) eqn:I1.
  - rewrite (Hno i1 I1). reflexivity.
  - destruct (lookup i1 md) eqn:L1; [|discriminate T1].
    destruct (Proto.inherited i2) eqn:I2.
    + rewrite (Hno i2 I2). reflexivity.
    + destruct (lookup i2 md) eqn:L2; [reflexivity|discriminate T2].
Qed.

Lemma failsOn_keys md md' c :
  keys md = keys md' -> Proto.failsOn md c = Proto.failsOn md' c.
Proof.
  intros Hk. unfold Proto.failsOn.
  now rewrite !truthy_get, !(has_keys _ md md' Hk).
Qed.

Lemma recordLoop_throws cs :
  fold_left (fun state choice => Proto.bind state (fun md => Proto.recordChoice md choice))
            cs (@Proto.Throws MoveData) = Proto.Throws.
Proof. induction cs as [|c cs IH]; [reflexivity|exact IH]. Qed.

Lemma recordLoop_failsOn cs : forall md,
  Proto.noInherited md ->
  Proto.recordLoop cs md =
  if existsb (Proto.failsOn md) cs then Proto.Throws
  else Proto.Returns (fold_left recordChoice cs md).
Proof.
  unfold Proto.recordLoop.
  induction cs as [|c cs IH]; intros md Hno; [reflexivity|]. simpl.
  rewrite recordChoice_failsOn by assumption.
  destruct (Proto.failsOn md c); simpl; [apply recordLoop_throws|].
  rewrite IH by (apply (noInherited_keys md); [now rewrite keys_recordChoice|assumption]).
  assert (E : existsb (Proto.failsOn (recordChoice md c)) cs = existsb (Proto.failsOn md) cs).
  { clear. induction cs as [|c' cs IH]; [reflexivity|]. simpl.
    rewrite IH. f_equal. apply failsOn_keys, keys_recordChoice. }
  now rewrite E.
Qed.

(** *** Both loops *)

Lemma failsOn_initLoop moves cs c :
  In c cs ->
  Proto.failsOn (fold_left (initChoice (Proto.plainMoves moves)) cs []) c =
  Proto.poisoned moves c.
Proof.
  intros Hin. unfold Proto.failsOn, Proto.poisoned.
  rewrite !truthy_get, !has_initLoop, !moveMap_has_plainMoves. simpl.
  assert (H1 : existsb (participant (id (move1 c))) cs = true)
    by (apply existsb_exists; exists c; split; [assumption|apply participant_self1]).
  assert (H2 : existsb (participant (id (move2 c))) cs = true)
    by (apply existsb_exists; exists c; split; [assumption|apply participant_self2]).
  rewrite H1, H2.
  destruct (Proto.inherited (id (move1 c))), (Proto.inherited (id (move2 c)));
    destruct (moveMap_has moves (id (move1 c))), (moveMap_has moves (id (move2 c)));
    reflexivity.
Qed.

Lemma existsb_ext_in {A : Type} (f g : A -> bool) l :
  (forall x, In x l -> f x = g x) -> existsb f l = existsb g l.
Proof.
  induction l as [|x l IH]; intros H; [reflexivity|]. simpl.
  rewrite (H x) by now left. f_equal. apply IH. intros y Hy. apply H. now right.
Qed.

(** [createMoveDataMap] throws exactly when some choice passes the guard on
    an inherited value; otherwise it returns the tallies of [BTL] over the
    moves whose id is no inherited name. *)
Lemma createMoveDataMap_outcome moves cs :
  Proto.createMoveDataMap moves cs =
  if existsb (Proto.poisoned moves) cs then Proto.Throws
  else Proto.Returns (createMoveDataMap (Proto.plainMoves moves) cs).
Proof.
  unfold Proto.createMoveDataMap, createMoveDataMap.
  destruct (initLoop_plainMoves moves cs [] noInherited_nil) as [E Hno].
  rewrite E, recordLoop_failsOn by assumption.
  rewrite (existsb_ext_in (Proto.failsOn _) (Proto.poisoned moves));
    [reflexivity|]. intros c Hc. now apply failsOn_initLoop.
Qed.

Lemma calculateBTLScores_outcome moves choices mt :
  Proto.calculateBTLScores moves choices mt =
  if existsb (Proto.poisoned moves) (typeChoicesOf choices mt) then Proto.Throws
  else Proto.Returns (calculateBTLScores (Proto.plainMoves moves) choices mt).
Proof.
  unfold Proto.calculateBTLScores, calculateBTLScores.
  destruct (typeChoicesOf choices mt) as [|c cs] eqn:E; [reflexivity|].
  rewrite createMoveDataMap_outcome.
  destruct (existsb (Proto.poisoned moves) (c :: cs)); reflexivity.
Qed.

(** *** Choices without inherited names *)

Lemma poisoned_plain moves c : Proto.plain c = true -> Proto.poisoned moves c = false.
Proof.
  unfold Proto.plain, Proto.poisoned. intros H. apply andb_prop in H as [H1 H2].
  apply negb_true_iff in H1, H2. now rewrite H1, H2.
Qed.

Lemma initMove_ext moves moves' md key :
  moveMap_get moves key = moveMap_get moves' key ->
  initMove moves md key = initMove moves' md key.
Proof. unfold initMove. now intros ->. Qed.

Lemma initLoop_ext moves moves' cs : forall md,
  (forall c, In c cs ->
     moveMap_get moves (id (move1 c)) = moveMap_get moves' (id (move1 c)) /\
     moveMap_get moves (id (move2 c)) = moveMap_get moves' (id (move2 c))) ->
  fold_left (initChoice moves) cs md = fold_left (initChoice moves') cs md.
Proof.
  induction cs as [|c cs IH]; intros md H; [reflexivity|]. simpl.
  destruct (H c (or_introl eq_refl)) as [H1 H2].
  unfold initChoice at 2 4.
  rewrite (initMove_ext moves moves' md _ H1), (initMove_ext moves moves' _ _ H2).
  apply IH. intros c' Hc'. apply H. now right.
Qed.

Lemma createMoveDataMap_plain moves cs :
  forallb Proto.plain cs = true ->
  createMoveDataMap (Proto.plainMoves moves) cs = createMoveDataMap moves cs.
Proof.
  intros Hp. unfold createMoveDataMap. f_equal. apply initLoop_ext.
  intros c Hc. rewrite forallb_forall in Hp. specialize (Hp c Hc).
  unfold Proto.plain in Hp. apply andb_prop in Hp as [H1 H2].
  apply negb_true_iff in H1, H2.
  now rewrite !moveMap_get_plainMoves, H1, H2.
Qed.

Lemma existsb_poisoned_plain moves cs :
  forallb Proto.plain cs = true -> existsb (Proto.poisoned moves) cs = false.
Proof.
  intros Hp. rewrite forallb_forall in Hp.
  destruct (existsb (Proto.poisoned moves) cs) eqn:E; [|reflexivity].
  apply existsb_exists in E as (c & Hc & Hpo).
  now rewrite (poisoned_plain moves c (Hp c Hc)) in Hpo.
Qed.

(** When it returns, the choices counted are those whose two participants
    are in the list, as in [BTL]. *)
Lemma bothKnown_plainMoves moves cs :
  existsb (Proto.poisoned moves) cs = false ->
  filter (bothKnown (Proto.plainMoves moves)) cs = filter (bothKnown moves) cs.
Proof.
  intros Hex. apply filter_ext_in. intros c Hc.
  assert (Hpo : Proto.poisoned moves c = false).
  { destruct (Proto.poisoned moves c) eqn:E; [|reflexivity].
    rewrite <- Hex. symmetry. apply existsb_exists. now exists c. }
  unfold bothKnown. rewrite !moveMap_has_plainMoves.
  unfold Proto.poisoned in Hpo.
  destruct (Proto.inherited (id (move1 c))), (Proto.inherited (id (move2 c))),
    (moveMap_has moves (id (move1 c))), (moveMap_has moves (id (move2 c)));
    simpl in *; congruence.
Qed.

(** *** Prediction *)

Lemma calculateBTLPrediction_entries m1 m2 md :
  has (id m1) md = true -> has (id m2) md = true ->
  Proto.calculateBTLPrediction m1 m2 md =
  Proto.ofPrediction (calculateBTLPrediction m1 m2 md).
Proof.
  intros H1 H2.
  apply get_entry in H1 as (d1 & G1 & L1). apply get_entry in H2 as (d2 & G2 & L2).
  unfold Proto.calculateBTLPrediction, calculateBTLPrediction.
  rewrite G1, G2, L1, L2. reflexivity.
Qed.

Lemma calculateBTLPrediction_undefined m1 m2 md :
  Proto.truthy (Proto.get md (id m1)) && Proto.truthy (Proto.get md (id m2)) = false ->
  Proto.calculateBTLPrediction m1 m2 md = Proto.neutralPrediction.
Proof.
  intros H. unfold Proto.calculateBTLPrediction.
  destruct (Proto.truthy (Proto.get md (id m1))), (Proto.truthy (Proto.get md (id m2)));
    try reflexivity. discriminate.
Qed.

(** *** What a call returns *)

Lemma returns_inj {A : Type} (a b : A) : Proto.Returns a = Proto.Returns b -> a = b.
Proof. intros H. now injection H. Qed.

Lemma calculateBTLScores_returns moves choices mt l :
  Proto.calculateBTLScores moves choices mt = Proto.Returns l ->
  existsb (Proto.poisoned moves) (typeChoicesOf choices mt) = false /\
  l = calculateBTLScores (Proto.plainMoves moves) choices mt.
Proof.
  rewrite calculateBTLScores_outcome.
  destruct (existsb (Proto.poisoned moves) (typeChoicesOf choices mt)); [discriminate|].
  intros H. apply returns_inj in H. now split.
Qed.

Lemma createMoveDataMap_returns moves cs md :
  Proto.createMoveDataMap moves cs = Proto.Returns md ->
  existsb (Proto.poisoned moves) cs = false /\
  md = createMoveDataMap (Proto.plainMoves moves) cs.
Proof.
  rewrite createMoveDataMap_outcome.
  destruct (existsb (Proto.poisoned moves) cs); [discriminate|].
  intros H. apply returns_inj in H. now split.
Qed.

Lemma calculateBTLScores_plain moves choices mt :
  forallb Proto.plain (typeChoicesOf choices mt) = true ->
  Proto.calculateBTLScores moves choices mt =
  Proto.Returns (calculateBTLScores moves choices mt).
Proof.
  intros Hp. rewrite calculateBTLScores_outcome, existsb_poisoned_plain by assumption.
  f_equal. unfold calculateBTLScores.
  now rewrite createMoveDataMap_plain by assumption.
Qed.

Lemma noInherited_createMoveDataMap moves cs :
  Proto.noInherited (createMoveDataMap (Proto.plainMoves moves) cs).
Proof.
  intros key Hi.
  destruct (lookup key (createMoveDataMap (Proto.plainMoves moves) cs)) as [d|] eqn:E;
    [|reflexivity].
  assert (Hhas : has key (createMoveDataMap (Proto.plainMoves moves) cs) = true)
    by (apply has_lookup; now exists d).
  rewrite has_createMoveDataMap, moveMap_has_plainMoves, Hi in Hhas. discriminate.
Qed.

Lemma truthy_createMoveDataMap moves cs key :
  Proto.truthy (Proto.get (createMoveDataMap (Proto.plainMoves moves) cs) key) =
  Proto.inherited key || (moveMap_has moves key && existsb (participant key) cs).
Proof.
  rewrite truthy_get, has_createMoveDataMap, moveMap_has_plainMoves.
  destruct (Proto.inherited key), (moveMap_has moves key), (existsb (participant key) cs);
    reflexivity.
Qed.

End ProtoFacts.

(** * The claims *)

Import Num NumFacts Confidence ConfidenceFacts Obj ObjFacts.
Import BTL Tally TallyFacts Scale ScoreFacts Ranking TierFacts Examples.
Import ProtoFacts.

(** ** Confidence *)

(** C3, as stated, fails at [n = 0]: the guard of [calculateConfidence]
    returns [0] there, which is not the value [1/(1+e^5)] of the logistic
    curve. *)
Lemma confidence_zero_off_the_curve :
  calculateConfidence 0 <> 1 / (1 + exp 5) /\
  ~ (forall n, 0 <= n -> calculateConfidence n = 1 / (1 + exp (- (0.5) * (n - 10)))).
Proof.
  assert (H : calculateConfidence 0 <> 1 / (1 + exp 5)).
  { rewrite calculateConfidence_0. pose proof (exp_pos 5) as He.
    assert (0 < 1 / (1 + exp 5)) by (apply Rdiv_lt_0_compat; lra). lra. }
  split; [exact H|].
  intros Hall. apply H. rewrite (Hall 0) by lra. do 3 f_equal. lra.
Qed.

(** C3, amended: for every [n > 0] the confidence is the logistic
    [1/(1+e^(-0.5(n-10)))]; [calculateConfidence 0] is [0]; the confidence
    never decreases when the number of comparisons grows; and the
    confidence of [10] is [0.5]. *)
Theorem confidence_logistic_guarded :
  (forall n, 0 < n -> calculateConfidence n = 1 / (1 + exp (- (0.5) * (n - 10)))) /\
  calculateConfidence 0 = 0 /\
  (forall a b : nat, (a <= b)%nat ->
     calculateConfidence (INR a) <= calculateConfidence (INR b)) /\
  calculateConfidence 10 = 0.5.
Proof.
  repeat split.
  - intros n Hn. rewrite calculateConfidence_nonzero by lra. reflexivity.
  - apply calculateConfidence_0.
  - intros a b Hab. apply le_INR in Hab. pose proof (pos_INR a) as Ha.
    destruct Hab as [Hlt|Heq]; [left|right; now rewrite Heq].
    rewrite (calculateConfidence_nonzero (INR b)) by lra.
    destruct (Req_dec_T (INR a) 0) as [E|Hne].
    + rewrite E, calculateConfidence_0. apply logistic_pos.
    + rewrite calculateConfidence_nonzero by assumption. now apply logistic_increasing.
  - rewrite calculateConfidence_nonzero by lra. unfold logistic.
    replace (- (0.5) * (10 - 10)) with 0 by lra. rewrite exp_0. lra.
Qed.

Lemma confidence_logistic_guarded_witness :
  calculateConfidence 1 = 1 / (1 + exp (- (0.5) * (1 - 10))) /\
  calculateConfidence (INR 0) <= calculateConfidence (INR 1).
Proof.
  split.
  - apply (proj1 confidence_logistic_guarded); lra.
  - apply (proj1 (proj2 (proj2 confidence_logistic_guarded))); lia.
Defined.

(** ** Prediction *)

Ltac rdec :=
  repeat match goal with
  | |- context [Rlt_dec ?a ?b] => destruct (Rlt_dec a b)
  end.

Lemma predictionRate_nonneg d : 0 <= wins d -> 0 <= predictionRate d.
Proof.
  intros Hw. unfold predictionRate.
  destruct (Nat.ltb_spec 0 (total d)) as [Ht|Ht]; [|lra].
  apply Rmult_le_pos; [assumption|]. left. apply Rinv_0_lt_compat. now apply lt_0_INR.
Qed.




(** ** Tiers *)

Lemma inBand_tierOfPercentile index totalMoves t :
  (index < totalMoves)%nat ->
  tier_eqb (tierOfPercentile (percentileOf index totalMoves)) t =
  TierSpec.inBand t (INR index / INR totalMoves).
Proof.
  intros H. pose proof (percentileOf_range index totalMoves H) as Hr.
  unfold percentileOf in *. set (q := INR index / INR totalMoves) in *.
  unfold tierOfPercentile, TierSpec.inBand, TierSpec.lower, TierSpec.upper.
  destruct t;
    repeat match goal with
    | |- context [Rlt_dec ?a ?b] => destruct (Rlt_dec a b)
    | |- context [Rle_dec ?a ?b] => destruct (Rle_dec a b)
    end; try reflexivity; exfalso; lra.
Qed.

Lemma In_rankedFrom_lt l : forall start p,
  In p (rankedFrom start l) -> (start <= fst p < start + List.length l)%nat.
Proof.
  unfold rankedFrom. induction l as [|x l IH]; intros start p H; [destruct H|].
  simpl in H. destruct H as [<-|H]; [simpl; lia|].
  apply IH in H. simpl. lia.
Qed.

Lemma inBand_unique q t t' :
  TierSpec.inBand t q = true -> TierSpec.inBand t' q = true -> t = t'.
Proof.
  unfold TierSpec.inBand, TierSpec.lower, TierSpec.upper.
  destruct t, t';
    repeat match goal with
    | |- context [Rlt_dec ?a ?b] => destruct (Rlt_dec a b)
    | |- context [Rle_dec ?a ?b] => destruct (Rle_dec a b)
    end; intros; try reflexivity; try discriminate; exfalso; lra.
Qed.

(** C5: the six buckets of [groupMovesByTier], read from S to F, are a
    rearrangement of the input, so every standing is in exactly one bucket,
    none dropped and none duplicated; read in this order the scores
    descend; and each bucket holds exactly the standings whose rank position
    [index/total] in this order lies in the band of the tier: [[0,10%)] S,
    [[10%,25%)] A, [[25%,50%)] B, [[50%,75%)] C, [[75%,90%)] D and
    [[90%,100%]] F, every position lying in exactly one band. *)
Theorem tiers_partition_by_rank_percentile (movesWithScores : list Standing) :
  let tiers := snd (groupMovesByTier movesWithScores) in
  let ranked := allTiers tiers in
  let total := List.length movesWithScores in
  Permutation movesWithScores ranked /\
  ranked = sortDesc movesWithScores /\
  descending ranked /\
  (forall t, bucket t tiers = TierSpec.inBandOf t ranked) /\
  (forall index, (index < total)%nat ->
     exists t, TierSpec.inBand t (INR index / INR total) = true /\
               forall t', TierSpec.inBand t' (INR index / INR total) = true -> t' = t).
Proof.
  intros tiers ranked total.
  assert (Hall : ranked = sortDesc movesWithScores) by apply groupMovesByTier_allTiers.
  repeat apply conj.
  - rewrite Hall. apply sortDesc_perm.
  - exact Hall.
  - rewrite Hall. apply sortDesc_descending.
  - intros t. unfold tiers. rewrite groupMovesByTier_bucket.
    unfold atTier, TierSpec.inBandOf. rewrite Hall.
    fold (rankedFrom 0 (sortDesc movesWithScores)).
    f_equal. apply filter_ext_in. intros p Hp.
    apply In_rankedFrom_lt in Hp. rewrite sortDesc_length in *.
    apply inBand_tierOfPercentile. lia.
  - intros index Hi.
    exists (tierOfPercentile (percentileOf index total)). split.
    + rewrite <- inBand_tierOfPercentile by assumption.
      unfold tier_eqb. apply Nat.eqb_refl.
    + intros t' Ht'. apply (inBand_unique (INR index / INR total)); [assumption|].
      rewrite <- inBand_tierOfPercentile by assumption.
      unfold tier_eqb. apply Nat.eqb_refl.
Qed.

Lemma tiers_partition_by_rank_percentile_witness :
  let l := [standing "a" 0.2; standing "b" 0.9] in
  Permutation l (allTiers (snd (groupMovesByTier l))) /\
  bucket TierC (snd (groupMovesByTier l)) =
    TierSpec.inBandOf TierC (allTiers (snd (groupMovesByTier l))).
Proof.
  intros l.
  destruct (tiers_partition_by_rank_percentile l) as (Hperm & _ & _ & Hband & _).
  split; [exact Hperm|apply Hband].
Defined.

Lemma sortDesc_pair_swap x y :
  btlScore x < btlScore y -> sortDesc [x; y] = [y; x].
Proof.
  intros H. simpl. destruct (Rlt_dec (btlScore x) (btlScore y)); [reflexivity|contradiction].
Qed.

(** C9 fails on [groupMovesByTier]: the array passed in is sorted in place.
    Called on [[a (0.2); b (0.9)]], it leaves the caller's array as
    [[b; a]]. *)
Theorem groupMovesByTier_reorders_argument :
  let movesWithScores := [standing "a" 0.2; standing "b" 0.9] in
  fst (groupMovesByTier movesWithScores) = [standing "b" 0.9; standing "a" 0.2] /\
  fst (groupMovesByTier movesWithScores) <> movesWithScores.
Proof.
  intros l. unfold groupMovesByTier. cbv zeta. unfold fst.
  unfold l. rewrite sortDesc_pair_swap by (simpl; lra).
  split; [reflexivity|]. intros H. discriminate H.
Qed.

Lemma sortDesc_tied a b c s :
  sortDesc [standing a s; standing b s; standing c s] =
  [standing a s; standing b s; standing c s].
Proof.
  simpl. destruct (Rlt_dec s s) as [H|_]; [lra|].
  simpl. destruct (Rlt_dec s s) as [H|_]; [lra|]. reflexivity.
Qed.

(** C4 fails on [groupMovesByTier]: three standings that all have the score
    [0.5] are put into three different tiers, S, B and C, by their
    positions 0, 1 and 2 of 3. *)
Theorem groupMovesByTier_splits_tied_scores :
  let a := standing "a" 0.5 in
  let b := standing "b" 0.5 in
  let c := standing "c" 0.5 in
  let tiers := snd (groupMovesByTier [a; b; c]) in
  btlScore a = btlScore b /\ btlScore b = btlScore c /\
  tS tiers = [a] /\ tA tiers = [] /\ tB tiers = [b] /\
  tC tiers = [c] /\ tD tiers = [] /\ tF tiers = [].
Proof.
  intros a b c tiers. split; [reflexivity|]. split; [reflexivity|].
  unfold tiers, groupMovesByTier. cbv zeta. unfold snd.
  unfold a, b, c. rewrite sortDesc_tied.
  cbn [tierLoop List.length].
  rewrite !tierOfPercentile_rank by lia.
  repeat split.
Qed.

(** ** Standings *)

Lemma standing_is_compared_item moves choices mt s :
  In s (calculateBTLScores moves choices mt) ->
  let counted := filter (bothKnown moves) (typeChoicesOf choices mt) in
  moveMap_get moves (id (moveOf s)) = Some (moveOf s) /\
  In (moveOf s) moves /\
  existsb (participant (id (moveOf s))) (typeChoicesOf choices mt) = true /\
  userWins s = winsFrom (id (moveOf s)) counted 0 /\
  userTotal s = totalFrom (id (moveOf s)) counted 0%nat.
Proof.
  intros Hin counted.
  apply In_calculateBTLScores in Hin as (d & Hl & ->). simpl.
  apply lookup_createMoveDataMap in Hl as (Hm & Hp & Hw & Ht).
  pose proof (moveMap_get_Some _ _ _ Hm) as [_ Hin].
  auto.
Qed.

Import Neutral.

(** C1, as stated, fails: with no choice of the category the result is
    empty, so the move [a] of the list has no standing; and with the single
    choice [a] over [b], the move [c] of the list has none either. *)
Lemma no_standing_without_comparison :
  calculateBTLScores [mk "a"] [] "jab" = [] /\
  ~ neutralStandings [mk "a"] [] "jab" /\
  ~ neutralStandings [mk "a"; mk "b"; mk "c"] [jab "a" "b" 1] "jab".
Proof.
  split; [reflexivity|]. split.
  - intros H. destruct (H (mk "a")) as (s & Hin & _); [now left|reflexivity|].
    destruct Hin.
  - intros H. destruct (H (mk "c")) as (s & Hin & Hm & _);
      [right; right; now left|reflexivity|].
    apply standing_is_compared_item in Hin as (_ & _ & Hp & _).
    rewrite Hm in Hp. discriminate Hp.
Qed.

(** C1, amended: when no choice is of the category the result is empty; a
    standing is returned only for a move of the list that takes part in some
    choice of the category, so a move without comparisons has none; and a
    standing with total [0] has [0] wins, win rate [0] and confidence [0]. *)
Theorem standings_only_for_compared_items moves choices mt :
  (typeChoicesOf choices mt = [] -> calculateBTLScores moves choices mt = []) /\
  (forall s, In s (calculateBTLScores moves choices mt) ->
     In (moveOf s) moves /\
     existsb (participant (id (moveOf s))) (typeChoicesOf choices mt) = true) /\
  (forall s, In s (calculateBTLScores moves choices mt) -> userTotal s = 0%nat ->
     userWins s = 0 /\ winRate s = 0 /\ confidence s = 0).
Proof.
  repeat apply conj.
  - apply calculateBTLScores_empty.
  - intros s Hin. apply standing_is_compared_item in Hin. tauto.
  - intros s Hin Ht.
    pose proof (standing_is_compared_item _ _ _ _ Hin) as (_ & _ & _ & Hw & Ht').
    rewrite Ht in Ht'. symmetry in Ht'.
    rewrite (winsFrom_untouched _ _ 0%nat 0 Ht') in Hw.
    apply In_calculateBTLScores in Hin as (d & _ & ->). simpl in *.
    rewrite Ht. simpl. split; [assumption|]. split; [reflexivity|].
    apply calculateConfidence_0.
Qed.

Lemma standings_only_for_compared_items_witness :
  calculateBTLScores [mk "a"] [jab "a" "b" 1] "smash" = [] /\
  forall s, In s (calculateBTLScores [mk "a"; mk "b"; mk "c"] [jab "a" "b" 1] "jab") ->
            moveOf s <> mk "c".
Proof.
  split.
  - apply (proj1 (standings_only_for_compared_items [mk "a"] [jab "a" "b" 1] "smash")).
    reflexivity.
  - intros s Hin Hc.
    apply (proj1 (proj2 (standings_only_for_compared_items _ _ _))) in Hin as [_ Hp].
    rewrite Hc in Hp. discriminate Hp.
Defined.

(** ** Choices with an unknown participant *)

Lemma recordChoice_unknown moves md c :
  (forall key, has key md = true -> moveMap_has moves key = true) ->
  bothKnown moves c = false -> recordChoice md c = md.
Proof.
  intros Hknown Hc. apply recordChoice_absent.
  unfold present, bothKnown in *.
  destruct (has (id (move1 c)) md) eqn:E1; [|reflexivity].
  destruct (has (id (move2 c)) md) eqn:E2; [|reflexivity].
  now rewrite (Hknown _ E1), (Hknown _ E2) in Hc.
Qed.

(** C6 fails on [createMoveDataMap]: the unknown id [constructor] names a
    property that the plain object [moveData] inherits.  No entry is stored
    for it, but [moveData["constructor"]] is truthy, the guard of the tally
    loop is passed, and the call of [opponents.add] on it throws.  With the
    unknown id [z] in its place the choice is passed over. *)
Theorem unknown_inherited_name_throws :
  let moves := [mk "a"] in
  moveMap_has moves "constructor" = false /\
  Proto.get (fold_left (Proto.initChoice moves) [jab "a" "constructor" 1] []) "constructor"
    = Proto.Inherited /\
  Proto.createMoveDataMap moves [jab "a" "constructor" 1] = Proto.Throws /\
  Proto.calculateBTLScores moves [jab "a" "constructor" 1] "jab" = Proto.Throws /\
  Proto.createMoveDataMap moves [jab "a" "z" 1] =
    Proto.Returns [("a"%string, {| move := mk "a"; wins := 0; total := 0; opponents := [] |})].
Proof.
  repeat split.
Qed.

(** ** A known move whose opponents are all unknown *)

(** The sample: [a] was chosen over [b], and [c] met the unknown [z]. *)
Lemma sample_moveData :
  createMoveDataMap [mk "a"; mk "b"; mk "c"] [jab "a" "b" 1; jab "c" "z" 1] =
  [("a"%string, {| move := mk "a"; wins := 0 + 1; total := 1; opponents := ["b"%string] |});
   ("b"%string, {| move := mk "b"; wins := 0; total := 1; opponents := ["a"%string] |});
   ("c"%string, {| move := mk "c"; wins := 0; total := 0; opponents := [] |})].
Proof. reflexivity. Qed.

Lemma sample_max_min :
  let md := createMoveDataMap [mk "a"; mk "b"; mk "c"] [jab "a" "b" 1; jab "c" "z" 1] in
  maxSeed md = 0.5 + 0.5 * logistic 1 /\ minSeed md = 0.
Proof.
  intros md.
  pose proof (logistic_pos 1) as Hp.
  assert (E1 : (0 + 1) / 1 * (0.5 + 0.5 * logistic 1) = 0.5 + 0.5 * logistic 1) by field.
  assert (E2 : 0 / 1 * (0.5 + 0.5 * logistic 1) = 0) by field.
  split.
  - unfold md. rewrite sample_moveData. unfold maxSeed, seedScores, seedScore. simpl.
    rewrite calculateConfidence_nonzero, E1, E2 by lra.
    rewrite (Rmax_left (0.5 + 0.5 * logistic 1) 0) by lra.
    rewrite Rmax_left by lra. reflexivity.
  - unfold md. rewrite sample_moveData. unfold minSeed, seedScores, seedScore. simpl.
    rewrite calculateConfidence_nonzero, E1, E2 by lra.
    rewrite (Rmin_right (0.5 + 0.5 * logistic 1) 0) by lra.
    rewrite Rmin_left by lra. reflexivity.
Qed.

Lemma sample_scaled :
  let md := createMoveDataMap [mk "a"; mk "b"; mk "c"] [jab "a" "b" 1; jab "c" "z" 1] in
  scaled md 0.5 = 0.5 / (0.5 + 0.5 * logistic 1) /\
  scaled md 0.5 <> 0.5 /\ scaled md 0.5 <> 0.
Proof.
  intros md.
  pose proof (logistic_pos 1) as Hp. pose proof (logistic_lt_1 1) as Hl.
  destruct sample_max_min as [Hmax Hmin]. fold md in Hmax, Hmin.
  assert (Hs : scaled md 0.5 = 0.5 / (0.5 + 0.5 * logistic 1)).
  { unfold scaled. rewrite Hmax, Hmin.
    destruct (Rlt_dec 0 (0.5 + 0.5 * logistic 1 - 0)); [|lra].
    now rewrite !Rminus_0_r. }
  assert (Hlt : 0.5 < 0.5 / (0.5 + 0.5 * logistic 1)).
  { apply (Rmult_lt_reg_r (0.5 + 0.5 * logistic 1)); [lra|].
    unfold Rdiv. rewrite Rmult_assoc, Rinv_l by lra. nra. }
  rewrite Hs. repeat split; lra.
Qed.

(** In the sample the lowest seed, the one of [b], is scaled to [0]; the
    standing of [b] then carries [0 || 0.5], that is [0.5]. *)
Remark lowest_score_reported_as_half :
  let md := createMoveDataMap [mk "a"; mk "b"; mk "c"] [jab "a" "b" 1; jab "c" "z" 1] in
  let db := {| move := mk "b"; wins := 0; total := 1; opponents := ["a"%string] |} in
  lookup "b" md = Some db /\
  lookup "b" (calculateBTLIterative md) = Some 0 /\
  btlScore (standingOf (calculateBTLIterative md) db) = 0.5.
Proof.
  intros md db.
  assert (Hd : lookup "b" md = Some db) by (unfold md; now rewrite sample_moveData).
  pose proof (logistic_pos 1) as Hp.
  destruct sample_max_min as [Hmax Hmin]. fold md in Hmax, Hmin.
  assert (Hseed : seedScore db = 0).
  { unfold seedScore. simpl. rewrite calculateConfidence_nonzero by lra. field. }
  assert (Hs : scaled md (seedScore db) = 0).
  { unfold scaled. rewrite Hmax, Hmin, Hseed.
    destruct (Rlt_dec 0 (0.5 + 0.5 * logistic 1 - 0)); [|lra].
    unfold Rdiv. rewrite Rminus_0_r. apply Rmult_0_l. }
  split; [exact Hd|]. split.
  - rewrite lookup_calculateBTLIterative, Hd. simpl. now rewrite Hs.
  - rewrite btlScore_standingOf by exact Hd. rewrite Hs. apply orElse_zero.
Qed.

(** C10 fails on [calculateBTLScores]: [c] is a move of the list and takes
    part in one choice only, against the unknown id [toString]; this id
    names an inherited property, the tally loop passes its guard and throws,
    and no standing is returned, neither for [c] nor for [a] and [b]. *)
Theorem known_item_against_inherited_name_throws :
  let moves := [mk "a"; mk "b"; mk "c"] in
  let choices := [jab "a" "b" 1; jab "c" "toString" 1] in
  moveMap_has moves "c" = true /\
  moveMap_has moves "toString" = false /\
  (forall ch, In ch (typeChoicesOf choices "jab") -> participant "c" ch = true ->
              bothKnown moves ch = false) /\
  existsb (participant "c") (typeChoicesOf choices "jab") = true /\
  Proto.calculateBTLScores moves choices "jab" = Proto.Throws.
Proof.
  repeat split.
  intros ch [<-|[<-|[]]]; [discriminate|reflexivity].
Qed.

(** ** The scaling against the two-step definition *)

(** The two-step definition and the engine also differ on an entry with
    total [0]: in the sample the entry of [c] has total [0], so the two-step
    definition leaves it at [0.5]; the engine scales it with the others, to
    [0.5 / (0.5 + 0.5 * confidence 1)]. *)
Remark scaling_reaches_unscored_entry :
  ~ Reference.agrees [mk "a"; mk "b"; mk "c"] [jab "a" "b" 1; jab "c" "z" 1] "jab".
Proof.
  intros H. unfold Reference.agrees in H. cbv zeta in H.
  change (typeChoicesOf [jab "a" "b" 1; jab "c" "z" 1] "jab")
    with [jab "a" "b" 1; jab "c" "z" 1] in H.
  set (md := createMoveDataMap [mk "a"; mk "b"; mk "c"] [jab "a" "b" 1; jab "c" "z" 1]) in *.
  set (dc := {| move := mk "c"; wins := 0; total := 0; opponents := [] |}).
  assert (Hd : lookup "c" md = Some dc) by (unfold md; now rewrite sample_moveData).
  pose proof (standing_of_entry [mk "a"; mk "b"; mk "c"]
                [jab "a" "b" 1; jab "c" "z" 1] "jab" "c" dc Hd) as Hin.
  specialize (H _ "c"%string dc Hin Hd eq_refl).
  change (typeChoicesOf [jab "a" "b" 1; jab "c" "z" 1] "jab")
    with [jab "a" "b" 1; jab "c" "z" 1] in H.
  fold md in H. rewrite btlScore_standingOf in H by exact Hd.
  destruct sample_scaled as (_ & Hne & Hnz). fold md in Hne, Hnz.
  change (seedScore dc) with 0.5 in H.
  rewrite orElse_nonzero in H by exact Hnz.
  apply Hne. rewrite H. reflexivity.
Qed.

Lemma seedScore_scored d :
  (0 < total d)%nat -> seedScore d = Reference.seed d.
Proof.
  intros Ht. unfold seedScore, Reference.seed.
  destruct (Nat.ltb_spec 0 (total d)); [|lia].
  rewrite calculateConfidence_nonzero by (apply not_0_INR; lia). reflexivity.
Qed.

Lemma scoredSeeds_all md :
  Forall (fun kd => (0 < total (snd kd))%nat) md ->
  Reference.scoredSeeds md = values (seedScores md).
Proof.
  intros H. rewrite values_seedScores. unfold Reference.scoredSeeds.
  induction H as [|kd md Hkd _ IH]; [reflexivity|]. simpl.
  destruct (Nat.ltb_spec 0 (total (snd kd))); [|lia]. simpl.
  now rewrite IH, seedScore_scored.
Qed.

Lemma scaled_by_comparison md s :
  scaled md s =
  if Rlt_dec (minSeed md) (maxSeed md)
  then (s - minSeed md) / (maxSeed md - minSeed md) else s.
Proof.
  unfold scaled.
  destruct (Rlt_dec 0 (maxSeed md - minSeed md)), (Rlt_dec (minSeed md) (maxSeed md));
    try reflexivity; lra.
Qed.

(** The sample: [a] was chosen over [b]. *)
Lemma duel_moveData :
  createMoveDataMap [mk "a"; mk "b"] [jab "a" "b" 1] =
  [("a"%string, {| move := mk "a"; wins := 0 + 1; total := 1; opponents := ["b"%string] |});
   ("b"%string, {| move := mk "b"; wins := 0; total := 1; opponents := ["a"%string] |})].
Proof. reflexivity. Qed.

Lemma duel_max_min :
  let md := createMoveDataMap [mk "a"; mk "b"] [jab "a" "b" 1] in
  maxSeed md = 0.5 + 0.5 * logistic 1 /\ minSeed md = 0.
Proof.
  intros md.
  pose proof (logistic_pos 1) as Hp.
  assert (E1 : (0 + 1) / 1 * (0.5 + 0.5 * logistic 1) = 0.5 + 0.5 * logistic 1) by field.
  assert (E2 : 0 / 1 * (0.5 + 0.5 * logistic 1) = 0) by field.
  split.
  - unfold md. rewrite duel_moveData. unfold maxSeed, seedScores, seedScore. simpl.
    rewrite calculateConfidence_nonzero, E1, E2 by lra.
    rewrite Rmax_left by lra. reflexivity.
  - unfold md. rewrite duel_moveData. unfold minSeed, seedScores, seedScore. simpl.
    rewrite calculateConfidence_nonzero, E1, E2 by lra.
    rewrite Rmin_right by lra. reflexivity.
Qed.

(** C2 fails on [calculateBTLScores]: when [a] was chosen over [b] once, the
    seed of [b] is the minimum, the two-step definition and
    [calculateBTLIterative] both scale it to [0], and the standing of [b]
    carries [0 || 0.5], that is [0.5], as its strength score. *)
Theorem lowest_strength_reported_as_half :
  let moves := [mk "a"; mk "b"] in
  let choices := [jab "a" "b" 1] in
  let md := createMoveDataMap moves choices in
  let db := {| move := mk "b"; wins := 0; total := 1; opponents := ["a"%string] |} in
  lookup "b" md = Some db /\
  Reference.strength md db = 0 /\
  lookup "b" (calculateBTLIterative md) = Some 0 /\
  In (standingOf (calculateBTLIterative md) db) (calculateBTLScores moves choices "jab") /\
  btlScore (standingOf (calculateBTLIterative md) db) = 0.5 /\
  ~ Reference.agrees moves choices "jab".
Proof.
  intros moves choices md db.
  assert (Hd : lookup "b" md = Some db) by (unfold md, moves, choices; now rewrite duel_moveData).
  pose proof (logistic_pos 1) as Hp.
  destruct duel_max_min as [Hmax Hmin]. fold moves choices md in Hmax, Hmin.
  assert (Hseed : seedScore db = 0).
  { unfold seedScore. simpl. rewrite calculateConfidence_nonzero by lra. field. }
  assert (Hs : scaled md (seedScore db) = 0).
  { unfold scaled. rewrite Hmax, Hmin, Hseed.
    destruct (Rlt_dec 0 (0.5 + 0.5 * logistic 1 - 0)); [|lra].
    unfold Rdiv. rewrite Rminus_0_r. apply Rmult_0_l. }
  assert (Hall : Forall (fun kd : string * MoveStats => (0 < total (snd kd))%nat) md).
  { unfold md, moves, choices. rewrite duel_moveData. repeat constructor. }
  assert (Hin : In (standingOf (calculateBTLIterative md) db)
                   (calculateBTLScores moves choices "jab"))
    by (apply (standing_of_entry moves choices "jab" "b" db); exact Hd).
  assert (Hscore : btlScore (standingOf (calculateBTLIterative md) db) = 0.5).
  { rewrite btlScore_standingOf by exact Hd. rewrite Hs. apply orElse_zero. }
  assert (Href : Reference.strength md db = 0).
  { unfold Reference.strength. simpl (0 <? total db)%nat. cbv iota.
    rewrite scoredSeeds_all by exact Hall.
    fold (maxSeed md) (minSeed md). rewrite <- seedScore_scored by (simpl; lia).
    rewrite Hmax, Hmin, Hseed.
    destruct (Rlt_dec 0 (0.5 + 0.5 * logistic 1)); [|lra].
    unfold Rdiv. rewrite Rminus_0_r. apply Rmult_0_l. }
  repeat apply conj; try assumption.
  - rewrite lookup_calculateBTLIterative, Hd. simpl. now rewrite Hs.
  - intros H. specialize (H _ "b"%string db Hin Hd eq_refl).
    change (typeChoicesOf choices "jab") with choices in H.
    fold md in H. rewrite Hscore, Href in H. lra.
Qed.

(** ** Ties *)

Lemma winsFrom_cons key c cs w :
  winsFrom key (c :: cs) w = winsFrom key cs (w + winsGain key c).
Proof. reflexivity. Qed.

Lemma totalFrom_cons key c cs t :
  totalFrom key (c :: cs) t = totalFrom key cs (t + totalGain key c)%nat.
Proof. reflexivity. Qed.



(** * Further properties of the calculator *)

Import Totals.

(** ** Bounds *)

Lemma winsGain_bounds key c : 0 <= winsGain key c <= INR (totalGain key c).
Proof.
  unfold winsGain, totalGain.
  destruct (userChoice c =? 1)%Z; [|destruct (userChoice c =? 2)%Z];
    destruct (String.eqb (id (move1 c)) key), (String.eqb (id (move2 c)) key);
    simpl; lra.
Qed.

Lemma winsFrom_bounds key cs : forall w t,
  0 <= w <= INR t ->
  0 <= winsFrom key cs w <= INR (totalFrom key cs t).
Proof.
  induction cs as [|c cs IH]; intros w t H; [exact H|].
  rewrite winsFrom_cons, totalFrom_cons. apply IH.
  pose proof (winsGain_bounds key c). rewrite plus_INR. lra.
Qed.

Lemma entry_wins_bounds moves cs key d :
  lookup key (createMoveDataMap moves cs) = Some d -> 0 <= wins d <= INR (total d).
Proof.
  intros Hd. apply lookup_createMoveDataMap in Hd as (_ & _ & -> & ->).
  apply winsFrom_bounds. simpl. lra.
Qed.

Lemma seedScore_range d : 0 <= wins d <= INR (total d) -> 0 <= seedScore d < 1.
Proof.
  intros Hw. unfold seedScore.
  destruct (Nat.ltb_spec 0 (total d)) as [Ht|Ht]; [|lra].
  assert (HT : 0 < INR (total d)) by now apply lt_0_INR.
  pose proof (calculateConfidence_range (INR (total d))) as Hc.
  assert (Hr : 0 <= wins d / INR (total d) <= 1).
  { split.
    - apply Rmult_le_pos; [lra|]. left. now apply Rinv_0_lt_compat.
    - apply (Rmult_le_reg_r (INR (total d))); [assumption|].
      unfold Rdiv. rewrite Rmult_assoc, Rinv_l; lra. }
  split; [apply Rmult_le_pos; lra|]. nra.
Qed.

Lemma scaled_range md key d :
  lookup key md = Some d ->
  0 <= seedScore d < 1 ->
  0 <= scaled md (seedScore d) <= 1.
Proof.
  intros Hd Hs. pose proof (minSeed_lower _ _ _ Hd) as Hmin.
  pose proof (maxSeed_upper _ _ _ Hd) as Hmax.
  unfold scaled. destruct (Rlt_dec 0 (maxSeed md - minSeed md)) as [Hr|Hr]; [|lra].
  split.
  - apply Rmult_le_pos; [lra|]. left. now apply Rinv_0_lt_compat.
  - apply (Rmult_le_reg_r (maxSeed md - minSeed md)); [assumption|].
    unfold Rdiv. rewrite Rmult_assoc, Rinv_l; lra.
Qed.

(** X1: every standing has [0 <= wins <= total], a win rate in [[0,1]], a
    confidence in [[0,1]] and a strength score in [(0,1]]. *)
Theorem standings_within_bounds moves choices mt s :
  In s (calculateBTLScores moves choices mt) ->
  0 <= userWins s <= INR (userTotal s) /\
  0 <= winRate s <= 1 /\
  0 <= confidence s <= 1 /\
  0 < btlScore s <= 1.
Proof.
  intros Hin. apply In_calculateBTLScores in Hin as (d & Hd & ->).
  set (md := createMoveDataMap moves (typeChoicesOf choices mt)) in *.
  pose proof (entry_wins_bounds _ _ _ _ Hd) as Hw.
  pose proof (seedScore_range d Hw) as Hs.
  pose proof (scaled_range md _ d Hd Hs) as Hsc.
  rewrite btlScore_standingOf by exact Hd. simpl.
  split; [exact Hw|]. split; [|split].
  - destruct (Nat.ltb_spec 0 (total d)) as [Ht|Ht]; [|lra].
    assert (HT : 0 < INR (total d)) by now apply lt_0_INR.
    split.
    + apply Rmult_le_pos; [lra|]. left. now apply Rinv_0_lt_compat.
    + apply (Rmult_le_reg_r (INR (total d))); [assumption|].
      unfold Rdiv. rewrite Rmult_assoc, Rinv_l; lra.
  - pose proof (calculateConfidence_range (INR (total d))). lra.
  - unfold orElse. destruct (Req_dec_T (scaled md (seedScore d)) 0); lra.
Qed.

Lemma standings_within_bounds_witness :
  exists s, In s (calculateBTLScores [mk "a"; mk "b"] [jab "a" "b" 1] "jab") /\
            0 < btlScore s <= 1 /\ 0 <= winRate s <= 1.
Proof.
  destruct (createMoveDataMap_entry [mk "a"; mk "b"] [jab "a" "b" 1] "a" (mk "a")
              eq_refl eq_refl) as (d & Hd & _).
  pose proof (standing_of_entry [mk "a"; mk "b"] [jab "a" "b" 1] "jab" "a" d Hd) as Hin.
  eexists. split; [exact Hin|].
  destruct (standings_within_bounds _ _ _ _ Hin) as (_ & Hr & _ & Hb). tauto.
Defined.

(** ** Which standings there are *)

Lemma keys_ids moves cs :
  map (fun d => id (move d)) (values (createMoveDataMap moves cs)) =
  keys (createMoveDataMap moves cs).
Proof.
  pose proof (NoDup_createMoveDataMap moves cs) as Hnd.
  set (md := createMoveDataMap moves cs) in *.
  unfold values, keys. rewrite map_map. apply map_ext_in.
  intros [key d] Hin. simpl.
  apply (In_lookup key d md Hnd) in Hin.
  apply lookup_createMoveDataMap in Hin as (Hm & _).
  now apply moveMap_get_Some in Hm.
Qed.

Lemma standingIds_keys moves choices mt :
  standingIds (calculateBTLScores moves choices mt) =
  keys (createMoveDataMap moves (typeChoicesOf choices mt)).
Proof.
  unfold standingIds.
  destruct (typeChoicesOf choices mt) as [|c cs] eqn:E.
  - now rewrite calculateBTLScores_empty.
  - rewrite calculateBTLScores_nonempty by (rewrite E; discriminate).
    rewrite E. cbv zeta. rewrite map_map. simpl moveOf. apply keys_ids.
Qed.

Lemma In_keys_has key (md : MoveData) : In key (keys md) <-> has key md = true.
Proof.
  unfold has. destruct (lookup key md) eqn:E.
  - split; [reflexivity|]. intros _.
    destruct (in_dec string_dec key (keys md)) as [H|H]; [assumption|].
    apply lookup_None in H. congruence.
  - apply lookup_None in E. split; [tauto|discriminate].
Qed.

Lemma one_standing_per_compared_item_aux moves choices mt :
  NoDup (standingIds (calculateBTLScores moves choices mt)) /\
  forall key,
    In key (standingIds (calculateBTLScores moves choices mt)) <->
    moveMap_has moves key = true /\
    existsb (participant key) (typeChoicesOf choices mt) = true.
Proof.
  rewrite standingIds_keys. split; [apply NoDup_createMoveDataMap|].
  intros key. rewrite In_keys_has, has_createMoveDataMap. apply andb_true_iff.
Qed.

(** X2: on choices that name no inherited property the call returns; and
    whenever it returns, the result has exactly one standing for every move
    of the list that takes part in a choice of the category and is not named
    like an inherited property, and no other: the ids of the standings are
    pairwise different, and an id occurs among them exactly when it is such
    a move's. *)
Theorem one_standing_per_compared_item moves choices mt :
  let typeChoices := typeChoicesOf choices mt in
  (forallb Proto.plain typeChoices = true ->
     exists l, Proto.calculateBTLScores moves choices mt = Proto.Returns l) /\
  (forall l, Proto.calculateBTLScores moves choices mt = Proto.Returns l ->
     NoDup (standingIds l) /\
     forall key,
       In key (standingIds l) <->
       moveMap_has moves key = true /\ Proto.inherited key = false /\
       existsb (participant key) typeChoices = true).
Proof.
  intros typeChoices. split.
  - intros Hp. eexists. now apply calculateBTLScores_plain.
  - intros l Hl. apply calculateBTLScores_returns in Hl as [_ ->].
    destruct (one_standing_per_compared_item_aux (Proto.plainMoves moves) choices mt)
      as [Hnd Hin].
    split; [exact Hnd|]. intros key. rewrite Hin, moveMap_has_plainMoves.
    fold typeChoices.
    destruct (Proto.inherited key), (moveMap_has moves key); simpl; intuition congruence.
Qed.

Lemma one_standing_per_compared_item_witness :
  exists l,
    Proto.calculateBTLScores [mk "a"; mk "b"; mk "c"] [jab "a" "b" 1; jab "a" "z" 2] "jab"
      = Proto.Returns l /\
    In "a"%string (standingIds l) /\ ~ In "z"%string (standingIds l) /\
    ~ In "c"%string (standingIds l).
Proof.
  destruct (one_standing_per_compared_item [mk "a"; mk "b"; mk "c"]
              [jab "a" "b" 1; jab "a" "z" 2] "jab") as [Hret H].
  destruct Hret as [l Hl]; [reflexivity|].
  exists l. split; [exact Hl|].
  destruct (H l Hl) as [_ Hin]. repeat split.
  - apply Hin. repeat split.
  - intros Hz. apply Hin in Hz as [Hz _]. discriminate Hz.
  - intros Hc. apply Hin in Hc as (_ & _ & Hc). discriminate Hc.
Defined.

(** ** The ends of the scale *)

Lemma scale_ends_aux moves choices mt :
  let moveData := createMoveDataMap moves (typeChoicesOf choices mt) in
  minSeed moveData < maxSeed moveData ->
  (forall key d, lookup key moveData = Some d ->
     (seedScore d = maxSeed moveData ->
        btlScore (standingOf (calculateBTLIterative moveData) d) = 1) /\
     (seedScore d = minSeed moveData ->
        lookup key (calculateBTLIterative moveData) = Some 0 /\
        btlScore (standingOf (calculateBTLIterative moveData) d) = 0.5)) /\
  (exists key d, lookup key moveData = Some d /\ seedScore d = maxSeed moveData) /\
  (exists key d, lookup key moveData = Some d /\ seedScore d = minSeed moveData).
Proof.
  intros md Hlt.
  assert (Hnd : NoDup (keys md)) by apply NoDup_createMoveDataMap.
  assert (Hne : md <> []).
  { intros E. revert Hlt. rewrite E. unfold minSeed, maxSeed. simpl. lra. }
  split; [|split].
  - intros key d Hd.
    assert (Hid : lookup (id (move d)) md = Some d).
    { pose proof (lookup_createMoveDataMap _ _ _ _ Hd) as (Hm & _).
      apply moveMap_get_Some in Hm as [-> _]. exact Hd. }
    split; intros Hs.
    + rewrite btlScore_standingOf by exact Hid.
      unfold scaled. rewrite Hs.
      destruct (Rlt_dec 0 (maxSeed md - minSeed md)); [|lra].
      unfold Rdiv. rewrite Rinv_r by lra. apply orElse_nonzero. lra.
    + assert (Hz : scaled md (seedScore d) = 0).
      { unfold scaled. rewrite Hs.
        destruct (Rlt_dec 0 (maxSeed md - minSeed md)); [|lra].
        unfold Rdiv. rewrite Rminus_diag. apply Rmult_0_l. }
      split.
      * rewrite lookup_calculateBTLIterative, Hd. simpl. now rewrite Hz.
      * rewrite btlScore_standingOf by exact Hid. rewrite Hz. apply orElse_zero.
  - destruct (maxSeed_attained md Hne) as ([k d] & Hin & Hmax).
    exists k, d. split; [now apply In_lookup|exact Hmax].
  - destruct (minSeed_attained md Hne) as ([k d] & Hin & Hmin).
    exists k, d. split; [now apply In_lookup|exact Hmin].
Qed.

(** X3: when the seeds are not all equal, the standing of an entry with
    the largest seed has the strength score [1], and the standing of an entry
    with the smallest seed, whose scaled score is [0], has the strength score
    [0.5]; both kinds of entries exist. *)
Theorem scale_ends moves choices mt :
  let moveData := createMoveDataMap moves (typeChoicesOf choices mt) in
  minSeed moveData < maxSeed moveData ->
  (forall key d, lookup key moveData = Some d ->
     (seedScore d = maxSeed moveData ->
        btlScore (standingOf (calculateBTLIterative moveData) d) = 1) /\
     (seedScore d = minSeed moveData ->
        lookup key (calculateBTLIterative moveData) = Some 0 /\
        btlScore (standingOf (calculateBTLIterative moveData) d) = 0.5)) /\
  (exists key d, lookup key moveData = Some d /\ seedScore d = maxSeed moveData) /\
  (exists key d, lookup key moveData = Some d /\ seedScore d = minSeed moveData).
Proof. apply scale_ends_aux. Qed.

Lemma scale_ends_witness :
  let md := createMoveDataMap [mk "a"; mk "b"; mk "c"] [jab "a" "b" 1; jab "c" "z" 1] in
  exists key d, lookup key md = Some d /\ seedScore d = minSeed md /\
                btlScore (standingOf (calculateBTLIterative md) d) = 0.5.
Proof.
  intros md.
  assert (Hlt : minSeed md < maxSeed md).
  { destruct sample_max_min as [Hmax Hmin]. fold md in Hmax, Hmin.
    rewrite Hmax, Hmin. pose proof (logistic_pos 1). lra. }
  destruct (scale_ends [mk "a"; mk "b"; mk "c"] [jab "a" "b" 1; jab "c" "z" 1] "jab" Hlt)
    as (Hends & _ & key & d & Hd & Hmin).
  exists key, d. split; [exact Hd|]. split; [exact Hmin|].
  now apply (Hends key d Hd).
Defined.

(** ** Every counted choice hands out one win and two appearances *)

Lemma totalFrom_shift key cs : forall t, totalFrom key cs t = (t + totalFrom key cs 0)%nat.
Proof.
  induction cs as [|c cs IH]; intros t; [simpl; unfold totalFrom; simpl; lia|].
  rewrite !totalFrom_cons, (IH (t + totalGain key c)%nat), (IH (0 + totalGain key c)%nat). lia.
Qed.

Lemma winsFrom_shift key cs : forall w, winsFrom key cs w = w + winsFrom key cs 0.
Proof.
  induction cs as [|c cs IH]; intros w; [unfold winsFrom; simpl; lra|].
  rewrite !winsFrom_cons, (IH (w + winsGain key c)), (IH (0 + winsGain key c)). lra.
Qed.










(** ** Opponents *)

Import Opponents.

Lemma opponents_recordChoice key md c :
  present md c = true ->
  option_map opponents (lookup key (recordChoice md c)) =
  option_map (oppStep key c) (option_map opponents (lookup key md)).
Proof. unfold oppStep, setAdd. record_cases c key md. Qed.

Lemma opponents_recordLoop key cs : forall md,
  option_map opponents (lookup key (fold_left recordChoice cs md)) =
  option_map (oppFrom key (filter (present md) cs)) (option_map opponents (lookup key md)).
Proof.
  induction cs as [|c cs IH]; intros md; simpl.
  - now destruct (lookup key md).
  - rewrite IH, filter_present_recordChoice.
    destruct (present md c) eqn:E.
    + rewrite opponents_recordChoice by assumption. now destruct (lookup key md).
    + now rewrite recordChoice_absent.
Qed.

Lemma In_setAdd x y l : In y (setAdd x l) <-> In y l \/ y = x.
Proof.
  unfold setAdd. destruct (existsb (String.eqb x) l) eqn:E.
  - split; [tauto|]. intros [H| ->]; [assumption|].
    apply existsb_exists in E as (z & Hz & Ez). apply String.eqb_eq in Ez. now subst.
  - rewrite in_app_iff. simpl. intuition congruence.
Qed.

Lemma NoDup_setAdd x l : NoDup l -> NoDup (setAdd x l).
Proof.
  intros Hnd. unfold setAdd. destruct (existsb (String.eqb x) l) eqn:E; [assumption|].
  apply NoDup_app; [assumption|repeat constructor; simpl; tauto|].
  intros y Hy [<-|[]].
  assert (Hex : existsb (String.eqb x) l = true)
    by (apply existsb_exists; exists x; split; [assumption|apply String.eqb_refl]).
  congruence.
Qed.

Lemma length_setAdd x l : (List.length (setAdd x l) <= List.length l + 1)%nat.
Proof.
  unfold setAdd. destruct (existsb (String.eqb x) l); [lia|].
  rewrite length_app. simpl. lia.
Qed.

Lemma In_oppStep key c x l :
  In x (oppStep key c l) <-> In x l \/ faced key x c = true.
Proof.
  unfold oppStep, faced.
  destruct (String.eqb_spec (id (move1 c)) key) as [E1|E1],
           (String.eqb_spec (id (move2 c)) key) as [E2|E2];
    rewrite ?In_setAdd; simpl; rewrite ?orb_false_r;
    repeat match goal with
    | |- context [String.eqb ?a ?b] => destruct (String.eqb_spec a b)
    end; simpl; intuition congruence.
Qed.

Lemma NoDup_oppStep key c l : NoDup l -> NoDup (oppStep key c l).
Proof.
  intros H. unfold oppStep.
  destruct (String.eqb (id (move1 c)) key), (String.eqb (id (move2 c)) key);
    auto using NoDup_setAdd.
Qed.

Lemma length_oppStep key c l :
  (List.length (oppStep key c l) <= List.length l + totalGain key c)%nat.
Proof.
  unfold oppStep, totalGain.
  destruct (String.eqb (id (move1 c)) key), (String.eqb (id (move2 c)) key); simpl.
  - pose proof (length_setAdd (id (move2 c)) l).
    pose proof (length_setAdd (id (move1 c)) (setAdd (id (move2 c)) l)). lia.
  - pose proof (length_setAdd (id (move2 c)) l). lia.
  - pose proof (length_setAdd (id (move1 c)) l). lia.
  - lia.
Qed.

Lemma oppFrom_spec key cs : forall l t,
  NoDup l -> (List.length l <= t)%nat ->
  NoDup (oppFrom key cs l) /\
  (List.length (oppFrom key cs l) <= totalFrom key cs t)%nat /\
  forall x, In x (oppFrom key cs l) <->
            In x l \/ exists c, In c cs /\ faced key x c = true.
Proof.
  induction cs as [|c cs IH]; intros l t Hnd Hlen.
  - simpl. unfold totalFrom. simpl. repeat split; try assumption; [tauto|].
    intros [H|(c & [] & _)]. assumption.
  - change (oppFrom key (c :: cs) l) with (oppFrom key cs (oppStep key c l)).
    rewrite totalFrom_cons.
    destruct (IH (oppStep key c l) (t + totalGain key c)%nat) as (H1 & H2 & H3).
    + now apply NoDup_oppStep.
    + pose proof (length_oppStep key c l). lia.
    + repeat split; try assumption.
      * intros Hx. apply H3 in Hx as [Hx|(c' & Hc' & Hf)].
        -- apply In_oppStep in Hx as [Hx|Hx]; [now left|].
           right. exists c. split; [now left|assumption].
        -- right. exists c'. split; [now right|assumption].
      * intros [Hx|(c' & [<-|Hc'] & Hf)]; apply H3.
        -- left. apply In_oppStep. now left.
        -- left. apply In_oppStep. now right.
        -- right. now exists c'.
Qed.

Lemma noOpponents_initMove moves md k :
  Forall (fun kd : string * MoveStats => opponents (snd kd) = []) md ->
  Forall (fun kd : string * MoveStats => opponents (snd kd) = []) (initMove moves md k).
Proof.
  intros H. unfold initMove.
  destruct (moveMap_get moves k); [|assumption].
  destruct (lookup k md); [assumption|].
  apply Forall_app. split; [assumption|]. constructor; [reflexivity|constructor].
Qed.

Lemma noOpponents_initLoop moves cs : forall md,
  Forall (fun kd : string * MoveStats => opponents (snd kd) = []) md ->
  Forall (fun kd : string * MoveStats => opponents (snd kd) = [])
         (fold_left (initChoice moves) cs md).
Proof.
  induction cs as [|c cs IH]; intros md H; [exact H|]. simpl. apply IH.
  unfold initChoice. now do 2 apply noOpponents_initMove.
Qed.

(** X5: in an entry of [createMoveDataMap], the opponents are pairwise
    different, they are exactly the moves that the entry's move met in a
    choice whose two participants are both in the move list, and there are
    at most as many as the entry's total. *)
Theorem opponents_are_the_moves_met moves cs key d :
  lookup key (createMoveDataMap moves cs) = Some d ->
  NoDup (opponents d) /\
  (List.length (opponents d) <= total d)%nat /\
  forall x, In x (opponents d) <->
            exists c, In c cs /\ bothKnown moves c = true /\ faced key x c = true.
Proof.
  intros Hd.
  pose proof (lookup_createMoveDataMap _ _ _ _ Hd) as (_ & _ & _ & Ht).
  pose proof (fresh_initLoop moves cs [] (fresh_nil moves)) as [Hnd0 Hall].
  unfold createMoveDataMap in Hd.
  set (md0 := fold_left (initChoice moves) cs []) in *.
  assert (Hfilter : filter (present md0) cs = filter (bothKnown moves) cs)
    by (apply filter_ext_in; intros c Hc; now apply present_initLoop).
  pose proof (opponents_recordLoop key cs md0) as Ho.
  rewrite Hd, Hfilter in Ho. simpl in Ho.
  destruct (lookup key md0) as [d0|] eqn:E0; [|discriminate].
  assert (Hempty : opponents d0 = []).
  { pose proof (noOpponents_initLoop moves cs [] (Forall_nil _)) as Hinv.
    rewrite Forall_forall in Hinv. apply lookup_Some_In in E0.
    exact (Hinv _ E0). }
  simpl in Ho. injection Ho as Ho. rewrite Hempty in Ho.
  destruct (oppFrom_spec key (filter (bothKnown moves) cs) [] 0%nat (NoDup_nil _) (Nat.le_refl _))
    as (H1 & H2 & H3).
  rewrite <- Ho in H1, H2, H3. rewrite <- Ht in H2.
  repeat split; try assumption.
  - intros Hx. apply H3 in Hx as [[]|(c & Hc & Hf)].
    apply filter_In in Hc as [Hc Hb]. now exists c.
  - intros (c & Hc & Hb & Hf). apply H3. right. exists c.
    split; [apply filter_In; now split|assumption].
Qed.

Lemma opponents_are_the_moves_met_witness :
  exists d, lookup "a" (createMoveDataMap [mk "a"; mk "b"; mk "c"]
                          [jab "a" "b" 1; jab "c" "a" 2; jab "a" "b" 0; jab "a" "z" 1]) = Some d /\
            opponents d = ["b"%string; "c"%string] /\
            (List.length (opponents d) <= total d)%nat.
Proof.
  eexists. split; [reflexivity|]. split; [reflexivity|].
  refine (proj1 (proj2 (opponents_are_the_moves_met
            [mk "a"; mk "b"; mk "c"]
            [jab "a" "b" 1; jab "c" "a" 2; jab "a" "b" 0; jab "a" "z" 1] "a" _ eq_refl))).
Defined.

(** ** More on the prediction *)

Import Predict.

(** X6: exchanging the two moves exchanges the two scores and the
    predicted winner ([1] for [2], [2] for [1], [0] stays) and keeps the
    confidence. *)
Theorem prediction_mirrored m1 m2 md :
  calculateBTLPrediction m2 m1 md = mirrored (calculateBTLPrediction m1 m2 md).
Proof.
  unfold calculateBTLPrediction, mirrored.
  destruct (lookup (id m1) md) as [d1|], (lookup (id m2) md) as [d2|]; try reflexivity.
  cbv zeta.
  rewrite (Rplus_comm (predictionRate d2) (predictionRate d1)).
  rewrite (Nat.add_comm (total d2) (total d1)).
  set (s1 := if Rlt_dec 0 (predictionRate d1 + predictionRate d2)
             then predictionRate d1 / (predictionRate d1 + predictionRate d2) else 0.5).
  set (s2 := if Rlt_dec 0 (predictionRate d1 + predictionRate d2)
             then predictionRate d2 / (predictionRate d1 + predictionRate d2) else 0.5).
  cbn [move1Score move2Score predictedWinner predictionConfidence].
  f_equal.
  destruct (Rlt_dec (s1 + 0.1) s2), (Rlt_dec (s2 + 0.1) s1); try reflexivity. lra.
Qed.

(** X7: on the tallies that [createMoveDataMap] returns, the prediction for
    a move that is not named like an inherited property and is not in the
    move list, or takes part in no choice, is the neutral one: both scores
    [0.5], no winner, confidence [0].  When neither move is such a move and
    one of them is named like an inherited property, the confidence is
    [NaN]; when none is, the prediction is the one computed from the two
    entries. *)
Theorem prediction_needs_both_entries moves cs md m1 m2 :
  Proto.createMoveDataMap moves cs = Proto.Returns md ->
  let entered m := moveMap_has moves (id m) && existsb (participant (id m)) cs in
  let missing m := negb (Proto.inherited (id m)) && negb (entered m) in
  let p := Proto.calculateBTLPrediction m1 m2 md in
  (missing m1 || missing m2 = true -> p = Proto.neutralPrediction) /\
  (missing m1 || missing m2 = false ->
   Proto.inherited (id m1) || Proto.inherited (id m2) = true ->
   Proto.predictionConfidence p = None) /\
  (missing m1 || missing m2 = false ->
   Proto.inherited (id m1) || Proto.inherited (id m2) = false ->
   p = Proto.ofPrediction (calculateBTLPrediction m1 m2 md)).
Proof.
  intros Hmd entered missing p.
  apply createMoveDataMap_returns in Hmd as [_ ->].
  set (md := createMoveDataMap (Proto.plainMoves moves) cs) in *.
  assert (Ht : forall m, Proto.truthy (Proto.get md (id m)) = negb (missing m)).
  { intros m. unfold md, missing, entered. rewrite truthy_createMoveDataMap.
    destruct (Proto.inherited (id m)), (moveMap_has moves (id m)),
      (existsb (participant (id m)) cs); reflexivity. }
  assert (Hget : forall m, Proto.inherited (id m) = true -> Proto.get md (id m) = Proto.Inherited).
  { intros m Hi. unfold Proto.get, md.
    now rewrite (noInherited_createMoveDataMap moves cs _ Hi), Hi. }
  assert (Hhas : forall m, missing m = false -> Proto.inherited (id m) = false ->
                           has (id m) md = true).
  { intros m Hm Hi. specialize (Ht m). rewrite truthy_get, Hm, Hi in Ht.
    now rewrite orb_false_r in Ht. }
  repeat apply conj.
  - intros H. apply calculateBTLPrediction_undefined. rewrite !Ht.
    destruct (missing m1), (missing m2); try reflexivity; discriminate.
  - intros Hm Hi. apply orb_false_elim in Hm as [Hm1 Hm2].
    unfold p, Proto.calculateBTLPrediction. rewrite !Ht, Hm1, Hm2. simpl.
    destruct (Proto.inherited (id m1)) eqn:I1.
    + now rewrite (Hget m1 I1).
    + simpl in Hi. rewrite (Hget m2 Hi).
      now destruct (Proto.totalOf (Proto.get md (id m1))).
  - intros Hm Hi. apply orb_false_elim in Hm as [Hm1 Hm2].
    apply orb_false_elim in Hi as [I1 I2].
    apply calculateBTLPrediction_entries; now apply Hhas.
Qed.

Lemma prediction_needs_both_entries_witness :
  exists md,
    Proto.createMoveDataMap [mk "a"; mk "b"; mk "c"] [jab "a" "b" 1] = Proto.Returns md /\
    Proto.calculateBTLPrediction (mk "a") (mk "c") md = Proto.neutralPrediction /\
    Proto.predictionConfidence (Proto.calculateBTLPrediction (mk "a") (mk "toString") md) = None.
Proof.
  eexists. split; [reflexivity|]. split.
  - refine (proj1 (prediction_needs_both_entries [mk "a"; mk "b"; mk "c"] [jab "a" "b" 1] _
                     (mk "a") (mk "c") eq_refl) _).
    reflexivity.
  - refine (proj1 (proj2 (prediction_needs_both_entries [mk "a"; mk "b"; mk "c"]
                     [jab "a" "b" 1] _ (mk "a") (mk "toString") eq_refl)) _ _);
      reflexivity.
Defined.

Lemma rateOf_nonneg moves cs key :
  0 <= Proto.rateOf (Proto.get (createMoveDataMap moves cs) key).
Proof.
  unfold Proto.get.
  destruct (lookup key (createMoveDataMap moves cs)) as [d|] eqn:E.
  - simpl. apply predictionRate_nonneg. now apply (entry_wins_bounds moves cs key).
  - destruct (Proto.inherited key); simpl; lra.
Qed.

(** X8: on the tallies that [createMoveDataMap] returns, the two scores of
    a prediction lie in [[0,1]] and add up to [1] within the rounding
    tolerance; the first move is the predicted winner when its score is
    above [0.55] by more than the tolerance, and only when it is above
    [0.55] minus the tolerance; the second one when the first score is below
    [0.45] by more than the tolerance, and only when it is below [0.45] plus
    the tolerance; and a confidence that is a number lies in [[0,1]]. *)
Theorem prediction_is_a_probability moves cs md m1 m2 :
  Proto.createMoveDataMap moves cs = Proto.Returns md ->
  let p := Proto.calculateBTLPrediction m1 m2 md in
  let tol := Rounding.tolerance in
  0 <= Proto.move1Score p <= 1 /\
  0 <= Proto.move2Score p <= 1 /\
  Rabs (Proto.move1Score p + Proto.move2Score p - 1) <= tol /\
  (0.55 + tol < Proto.move1Score p -> Proto.predictedWinner p = 1%Z) /\
  (Proto.predictedWinner p = 1%Z -> 0.55 - tol < Proto.move1Score p) /\
  (Proto.move1Score p < 0.45 - tol -> Proto.predictedWinner p = 2%Z) /\
  (Proto.predictedWinner p = 2%Z -> Proto.move1Score p < 0.45 + tol) /\
  (forall c, Proto.predictionConfidence p = Some c -> 0 <= c <= 1).
Proof.
  intros Hmd p tol.
  apply createMoveDataMap_returns in Hmd as [_ ->].
  set (md := createMoveDataMap (Proto.plainMoves moves) cs) in *.
  assert (Htol : 0 < tol < 0.01) by (unfold tol, Rounding.tolerance; lra).
  assert (Hconf : forall n c, Some (calculateConfidence n) = Some c -> 0 <= c <= 1).
  { intros n c H. injection H as <-. pose proof (calculateConfidence_range n). lra. }
  unfold p, Proto.calculateBTLPrediction.
  destruct (negb (Proto.truthy (Proto.get md (id m1))) ||
            negb (Proto.truthy (Proto.get md (id m2)))).
  { simpl. rewrite Rabs_right by lra.
    repeat split; intros; try discriminate; try lra.
    - injection H as <-. lra.
    - injection H as <-. lra. }
  pose proof (rateOf_nonneg (Proto.plainMoves moves) cs (id m1)) as HA.
  pose proof (rateOf_nonneg (Proto.plainMoves moves) cs (id m2)) as HB.
  fold md in HA, HB.
  set (rA := Proto.rateOf (Proto.get md (id m1))) in *.
  set (rB := Proto.rateOf (Proto.get md (id m2))) in *.
  cbv zeta.
  set (s1 := if Rlt_dec 0 (rA + rB) then rA / (rA + rB) else 0.5).
  set (s2 := if Rlt_dec 0 (rA + rB) then rB / (rA + rB) else 0.5).
  cbn [Proto.move1Score Proto.move2Score Proto.predictedWinner Proto.predictionConfidence].
  assert (Hsum : s1 + s2 = 1).
  { unfold s1, s2. destruct (Rlt_dec 0 (rA + rB)); [field|]; lra. }
  assert (Hs1 : 0 <= s1 <= 1).
  { unfold s1. destruct (Rlt_dec 0 (rA + rB)) as [Hpos|_]; [|lra]. split.
    - apply Rmult_le_pos; [assumption|]. left. now apply Rinv_0_lt_compat.
    - apply (Rmult_le_reg_r (rA + rB)); [assumption|].
      unfold Rdiv. rewrite Rmult_assoc, Rinv_l; lra. }
  split; [exact Hs1|]. split; [lra|]. split.
  { rewrite Hsum, Rminus_diag, Rabs_R0. lra. }
  repeat split.
  - intros H. rdec; try reflexivity; lra.
  - rdec; intros H; try discriminate; lra.
  - intros H. rdec; try reflexivity; lra.
  - rdec; intros H; try discriminate; lra.
  - destruct (Proto.totalOf (Proto.get md (id m1))), (Proto.totalOf (Proto.get md (id m2)));
      try discriminate. eapply Hconf; eassumption.
  - destruct (Proto.totalOf (Proto.get md (id m1))), (Proto.totalOf (Proto.get md (id m2)));
      try discriminate. eapply Hconf; eassumption.
Qed.

Lemma prediction_is_a_probability_witness :
  exists md,
    Proto.createMoveDataMap [mk "a"; mk "b"] [jab "a" "b" 1] = Proto.Returns md /\
    0 <= Proto.move1Score (Proto.calculateBTLPrediction (mk "a") (mk "b") md) <= 1.
Proof.
  eexists. split; [reflexivity|].
  exact (proj1 (prediction_is_a_probability [mk "a"; mk "b"] [jab "a" "b" 1] _
                  (mk "a") (mk "b") eq_refl)).
Defined.

(** ** More on the tiers *)

Import Slices.

Lemma StronglySorted_app_rel {A : Type} (Rel : A -> A -> Prop) p q a b :
  StronglySorted Rel (p ++ q) -> In a p -> In b q -> Rel a b.
Proof.
  induction p as [|x p IH]; intros Hs Ha Hb; [destruct Ha|].
  simpl in Hs. inversion Hs as [|? ? Hs' Hall]; subst.
  destruct Ha as [->|Ha]; [|now apply IH].
  rewrite Forall_forall in Hall. apply Hall. apply in_or_app. now right.
Qed.

Lemma tier_order_aux movesWithScores a b ta tb :
  let tiers := snd (groupMovesByTier movesWithScores) in
  In a (bucket ta tiers) -> In b (bucket tb tiers) ->
  btlScore b < btlScore a ->
  (tierIdx ta <= tierIdx tb)%nat.
Proof.
  intros tiers Ha Hb Hlt.
  destruct (Nat.le_gt_cases (tierIdx ta) (tierIdx tb)) as [H|H]; [exact H|exfalso].
  pose proof (sortDesc_descending movesWithScores) as Hs.
  rewrite <- groupMovesByTier_allTiers in Hs. fold tiers in Hs.
  unfold descending, allTiers in Hs.
  assert (Hrel : btlScore a <= btlScore b); [|lra].
  destruct tb; simpl in H.
  - destruct ta; simpl in H; try lia;
      apply (StronglySorted_app_rel _ (tS tiers) _ b a Hs Hb);
      simpl in Ha; rewrite ?in_app_iff; tauto.
  - rewrite app_assoc in Hs.
    destruct ta; simpl in H; try lia;
      apply (StronglySorted_app_rel _ _ _ b a Hs);
      simpl in Ha, Hb; rewrite ?in_app_iff; tauto.
  - rewrite 2!app_assoc in Hs.
    destruct ta; simpl in H; try lia;
      apply (StronglySorted_app_rel _ _ _ b a Hs);
      simpl in Ha, Hb; rewrite ?in_app_iff; tauto.
  - rewrite 3!app_assoc in Hs.
    destruct ta; simpl in H; try lia;
      apply (StronglySorted_app_rel _ _ _ b a Hs);
      simpl in Ha, Hb; rewrite ?in_app_iff; tauto.
  - rewrite 4!app_assoc in Hs.
    destruct ta; simpl in H; try lia;
      apply (StronglySorted_app_rel _ _ _ b a Hs);
      simpl in Ha, Hb; rewrite ?in_app_iff; tauto.
  - destruct ta; simpl in H; lia.
Qed.

(** X9: a standing is never put into a lower tier than a standing with a
    strictly smaller score. *)
Theorem higher_score_never_in_lower_tier movesWithScores a b ta tb :
  let tiers := snd (groupMovesByTier movesWithScores) in
  In a (bucket ta tiers) -> In b (bucket tb tiers) ->
  btlScore b < btlScore a ->
  (tierIdx ta <= tierIdx tb)%nat.
Proof. apply tier_order_aux. Qed.

Lemma higher_score_never_in_lower_tier_witness :
  let a := standing "a" 0.5 in
  let b := standing "b" 0.25 in
  let tiers := snd (groupMovesByTier [b; a]) in
  tS tiers = [a] /\ tC tiers = [b] /\ (tierIdx TierS <= tierIdx TierC)%nat.
Proof.
  intros a b tiers.
  assert (Hsort : sortDesc [b; a] = [a; b])
    by (apply sortDesc_pair_swap; simpl; lra).
  assert (HS : tS tiers = [a]).
  { unfold tiers, groupMovesByTier. cbv zeta. unfold snd. rewrite Hsort.
    cbn [tierLoop List.length]. rewrite !tierOfPercentile_rank by lia. reflexivity. }
  assert (HC : tC tiers = [b]).
  { unfold tiers, groupMovesByTier. cbv zeta. unfold snd. rewrite Hsort.
    cbn [tierLoop List.length]. rewrite !tierOfPercentile_rank by lia. reflexivity. }
  split; [exact HS|]. split; [exact HC|].
  apply (higher_score_never_in_lower_tier [b; a] a b TierS TierC).
  - fold tiers. simpl. rewrite HS. now left.
  - fold tiers. simpl. rewrite HC. now left.
  - simpl. lra.
Defined.

(** *** The sort is stable *)

Lemma filter_insertDesc s x l :
  filter (scoreIs s) (insertDesc x l) = filter (scoreIs s) (x :: l).
Proof.
  induction l as [|y l IH]; [reflexivity|].
  simpl insertDesc. destruct (Rlt_dec (btlScore x) (btlScore y)) as [Hlt|_]; [|reflexivity].
  simpl in *. rewrite IH.
  unfold scoreIs.
  destruct (Req_dec_T (btlScore x) s), (Req_dec_T (btlScore y) s); try reflexivity. lra.
Qed.

(** X10: the sort of [groupMovesByTier] is stable: the standings that
    share a score stand in the sorted array, and so in the tiers read from S
    to F, in the order they had in the input. *)
Theorem tied_standings_keep_their_order movesWithScores s :
  filter (scoreIs s) (allTiers (snd (groupMovesByTier movesWithScores))) =
  filter (scoreIs s) movesWithScores /\
  filter (scoreIs s) (fst (groupMovesByTier movesWithScores)) =
  filter (scoreIs s) movesWithScores.
Proof.
  rewrite groupMovesByTier_allTiers. unfold groupMovesByTier. cbv zeta. unfold fst.
  assert (H : filter (scoreIs s) (sortDesc movesWithScores) =
              filter (scoreIs s) movesWithScores).
  { induction movesWithScores as [|x l IH]; [reflexivity|].
    simpl sortDesc. rewrite filter_insertDesc. simpl. now rewrite IH. }
  now split.
Qed.

(** *** Sorting once is enough *)

Lemma sortDesc_sorted l : descending l -> sortDesc l = l.
Proof.
  unfold descending. induction 1 as [|x l Hs IH Hall]; [reflexivity|].
  simpl. rewrite IH. destruct l as [|y l]; [reflexivity|].
  simpl. inversion Hall as [|? ? Hy _]; subst.
  destruct (Rlt_dec (btlScore x) (btlScore y)); [lra|reflexivity].
Qed.

(** X11: [groupMovesByTier] called on the array it has sorted leaves the
    array as it is and returns the same tiers. *)
Theorem groupMovesByTier_again movesWithScores :
  groupMovesByTier (fst (groupMovesByTier movesWithScores)) =
  groupMovesByTier movesWithScores.
Proof.
  unfold groupMovesByTier at 2. cbv zeta. unfold fst.
  unfold groupMovesByTier.
  now rewrite sortDesc_sorted by apply sortDesc_descending.
Qed.

(** *** The tiers are slices of the sorted array *)

Lemma cut_spec q n i : (i < cut q n <-> 100 * i < q * n)%nat.
Proof.
  unfold cut. pose proof (Nat.div_mod_eq (q * n + 99) 100) as E.
  pose proof (Nat.mod_upper_bound (q * n + 99) 100 ltac:(lia)) as Hr.
  lia.
Qed.

Lemma cut_mono q q' n : (q <= q')%nat -> (cut q n <= cut q' n)%nat.
Proof. intros H. unfold cut. apply Nat.Div0.div_le_mono. nia. Qed.

Lemma cut_100 n : cut 100 n = n.
Proof.
  unfold cut. pose proof (Nat.div_mod_eq (100 * n + 99) 100) as E.
  pose proof (Nat.mod_upper_bound (100 * n + 99) 100 ltac:(lia)) as Hr. lia.
Qed.

Lemma cut_0 n : cut 0 n = 0%nat.
Proof. reflexivity. Qed.

Lemma rankTier_band t i n :
  (i < n)%nat ->
  tier_eqb (rankTier i n) t =
  (cut (fst (bandOf t)) n <=? i)%nat && (i <? cut (snd (bandOf t)) n)%nat.
Proof.
  intros Hi.
  pose proof (cut_spec 10 n i) as H10. pose proof (cut_spec 25 n i) as H25.
  pose proof (cut_spec 50 n i) as H50. pose proof (cut_spec 75 n i) as H75.
  pose proof (cut_spec 90 n i) as H90. pose proof (cut_100 n) as H100.
  unfold rankTier, tier_eqb.
  repeat match goal with
  | |- context [(100 * i <? ?b)%nat] => destruct (Nat.ltb_spec (100 * i) b)
  end;
  destruct t; simpl tierIdx; simpl bandOf; simpl fst; simpl snd; rewrite ?cut_0;
  repeat match goal with
  | |- context [(?a <=? ?b)%nat] => destruct (Nat.leb_spec a b)
  | |- context [(?a <? ?b)%nat] => destruct (Nat.ltb_spec a b)
  end; simpl; try reflexivity; exfalso; lia.
Qed.

Lemma rankedFrom_cons i x l : rankedFrom i (x :: l) = (i, x) :: rankedFrom (S i) l.
Proof. reflexivity. Qed.

Lemma slice_of_ranked lo hi l : forall i0,
  map snd (filter (fun p : nat * Standing => (lo <=? fst p)%nat && (fst p <? hi)%nat)
                  (rankedFrom i0 l)) =
  skipn (lo - i0) (firstn (hi - i0) l).
Proof.
  induction l as [|x l IH]; intros i0.
  - now rewrite firstn_nil, skipn_nil.
  - rewrite rankedFrom_cons. simpl filter. simpl fst.
    destruct (Nat.ltb_spec i0 hi) as [Hhi|Hhi].
    + replace (hi - i0)%nat with (S (hi - S i0)) by lia. simpl firstn.
      destruct (Nat.leb_spec lo i0) as [Hlo|Hlo]; simpl.
      * replace (lo - i0)%nat with 0%nat by lia. simpl. f_equal.
        rewrite IH. now replace (lo - S i0)%nat with 0%nat by lia.
      * replace (lo - i0)%nat with (S (lo - S i0)) by lia. simpl. apply IH.
    + rewrite andb_false_r. rewrite IH.
      replace (hi - i0)%nat with 0%nat by lia.
      replace (hi - S i0)%nat with 0%nat by lia. simpl. now rewrite !skipn_nil.
Qed.

Lemma In_rankedFrom i0 l p : In p (rankedFrom i0 l) -> (i0 <= fst p < i0 + List.length l)%nat.
Proof.
  revert i0. induction l as [|x l IH]; intros i0 H; [destruct H|].
  rewrite rankedFrom_cons in H. destruct H as [<-|H]; simpl; [lia|].
  apply IH in H. lia.
Qed.

Lemma atTier_slice t l :
  atTier t (List.length l) (rankedFrom 0 l) =
  slice (cut (fst (bandOf t)) (List.length l)) (cut (snd (bandOf t)) (List.length l)) l.
Proof.
  unfold atTier, slice.
  rewrite (filter_ext_in _
             (fun p : nat * Standing =>
                (cut (fst (bandOf t)) (List.length l) <=? fst p)%nat &&
                (fst p <? cut (snd (bandOf t)) (List.length l))%nat)).
  - rewrite slice_of_ranked. now rewrite !Nat.sub_0_r.
  - intros p Hp. apply In_rankedFrom in Hp.
    rewrite tierOfPercentile_rank by lia. apply rankTier_band. lia.
Qed.

Lemma bucket_slice movesWithScores t :
  let tiers := snd (groupMovesByTier movesWithScores) in
  let n := List.length movesWithScores in
  let lo := cut (fst (bandOf t)) n in
  let hi := cut (snd (bandOf t)) n in
  bucket t tiers = slice lo hi (sortDesc movesWithScores) /\
  List.length (bucket t tiers) = (hi - lo)%nat /\
  (lo <= hi <= n)%nat.
Proof.
  intros tiers n lo hi.
  assert (Hb : bucket t tiers = slice lo hi (sortDesc movesWithScores)).
  { unfold tiers. rewrite groupMovesByTier_bucket.
    rewrite <- (sortDesc_length movesWithScores) at 1.
    rewrite atTier_slice, sortDesc_length. reflexivity. }
  assert (Hle : (lo <= hi <= n)%nat).
  { unfold lo, hi. split.
    - apply cut_mono. destruct t; simpl; lia.
    - rewrite <- (cut_100 n) at 2. apply cut_mono. destruct t; simpl; lia. }
  split; [exact Hb|]. split; [|exact Hle].
  rewrite Hb. unfold slice. rewrite length_skipn, length_firstn, sortDesc_length.
  fold n. lia.
Qed.

(** X12: each tier is a slice of the array sorted by descending score:
    the tier whose band is [[lo%, hi%)] holds the positions from
    [ceil (lo * n / 100)] up to, not including, [ceil (hi * n / 100)], where
    [n] is the number of standings; its size is the difference of the two. *)
Theorem tiers_are_slices movesWithScores t :
  let tiers := snd (groupMovesByTier movesWithScores) in
  let n := List.length movesWithScores in
  let lo := cut (fst (bandOf t)) n in
  let hi := cut (snd (bandOf t)) n in
  bucket t tiers = slice lo hi (sortDesc movesWithScores) /\
  List.length (bucket t tiers) = (hi - lo)%nat /\
  (lo <= hi <= n)%nat.
Proof. apply bucket_slice. Qed.

(** X13: a non-empty input has a non-empty tier S, headed by a standing
    of the highest score; and with fewer than ten standings the tier F is
    empty. *)
Theorem top_in_S_and_small_lists_without_F movesWithScores :
  let tiers := snd (groupMovesByTier movesWithScores) in
  (movesWithScores <> [] ->
   exists top rest, tS tiers = top :: rest /\
     forall x, In x movesWithScores -> btlScore x <= btlScore top) /\
  ((List.length movesWithScores < 10)%nat -> tF tiers = []).
Proof.
  intros tiers. split.
  - intros Hne.
    destruct (bucket_slice movesWithScores TierS) as (Hb & Hlen & _).
    fold tiers in Hb, Hlen. simpl bucket in Hb, Hlen. simpl bandOf in *. simpl fst in *.
    simpl snd in *. rewrite cut_0 in *.
    assert (Hn : (0 < List.length movesWithScores)%nat)
      by (destruct movesWithScores; [congruence|simpl; lia]).
    set (n := List.length movesWithScores) in *.
    assert (Hc : (0 < cut 10 n)%nat) by (apply cut_spec; lia).
    pose proof (sortDesc_descending movesWithScores) as Hs.
    pose proof (sortDesc_perm movesWithScores) as Hp.
    pose proof (sortDesc_length movesWithScores) as Hl. fold n in Hl.
    destruct (sortDesc movesWithScores) as [|top l]; [simpl in Hl; lia|].
    unfold slice in Hb. simpl in Hb.
    destruct (cut 10 n) as [|c]; [lia|]. simpl in Hb.
    exists top, (firstn c l). split; [exact Hb|].
    intros x Hx. apply (Permutation_in _ Hp) in Hx.
    inversion Hs as [|? ? _ Hall]; subst. rewrite Forall_forall in Hall.
    destruct Hx as [->|Hx]; [lra|now apply Hall].
  - intros Hn.
    destruct (bucket_slice movesWithScores TierF) as (_ & Hlen & _).
    fold tiers in Hlen. simpl bucket in Hlen. simpl bandOf in *. simpl fst in *.
    simpl snd in *. rewrite cut_100 in Hlen.
    set (n := List.length movesWithScores) in *.
    assert (Hc : (n <= cut 90 n)%nat).
    { destruct (Nat.le_gt_cases n (cut 90 n)) as [H|H]; [exact H|].
      pose proof (cut_spec 90 n (cut 90 n)) as Hc. lia. }
    destruct (tF tiers); [reflexivity|simpl in Hlen; lia].
Qed.

Lemma top_in_S_and_small_lists_without_F_witness :
  let l := [standing "a" 0.2; standing "b" 0.9] in
  (exists top rest, tS (snd (groupMovesByTier l)) = top :: rest /\
     forall x, In x l -> btlScore x <= btlScore top) /\
  tF (snd (groupMovesByTier l)) = [].
Proof.
  intros l. destruct (top_in_S_and_small_lists_without_F l) as [H1 H2].
  split; [apply H1; discriminate|apply H2; simpl; lia].
Defined.

(** ** More on the confidence *)

Lemma logistic_10 : logistic 10 = 0.5.
Proof.
  unfold logistic. replace (- (0.5) * (10 - 10)) with 0 by lra. rewrite exp_0. lra.
Qed.

(** X14: for a positive number of comparisons the confidence is positive
    and at most [1]; it is below [0.5] exactly for fewer than [10]
    comparisons and above [0.5] exactly for more than [10]. *)
Theorem confidence_threshold (n : nat) :
  (0 < n)%nat ->
  0 < calculateConfidence (INR n) <= 1 /\
  (calculateConfidence (INR n) < 0.5 <-> (n < 10)%nat) /\
  (0.5 < calculateConfidence (INR n) <-> (10 < n)%nat).
Proof.
  intros Hn. apply lt_INR in Hn. simpl in Hn.
  assert (H10 : INR 10 = 10) by (rewrite INR_IZR_INZ; reflexivity).
  rewrite calculateConfidence_nonzero by lra. rewrite <- logistic_10.
  split; [split; [apply logistic_pos|left; apply logistic_lt_1]|].
  split; split; intros H.
  - apply INR_lt. rewrite H10.
    destruct (Rlt_le_dec (INR n) 10) as [Hlt|Hge]; [exact Hlt|exfalso].
    destruct Hge as [Hgt|Heq]; [|rewrite Heq in H; lra].
    pose proof (logistic_increasing _ _ Hgt). lra.
  - apply lt_INR in H. rewrite H10 in H. now apply logistic_increasing.
  - apply INR_lt. rewrite H10.
    destruct (Rlt_le_dec 10 (INR n)) as [Hlt|Hge]; [exact Hlt|exfalso].
    destruct Hge as [Hgt|Heq]; [|rewrite Heq in H; lra].
    pose proof (logistic_increasing _ _ Hgt). lra.
  - apply lt_INR in H. rewrite H10 in H. now apply logistic_increasing.
Qed.

Lemma confidence_threshold_witness :
  calculateConfidence (INR 3) < 0.5 /\ 0.5 < calculateConfidence (INR 25).
Proof.
  split.
  - apply (proj1 (proj2 (confidence_threshold 3 ltac:(lia)))). lia.
  - apply (proj2 (proj2 (confidence_threshold 25 ltac:(lia)))). lia.
Defined.

(** ** Statistics *)

Import Stats.

Lemma ratio_in_unit k n : (k <= n)%nat -> (0 < n)%nat -> 0 <= INR k / INR n <= 1.
Proof.
  intros Hk Hn. assert (HN : 0 < INR n) by now apply lt_0_INR.
  pose proof (pos_INR k) as Hk0. apply le_INR in Hk. split.
  - apply Rmult_le_pos; [assumption|]. left. now apply Rinv_0_lt_compat.
  - apply (Rmult_le_reg_r (INR n)); [assumption|].
    unfold Rdiv. rewrite Rmult_assoc, Rinv_l; lra.
Qed.

Lemma confidence_sum_bounds l : forall a,
  Forall (fun c => 0 <= confidenceOr0 c < 1) l ->
  a <= fold_left (fun sum c => sum + confidenceOr0 c) l a <= a + INR (List.length l) /\
  (l <> [] -> fold_left (fun sum c => sum + confidenceOr0 c) l a < a + INR (List.length l)).
Proof.
  induction l as [|c l IH]; intros a H.
  - simpl. split; [lra|congruence].
  - inversion H as [|? ? Hc Hl]; subst.
    destruct (IH (a + confidenceOr0 c) Hl) as [[H1 H2] _].
    change (List.length (c :: l)) with (S (List.length l)). rewrite S_INR. simpl fold_left.
    split; [lra|]. intros _. lra.
Qed.

Lemma getBTLStatistics_nonempty userChoices mt :
  let typeChoices := filter (fun c => String.eqb (moveType (choiceOf c)) mt) userChoices in
  let n := List.length typeChoices in
  typeChoices <> [] ->
  getBTLStatistics userChoices mt =
  {| totalComparisons := n;
     uniqueMoves := List.length (uniqueMoveIds typeChoices);
     averageConfidence :=
       fold_left (fun sum c => sum + confidenceOr0 c) typeChoices 0 / INR n;
     tieRate :=
       INR (List.length (filter (fun c => (userChoice (choiceOf c) =? 0)%Z) typeChoices)) / INR n;
     agreementRate := INR (List.length (filter agrees typeChoices)) / INR n |}.
Proof.
  intros typeChoices n Hne. unfold getBTLStatistics. fold typeChoices.
  assert (Hn : (0 <? n)%nat = true).
  { apply Nat.ltb_lt. unfold n. destruct typeChoices; [congruence|simpl; lia]. }
  unfold n in *. destruct typeChoices as [|c0 l]; [congruence|].
  cbv zeta. now rewrite Hn.
Qed.

(** X15: the statistics of [getBTLStatistics] are all [0] when no choice is
    of the move type; otherwise the tie rate and the agreement rate lie in
    [[0,1]], and the average confidence lies in [[0,1)] when every stored
    prediction has its confidence there, as the predictions of
    [calculateBTLPrediction] have. *)
Theorem statistics_are_rates userChoices mt :
  let stats := getBTLStatistics userChoices mt in
  let typeChoices := filter (fun c => String.eqb (moveType (choiceOf c)) mt) userChoices in
  totalComparisons stats = List.length typeChoices /\
  (typeChoices = [] ->
     uniqueMoves stats = 0%nat /\ averageConfidence stats = 0 /\
     tieRate stats = 0 /\ agreementRate stats = 0) /\
  0 <= tieRate stats <= 1 /\
  0 <= agreementRate stats <= 1 /\
  (Forall (fun c => forall p, btlPrediction c = Some p ->
                              0 <= predictionConfidence p < 1) typeChoices ->
   0 <= averageConfidence stats < 1).
Proof.
  intros stats typeChoices.
  destruct typeChoices as [|c0 l] eqn:E.
  - unfold stats, getBTLStatistics. fold typeChoices. rewrite E. simpl.
    repeat split; intros; lra.
  - rewrite <- E.
    assert (Hne : typeChoices <> []) by (rewrite E; discriminate).
    unfold stats. rewrite getBTLStatistics_nonempty by exact Hne. fold typeChoices.
    set (n := List.length typeChoices).
    assert (Hn : (0 < n)%nat) by (unfold n; rewrite E; simpl; lia).
    cbn [totalComparisons uniqueMoves averageConfidence tieRate agreementRate].
    split; [reflexivity|]. split; [intros; congruence|].
    split; [apply ratio_in_unit; [apply filter_length_le|exact Hn]|].
    split; [apply ratio_in_unit; [apply filter_length_le|exact Hn]|].
    intros Hall.
    assert (Hall' : Forall (fun c => 0 <= confidenceOr0 c < 1) typeChoices).
    { rewrite Forall_forall in *. intros c Hc. unfold confidenceOr0.
      specialize (Hall c Hc). destruct (btlPrediction c) as [p|]; [|lra].
      specialize (Hall p eq_refl). unfold orElse.
      destruct (Req_dec_T (predictionConfidence p) 0); lra. }
    destruct (confidence_sum_bounds typeChoices 0 Hall') as [[H1 _] H2].
    specialize (H2 Hne). fold n in H2.
    assert (HN : 0 < INR n) by now apply lt_0_INR.
    split.
    + apply Rmult_le_pos; [assumption|]. left. now apply Rinv_0_lt_compat.
    + apply (Rmult_lt_reg_r (INR n)); [assumption|].
      unfold Rdiv. rewrite Rmult_assoc, Rinv_l; lra.
Qed.

Lemma uniqueMoveIds_spec l : forall acc,
  NoDup acc ->
  let ids := fold_left (fun ids c => setAdd (id (move2 (choiceOf c)))
                                           (setAdd (id (move1 (choiceOf c))) ids)) l acc in
  NoDup ids /\
  (List.length ids <= List.length acc + 2 * List.length l)%nat /\
  forall x, In x ids <-> In x acc \/ exists c, In c l /\ participant x (choiceOf c) = true.
Proof.
  induction l as [|c l IH]; intros acc Hnd; simpl.
  - repeat split; try assumption; [lia|tauto|]. intros [H|(c & [] & _)]. exact H.
  - destruct (IH (setAdd (id (move2 (choiceOf c))) (setAdd (id (move1 (choiceOf c))) acc)))
      as (H1 & H2 & H3); [now do 2 apply NoDup_setAdd|].
    split; [exact H1|]. split.
    + pose proof (length_setAdd (id (move1 (choiceOf c))) acc).
      pose proof (length_setAdd (id (move2 (choiceOf c)))
                    (setAdd (id (move1 (choiceOf c))) acc)). lia.
    + intros x. rewrite H3, !In_setAdd. unfold participant. split.
      * intros [[[H| ->]| ->]|(c' & Hc' & Hp)].
        -- now left.
        -- right. exists c. split; [now left|]. now rewrite String.eqb_refl.
        -- right. exists c. split; [now left|]. now rewrite String.eqb_refl, orb_true_r.
        -- right. exists c'. split; [now right|exact Hp].
      * intros [H|(c' & [<-|Hc'] & Hp)].
        -- left. left. now left.
        -- left. apply orb_prop in Hp as [Hp|Hp]; apply String.eqb_eq in Hp; subst x; tauto.
        -- right. now exists c'.
Qed.

Lemma typeChoicesOf_map userChoices mt :
  typeChoicesOf (map choiceOf userChoices) mt =
  map choiceOf (filter (fun c => String.eqb (moveType (choiceOf c)) mt) userChoices).
Proof.
  unfold typeChoicesOf. induction userChoices as [|c l IH]; [reflexivity|]. simpl.
  destruct (String.eqb (moveType (choiceOf c)) mt); simpl; now rewrite IH.
Qed.

(** X16: [uniqueMoves] is the number of different ids that take part in a
    choice of the move type; it is at most twice the number of those
    choices, and the standings which [calculateBTLScores] returns for the
    same choices are never more than [uniqueMoves]. *)
Theorem uniqueMoves_counts_participants moves userChoices mt :
  let stats := getBTLStatistics userChoices mt in
  let typeChoices := filter (fun c => String.eqb (moveType (choiceOf c)) mt) userChoices in
  uniqueMoves stats = List.length (uniqueMoveIds typeChoices) /\
  NoDup (uniqueMoveIds typeChoices) /\
  (forall x, In x (uniqueMoveIds typeChoices) <->
             exists c, In c typeChoices /\ participant x (choiceOf c) = true) /\
  (uniqueMoves stats <= 2 * totalComparisons stats)%nat /\
  (List.length (calculateBTLScores moves (map choiceOf userChoices) mt)
   <= uniqueMoves stats)%nat.
Proof.
  intros stats typeChoices.
  destruct (uniqueMoveIds_spec typeChoices [] (NoDup_nil _)) as (Hnd & Hlen & Hin).
  fold (uniqueMoveIds typeChoices) in Hnd, Hlen, Hin.
  assert (Hin' : forall x, In x (uniqueMoveIds typeChoices) <->
            exists c, In c typeChoices /\ participant x (choiceOf c) = true).
  { intros x. rewrite Hin. split; [intros [[]|H]; exact H|now right]. }
  assert (Hu : uniqueMoves stats = List.length (uniqueMoveIds typeChoices) /\
               totalComparisons stats = List.length typeChoices).
  { unfold stats. destruct typeChoices as [|c0 l] eqn:E.
    - unfold getBTLStatistics. fold typeChoices. rewrite E. now split.
    - rewrite <- E. rewrite getBTLStatistics_nonempty by (fold typeChoices; rewrite E; discriminate).
      now split. }
  destruct Hu as [Hu Ht].
  split; [exact Hu|]. split; [exact Hnd|]. split; [exact Hin'|].
  split; [rewrite Hu, Ht; simpl in Hlen; lia|].
  rewrite Hu.
  destruct (one_standing_per_compared_item_aux moves (map choiceOf userChoices) mt)
    as [Hnd' Hids].
  rewrite <- (length_map (fun s => id (moveOf s))).
  fold (standingIds (calculateBTLScores moves (map choiceOf userChoices) mt)).
  apply NoDup_incl_length; [exact Hnd'|].
  intros x Hx. apply Hids in Hx as [_ Hp]. apply Hin'.
  rewrite typeChoicesOf_map in Hp. apply existsb_exists in Hp as (c & Hc & Hp).
  apply in_map_iff in Hc as (sc & <- & Hsc). now exists sc.
Qed.

(** ** The tier list of the global rankings *)

Import Global GlobalSpec.

Lemma orElse_0 x : orElse x 0 = x.
Proof. unfold orElse. now destruct (Req_dec_T x 0). Qed.

Lemma scoreIs_true s x : scoreIs s x = true <-> btlScore x = s.
Proof. unfold scoreIs. destruct (Req_dec_T (btlScore x) s); split; congruence. Qed.

Section GlobalFacts.
Variable localeCompare : string -> string -> Z.

Lemma insertRanking_perm x l : Permutation (x :: l) (insertRanking localeCompare x l).
Proof.
  induction l as [|y l IH]; simpl; [apply Permutation_refl|].
  destruct (goesAfter localeCompare x y); [|apply Permutation_refl].
  eapply perm_trans; [apply perm_swap|]. now apply perm_skip.
Qed.

Lemma sortRankings_perm l : Permutation l (sortRankings localeCompare l).
Proof.
  induction l as [|x l IH]; simpl; [constructor|].
  eapply perm_trans; [apply perm_skip, IH|apply insertRanking_perm].
Qed.

End GlobalFacts.

(** *** The groups *)

Lemma groupOf_app s groups k g :
  groupOf s (groups ++ [(k, g)]) =
  match groupOf s groups with
  | Some g' => Some g'
  | None => if Req_dec_T k s then Some g else None
  end.
Proof.
  induction groups as [|[k' g'] groups IH]; simpl; [reflexivity|].
  destruct (Req_dec_T k' s); [reflexivity|apply IH].
Qed.

Lemma groupOf_pushTo s k m groups :
  groupOf s (pushTo k m groups) =
  if Req_dec_T k s then option_map (fun g => g ++ [m]) (groupOf s groups)
  else groupOf s groups.
Proof.
  induction groups as [|[k' g'] groups IH]; simpl.
  - now destruct (Req_dec_T k s).
  - destruct (Req_dec_T k' k) as [->|Hk]; simpl.
    + destruct (Req_dec_T k s); reflexivity.
    + destruct (Req_dec_T k' s) as [->|Hs].
      * destruct (Req_dec_T k s); [congruence|reflexivity].
      * apply IH.
Qed.

Lemma groupOf_addToGroup s groups m :
  groupOf s (addToGroup groups m) =
  if scoreIs s m then Some (groupOr (groupOf s groups) ++ [m]) else groupOf s groups.
Proof.
  unfold addToGroup, scoreIs. rewrite orElse_0.
  destruct (groupOf (btlScore m) groups) as [g|] eqn:E.
  - rewrite groupOf_pushTo. destruct (Req_dec_T (btlScore m) s) as [<-|_]; [|reflexivity].
    now rewrite E.
  - rewrite groupOf_pushTo, groupOf_app.
    destruct (Req_dec_T (btlScore m) s) as [<-|Hs].
    + rewrite E. simpl. now destruct (Req_dec_T (btlScore m) (btlScore m)).
    + destruct (groupOf s groups); [reflexivity|].
      now destruct (Req_dec_T (btlScore m) s).
Qed.

Lemma groupOf_fold s l : forall groups,
  groupOf s (fold_left addToGroup l groups) =
  match withScore s l with
  | [] => groupOf s groups
  | _ => Some (groupOr (groupOf s groups) ++ withScore s l)
  end.
Proof.
  unfold withScore.
  induction l as [|m l IH]; intros groups; [reflexivity|].
  simpl fold_left. rewrite IH, groupOf_addToGroup. simpl filter.
  destruct (scoreIs s m); [|reflexivity].
  destruct (filter (scoreIs s) l) as [|y f]; [reflexivity|].
  simpl groupOr. now rewrite <- app_assoc.
Qed.

Lemma groupOr_groups s l :
  groupOr (groupOf s (fold_left addToGroup l [])) = withScore s l.
Proof. rewrite groupOf_fold. simpl. now destruct (withScore s l). Qed.

Lemma group_present s l :
  In s (map btlScore l) -> groupOf s (fold_left addToGroup l []) = Some (withScore s l).
Proof.
  intros Hin. rewrite groupOf_fold. simpl.
  destruct (withScore s l) as [|y f] eqn:E; [|reflexivity].
  exfalso. apply in_map_iff in Hin as (x & Hx & Hin).
  assert (H : In x (withScore s l)) by (apply filter_In; split; [assumption|now apply scoreIs_true]).
  rewrite E in H. destruct H.
Qed.

(** *** The unique scores *)

Lemma uniqueOf_spec l : forall seen,
  NoDup (uniqueOf seen l) /\
  forall x, In x (uniqueOf seen l) <-> In x l /\ ~ In x seen.
Proof.
  induction l as [|y l IH]; intros seen; simpl.
  - split; [constructor|tauto].
  - destruct (in_dec Req_dec_T y seen) as [Hy|Hy].
    + destruct (IH seen) as [Hnd Hin]. split; [exact Hnd|].
      intros x. rewrite Hin. split; [tauto|]. intros [[->|H] Hn]; tauto.
    + destruct (IH (y :: seen)) as [Hnd Hin]. split.
      * constructor; [|exact Hnd]. rewrite Hin. simpl. tauto.
      * intros x. simpl. rewrite Hin. simpl.
        destruct (Req_dec_T y x) as [->|Hne]; tauto.
Qed.

Lemma insertNumDesc_perm x l : Permutation (x :: l) (insertNumDesc x l).
Proof.
  induction l as [|y l IH]; simpl; [apply Permutation_refl|].
  destruct (Rlt_dec x y); [|apply Permutation_refl].
  eapply perm_trans; [apply perm_swap|]. now apply perm_skip.
Qed.

Lemma sortNumDesc_perm l : Permutation l (sortNumDesc l).
Proof.
  induction l as [|x l IH]; simpl; [constructor|].
  eapply perm_trans; [apply perm_skip, IH|apply insertNumDesc_perm].
Qed.

Lemma insertNumDesc_sorted x l :
  StronglySorted (fun a b => b <= a) l ->
  StronglySorted (fun a b => b <= a) (insertNumDesc x l).
Proof.
  induction l as [|y l IH]; intros Hs; simpl.
  - repeat constructor.
  - inversion Hs as [|? ? Hl Hy]; subst.
    destruct (Rlt_dec x y) as [Hlt|Hge].
    + constructor; [now apply IH|].
      rewrite Forall_forall in *. intros z Hz.
      apply (Permutation_in _ (Permutation_sym (insertNumDesc_perm x l))) in Hz.
      destruct Hz as [<-|Hz]; [lra|now apply Hy].
    + constructor; [assumption|]. constructor; [lra|].
      rewrite Forall_forall in *. intros z Hz. specialize (Hy z Hz). lra.
Qed.

Lemma sortNumDesc_sorted l : StronglySorted (fun a b => b <= a) (sortNumDesc l).
Proof.
  induction l as [|x l IH]; simpl; [constructor|now apply insertNumDesc_sorted].
Qed.

(** The unique scores of a list of rankings: every score once, from the
    highest to the lowest. *)
Lemma uniqueScores_spec l :
  let scores := sortNumDesc (uniqueOf [] (map btlScore l)) in
  NoDup scores /\
  StronglySorted (fun a b => b < a) scores /\
  forall s, In s scores <-> In s (map btlScore l).
Proof.
  intros scores.
  destruct (uniqueOf_spec (map btlScore l) []) as [Hnd Hin].
  pose proof (sortNumDesc_perm (uniqueOf [] (map btlScore l))) as Hp. fold scores in Hp.
  assert (Hnd' : NoDup scores) by (eapply Permutation_NoDup; eassumption).
  split; [exact Hnd'|]. split.
  - pose proof (sortNumDesc_sorted (uniqueOf [] (map btlScore l))) as Hs. fold scores in Hs.
    clear Hp. induction Hs as [|x u Hs IH Hall]; [constructor|].
    inversion Hnd' as [|? ? Hx Hu]; subst.
    constructor; [now apply IH|].
    rewrite Forall_forall in *. intros y Hy. specialize (Hall y Hy).
    destruct Hall as [Hlt| ->]; [exact Hlt|contradiction].
  - intros s. split; intros H.
    + apply (Permutation_in _ (Permutation_sym Hp)) in H. now apply Hin in H.
    + apply (Permutation_in _ Hp). apply Hin. simpl. tauto.
Qed.

(** *** The loop *)

Lemma bucket_concatTo T t g ts :
  bucket T (concatTo t g ts) = bucket T ts ++ (if tier_eqb t T then g else []).
Proof. destruct T, t; simpl; now rewrite ?app_nil_r. Qed.

Lemma tierAt_capped j : tierAt (Nat.min j 6) = tierAt j.
Proof.
  do 6 (destruct j as [|j]; [reflexivity|]).
  simpl Nat.min. rewrite Nat.min_0_r. unfold tierAt. simpl. now destruct j.
Qed.

Lemma assignGroup_step sorted ts j s :
  assignGroup (fold_left addToGroup sorted []) (ts, Nat.min j 6) s =
  (concatTo (tierAt j) (withScore s sorted) ts, Nat.min (S j) 6).
Proof.
  unfold assignGroup. rewrite <- (tierAt_capped j).
  fold (groupOr (groupOf s (fold_left addToGroup sorted []))).
  rewrite groupOr_groups.
  do 6 (destruct j as [|j]; [reflexivity|]).
  simpl Nat.min. rewrite !Nat.min_0_r. reflexivity.
Qed.

Lemma loop_bucket sorted T scores : forall j ts,
  bucket T (fst (fold_left (assignGroup (fold_left addToGroup sorted []))
                           scores (ts, Nat.min j 6))) =
  bucket T ts ++ collect sorted T j scores.
Proof.
  induction scores as [|s scores IH]; intros j ts; cbn [fold_left collect].
  - simpl. now rewrite app_nil_r.
  - rewrite assignGroup_step, IH, bucket_concatTo. now rewrite <- app_assoc.
Qed.

Lemma In_collect sorted T a scores : forall j,
  In a (collect sorted T j scores) <->
  exists k, nth_error scores k = Some (btlScore a) /\ tierAt (j + k) = T /\ In a sorted.
Proof.
  induction scores as [|s scores IH]; intros j; simpl.
  - split; [tauto|]. intros (k & Hk & _). now destruct k.
  - rewrite in_app_iff, IH. split.
    + intros [H|(k & Hk & Ht & Hin)].
      * unfold tier_eqb in H.
        destruct (Nat.eqb_spec (tierIdx (tierAt j)) (tierIdx T)) as [E|E]; [|destruct H].
        apply filter_In in H as [Hin Hs]. apply scoreIs_true in Hs.
        exists 0%nat. simpl. rewrite Nat.add_0_r. repeat split; try assumption.
        -- now rewrite Hs.
        -- destruct (tierAt j), T; simpl in E; congruence.
      * exists (S k). simpl. rewrite Nat.add_succ_r. auto.
    + intros ([|k] & Hk & Ht & Hin); simpl in Hk.
      * left. injection Hk as ->. rewrite Nat.add_0_r in Ht. subst T.
        unfold tier_eqb. rewrite Nat.eqb_refl. apply filter_In. split; [assumption|].
        now apply scoreIs_true.
      * right. exists k. rewrite Nat.add_succ_r in Ht. auto.
Qed.

Lemma In_global_bucket localeCompare l T a :
  let scores := sortNumDesc (uniqueOf [] (map btlScore (sortRankings localeCompare l))) in
  In a (bucket T (groupGlobalRankingsByTier localeCompare l)) <->
  In a l /\ exists k, nth_error scores k = Some (btlScore a) /\ tierAt k = T.
Proof.
  intros scores. unfold groupGlobalRankingsByTier. cbv zeta. fold scores.
  change (noTiers, 0%nat) with (noTiers, Nat.min 0 6).
  assert (Hb : bucket T noTiers = []) by now destruct T.
  rewrite loop_bucket, Hb. simpl app. rewrite In_collect. simpl Nat.add.
  pose proof (sortRankings_perm localeCompare l) as Hp.
  split.
  - intros (k & Hk & Ht & Hin). split; [|now exists k].
    now apply (Permutation_in _ (Permutation_sym Hp)).
  - intros (Hin & k & Hk & Ht). exists k. repeat split; try assumption.
    now apply (Permutation_in _ Hp).
Qed.

Lemma score_has_position localeCompare l a :
  In a l ->
  exists k, nth_error (sortNumDesc (uniqueOf [] (map btlScore (sortRankings localeCompare l)))) k
            = Some (btlScore a).
Proof.
  intros Hin. apply In_nth_error.
  apply (uniqueScores_spec (sortRankings localeCompare l)).
  apply in_map. now apply (Permutation_in _ (sortRankings_perm localeCompare l)).
Qed.

Lemma NoDup_nth_error_eq {A : Type} (u : list A) i j x :
  NoDup u -> nth_error u i = Some x -> nth_error u j = Some x -> i = j.
Proof.
  intros Hnd Hi Hj. apply (proj1 (NoDup_nth_error u) Hnd).
  - apply nth_error_Some. congruence.
  - congruence.
Qed.

(** X17: [groupGlobalRankingsByTier] keeps the rankings of one score
    together: every ranking is in exactly one tier, and two rankings with the
    same score are in the same tier. *)
Theorem global_tiers_keep_ties_together localeCompare globalRankings a b :
  let tiers := groupGlobalRankingsByTier localeCompare globalRankings in
  In a globalRankings -> In b globalRankings ->
  btlScore a = btlScore b ->
  (exists t, In a (bucket t tiers)) /\
  (forall t t', In a (bucket t tiers) -> In a (bucket t' tiers) -> t = t') /\
  (forall t, In a (bucket t tiers) <-> In b (bucket t tiers)).
Proof.
  intros tiers Ha Hb Hab. unfold tiers. split; [|split].
  - destruct (score_has_position localeCompare _ a Ha) as (k & Hk).
    exists (tierAt k). apply In_global_bucket. split; [assumption|]. now exists k.
  - intros t t' H H'.
    apply In_global_bucket in H as (_ & k & Hk & <-).
    apply In_global_bucket in H' as (_ & k' & Hk' & <-).
    f_equal. eapply NoDup_nth_error_eq; [|eassumption|eassumption].
    apply (uniqueScores_spec (sortRankings localeCompare globalRankings)).
  - intros t. rewrite !In_global_bucket, Hab. tauto.
Qed.


Lemma global_tiers_keep_ties_together_witness :
  let a := standing "a" 0.5 in
  let b := standing "b" 0.9 in
  let c := standing "c" 0.5 in
  let tiers := groupGlobalRankingsByTier (fun _ _ => 0%Z) [a; b; c] in
  (exists t, In a (bucket t tiers)) /\
  (In a (bucket TierA tiers) <-> In c (bucket TierA tiers)).
Proof.
  intros a b c tiers.
  destruct (global_tiers_keep_ties_together (fun _ _ => 0%Z) [a; b; c] a c)
    as (Hex & _ & Hsame).
  - now left.
  - right. right. now left.
  - reflexivity.
  - split; [exact Hex|apply Hsame].
Defined.

Lemma strictly_descending_nth u : forall i j x y,
  StronglySorted (fun a b : R => b < a) u ->
  nth_error u i = Some x -> nth_error u j = Some y -> (i < j)%nat -> y < x.
Proof.
  induction u as [|z u IH]; intros i j x y Hs Hi Hj Hij; [now destruct i|].
  inversion Hs as [|? ? Hs' Hall]; subst.
  destruct j as [|j]; [lia|]. simpl in Hj.
  destruct i as [|i]; simpl in Hi.
  - injection Hi as ->. rewrite Forall_forall in Hall. apply Hall.
    eapply nth_error_In. eassumption.
  - apply (IH i j); auto. lia.
Qed.

Lemma tierAt_idx k : tierIdx (tierAt k) = Nat.min k 5.
Proof.
  do 6 (destruct k as [|k]; [reflexivity|]). unfold tierAt. simpl.
  now destruct k.
Qed.

Lemma tierAt_F k : (5 <= k)%nat -> tierAt k = TierF.
Proof.
  intros H. do 5 (destruct k as [|k]; [lia|]).
  destruct k as [|k]; [reflexivity|]. unfold tierAt. simpl. now destruct k.
Qed.

(** X18: in [groupGlobalRankingsByTier] a ranking with a strictly higher
    score is in a strictly higher tier, unless both are in tier F (where the
    sixth and all lower scores go); and tier S holds exactly the rankings of
    the highest score. *)
Theorem global_tiers_follow_scores localeCompare globalRankings :
  let tiers := groupGlobalRankingsByTier localeCompare globalRankings in
  (forall a b ta tb,
     In a (bucket ta tiers) -> In b (bucket tb tiers) ->
     btlScore b < btlScore a ->
     (tierIdx ta < tierIdx tb)%nat \/ (ta = TierF /\ tb = TierF)) /\
  (forall a, In a (tS tiers) <->
             In a globalRankings /\
             forall x, In x globalRankings -> btlScore x <= btlScore a).
Proof.
  intros tiers. unfold tiers.
  destruct (uniqueScores_spec (sortRankings localeCompare globalRankings))
    as (Hnd & Hs & Hin).
  set (scores := sortNumDesc (uniqueOf [] (map btlScore
                   (sortRankings localeCompare globalRankings)))) in *.
  split.
  - intros a b ta tb Ha Hb Hlt.
    apply In_global_bucket in Ha as (_ & ka & Hka & <-).
    apply In_global_bucket in Hb as (_ & kb & Hkb & <-).
    fold scores in Hka, Hkb.
    assert (Hk : (ka < kb)%nat).
    { destruct (Nat.lt_trichotomy ka kb) as [H|[H|H]]; [exact H| |].
      - subst kb. rewrite Hka in Hkb. injection Hkb as Hkb. lra.
      - pose proof (strictly_descending_nth scores kb ka _ _ Hs Hkb Hka H). lra. }
    rewrite !tierAt_idx.
    destruct (Nat.le_gt_cases 5 ka) as [H5|H5].
    + right. split; apply tierAt_F; lia.
    + left. lia.
  - intros a. change (tS (groupGlobalRankingsByTier localeCompare globalRankings))
      with (bucket TierS (groupGlobalRankingsByTier localeCompare globalRankings)).
    rewrite In_global_bucket. fold scores.
    pose proof (sortRankings_perm localeCompare globalRankings) as Hp.
    split.
    + intros (Ha & k & Hk & Ht). split; [exact Ha|].
      assert (k = 0%nat) as ->.
      { pose proof (tierAt_idx k) as E. rewrite Ht in E. simpl in E. lia. }
      intros x Hx.
      destruct (score_has_position localeCompare _ x Hx) as (kx & Hkx). fold scores in Hkx.
      destruct kx as [|kx]; [rewrite Hk in Hkx; injection Hkx as ->; lra|].
      pose proof (strictly_descending_nth scores 0 (S kx) _ _ Hs Hk Hkx ltac:(lia)). lra.
    + intros (Ha & Hmax). split; [exact Ha|].
      destruct (score_has_position localeCompare _ a Ha) as (k & Hk). fold scores in Hk.
      destruct k as [|k]; [now exists 0%nat|exfalso].
      destruct scores as [|s0 rest] eqn:E; [discriminate|].
      assert (H0 : In s0 (map btlScore (sortRankings localeCompare globalRankings)))
        by (apply Hin; now left).
      apply in_map_iff in H0 as (x & Hx & Hxin).
      apply (Permutation_in _ (Permutation_sym Hp)) in Hxin.
      specialize (Hmax x Hxin).
      pose proof (strictly_descending_nth (s0 :: rest) 0 (S k) s0 _ Hs eq_refl Hk ltac:(lia)).
      lra.
Qed.

(** *** Nothing is lost *)

Lemma filter_split {A : Type} (p : A -> bool) l :
  Permutation l (filter p l ++ filter (fun x => negb (p x)) l).
Proof.
  induction l as [|x l IH]; [constructor|]. simpl.
  destruct (p x); simpl; [now constructor|].
  now apply Permutation_cons_app.
Qed.

Lemma flat_map_ext_In {A B : Type} (f g : A -> list B) l :
  (forall x, In x l -> f x = g x) -> flat_map f l = flat_map g l.
Proof.
  induction l as [|x l IH]; intros H; [reflexivity|]. simpl.
  rewrite (H x (or_introl eq_refl)), IH; [reflexivity|].
  intros y Hy. apply H. now right.
Qed.

Lemma perm_by_scores u : forall l,
  NoDup u -> (forall x, In x l -> In (btlScore x) u) ->
  Permutation l (flat_map (fun s => withScore s l) u).
Proof.
  induction u as [|s u IH]; intros l Hnd Hin.
  - destruct l as [|x l]; [constructor|]. destruct (Hin x (or_introl eq_refl)).
  - inversion Hnd as [|? ? Hs Hu]; subst. simpl.
    set (rest := filter (fun x => negb (scoreIs s x)) l).
    assert (E : flat_map (fun s' => withScore s' l) u =
                flat_map (fun s' => withScore s' rest) u).
    { apply flat_map_ext_In. intros s' Hs'. unfold withScore, rest.
      induction l as [|x l IHl]; [reflexivity|]. simpl.
      assert (Hl : forall x0, In x0 l -> In (btlScore x0) (s :: u))
        by (intros x0 H0; apply Hin; now right).
      specialize (IHl Hl).
      destruct (scoreIs s' x) eqn:E1; destruct (scoreIs s x) eqn:E2; simpl;
        rewrite ?E1; try (now rewrite IHl).
      apply scoreIs_true in E1, E2. congruence. }
    rewrite E. eapply perm_trans; [apply (filter_split (scoreIs s))|].
    apply Permutation_app_head. apply IH; [assumption|].
    intros x Hx. apply filter_In in Hx as [Hx Hn].
    destruct (Hin x Hx) as [Heq|H]; [|exact H].
    exfalso. apply negb_true_iff in Hn.
    assert (Ht : scoreIs s x = true) by (apply scoreIs_true; now symmetry).
    congruence.
Qed.

Lemma collect_all sorted scores : forall j,
  Permutation
    (collect sorted TierS j scores ++ collect sorted TierA j scores ++
     collect sorted TierB j scores ++ collect sorted TierC j scores ++
     collect sorted TierD j scores ++ collect sorted TierF j scores)
    (flat_map (fun s => withScore s sorted) scores).
Proof.
  induction scores as [|s scores IH]; intros j; [constructor|].
  cbn [collect flat_map].
  eapply perm_trans; [|apply Permutation_app_head, (IH (S j))].
  set (w := withScore s sorted).
  set (cS := collect sorted TierS (S j) scores). set (cA := collect sorted TierA (S j) scores).
  set (cB := collect sorted TierB (S j) scores). set (cC := collect sorted TierC (S j) scores).
  set (cD := collect sorted TierD (S j) scores). set (cF := collect sorted TierF (S j) scores).
  destruct (tierAt j); cbn [tier_eqb tierIdx Nat.eqb app];
    rewrite <- ?app_assoc.
  - apply Permutation_refl.
  - apply (Permutation_app_swap_app cS w).
  - rewrite (app_assoc cS cA). rewrite (app_assoc cS cA).
    apply (Permutation_app_swap_app (cS ++ cA) w).
  - rewrite (app_assoc cS cA), (app_assoc (cS ++ cA) cB).
    rewrite (app_assoc cS cA), (app_assoc (cS ++ cA) cB).
    apply (Permutation_app_swap_app ((cS ++ cA) ++ cB) w).
  - rewrite (app_assoc cS cA), (app_assoc (cS ++ cA) cB), (app_assoc ((cS ++ cA) ++ cB) cC).
    rewrite (app_assoc cS cA), (app_assoc (cS ++ cA) cB), (app_assoc ((cS ++ cA) ++ cB) cC).
    apply (Permutation_app_swap_app (((cS ++ cA) ++ cB) ++ cC) w).
  - rewrite (app_assoc cS cA), (app_assoc (cS ++ cA) cB), (app_assoc ((cS ++ cA) ++ cB) cC),
      (app_assoc (((cS ++ cA) ++ cB) ++ cC) cD).
    rewrite (app_assoc cS cA), (app_assoc (cS ++ cA) cB), (app_assoc ((cS ++ cA) ++ cB) cC),
      (app_assoc (((cS ++ cA) ++ cB) ++ cC) cD).
    apply (Permutation_app_swap_app ((((cS ++ cA) ++ cB) ++ cC) ++ cD) w).
Qed.

(** X19: the six tiers of [groupGlobalRankingsByTier] together hold the
    rankings of the input, each as often as the input has it: none is
    dropped and none is duplicated. *)
Theorem global_tiers_partition localeCompare globalRankings :
  Permutation globalRankings
              (allTiers (groupGlobalRankingsByTier localeCompare globalRankings)).
Proof.
  set (sorted := sortRankings localeCompare globalRankings).
  set (scores := sortNumDesc (uniqueOf [] (map btlScore sorted))).
  assert (Hb : forall T, bucket T (groupGlobalRankingsByTier localeCompare globalRankings) =
                         collect sorted T 0 scores).
  { intros T. unfold groupGlobalRankingsByTier. cbv zeta. fold sorted scores.
    change (noTiers, 0%nat) with (noTiers, Nat.min 0 6).
    rewrite loop_bucket. now destruct T. }
  unfold allTiers.
  change (tS (groupGlobalRankingsByTier localeCompare globalRankings))
    with (bucket TierS (groupGlobalRankingsByTier localeCompare globalRankings)).
  change (tA (groupGlobalRankingsByTier localeCompare globalRankings))
    with (bucket TierA (groupGlobalRankingsByTier localeCompare globalRankings)).
  change (tB (groupGlobalRankingsByTier localeCompare globalRankings))
    with (bucket TierB (groupGlobalRankingsByTier localeCompare globalRankings)).
  change (tC (groupGlobalRankingsByTier localeCompare globalRankings))
    with (bucket TierC (groupGlobalRankingsByTier localeCompare globalRankings)).
  change (tD (groupGlobalRankingsByTier localeCompare globalRankings))
    with (bucket TierD (groupGlobalRankingsByTier localeCompare globalRankings)).
  change (tF (groupGlobalRankingsByTier localeCompare globalRankings))
    with (bucket TierF (groupGlobalRankingsByTier localeCompare globalRankings)).
  rewrite !Hb.
  eapply perm_trans; [apply (sortRankings_perm localeCompare)|]. fold sorted.
  eapply perm_trans; [|apply Permutation_sym, collect_all].
  destruct (uniqueScores_spec sorted) as (Hnd & _ & Hin). fold scores in Hnd, Hin.
  apply perm_by_scores; [exact Hnd|].
  intros x Hx. apply Hin. now apply in_map.
Qed.

(** ** One sprite per character *)

Import Characters.

Lemma bestSoFar_step seen characterMap r :
  bestSoFar seen characterMap -> bestSoFar (seen ++ [r]) (noteRanking characterMap r).
Proof.
  intros (Hnd & Hall & Hbest). unfold noteRanking.
  destruct (lookup (nameOf r) characterMap) as [existing|] eqn:E.
  - rewrite !orElse_0.
    destruct (Hbest _ _ E) as (Hn & Hbn & Hbin & Hsc & Hmax).
    destruct (Rlt_dec (entryScore existing) (btlScore (rankingOf r))) as [Hlt|Hge].
    + split; [now rewrite keys_update|]. split.
      * intros r' Hr'. rewrite lookup_update.
        destruct (String.eqb (nameOf r) (nameOf r')) eqn:En.
        -- apply String.eqb_eq in En. rewrite <- En, E. discriminate.
        -- apply in_app_or in Hr' as [Hr'|[<-|[]]]; [now apply Hall|].
           now rewrite String.eqb_refl in En.
      * intros name e. rewrite lookup_update.
        destruct (String.eqb_spec (nameOf r) name) as [<-|Hne].
        -- rewrite E. simpl. intros [= <-]. simpl. rewrite orElse_0.
           repeat split; try reflexivity; [apply in_or_app; right; now left|].
           intros r' Hr' Hname. apply in_app_or in Hr' as [Hr'|[<-|[]]]; [|lra].
           specialize (Hmax r' Hr' Hname). lra.
        -- intros He. destruct (Hbest _ _ He) as (H1 & H2 & H3 & H4 & H5).
           repeat split; try assumption; [apply in_or_app; now left|].
           intros r' Hr' Hname. apply in_app_or in Hr' as [Hr'|[<-|[]]]; [now apply H5|].
           congruence.
    + split; [exact Hnd|]. split.
      * intros r' Hr'. apply in_app_or in Hr' as [Hr'|[<-|[]]]; [now apply Hall|].
        rewrite E. discriminate.
      * intros name e He. destruct (Hbest _ _ He) as (H1 & H2 & H3 & H4 & H5).
        repeat split; try assumption; [apply in_or_app; now left|].
        intros r' Hr' Hname. apply in_app_or in Hr' as [Hr'|[<-|[]]]; [now apply H5|].
        rewrite Hname in E. rewrite E in He. injection He as <-. lra.
  - split; [|split].
    + rewrite keys_app. apply NoDup_app; [assumption|repeat constructor; simpl; tauto|].
      intros x Hx [<-|[]]. now apply lookup_None in E.
    + intros r' Hr'. rewrite lookup_app.
      destruct (lookup (nameOf r') characterMap) eqn:E'; [discriminate|].
      apply in_app_or in Hr' as [Hr'|[<-|[]]]; [now apply Hall in Hr'|].
      simpl. rewrite String.eqb_refl. discriminate.
    + intros name e. rewrite lookup_app.
      destruct (lookup name characterMap) as [e'|] eqn:E'.
      * intros [= <-]. destruct (Hbest _ _ E') as (H1 & H2 & H3 & H4 & H5).
        repeat split; try assumption; [apply in_or_app; now left|].
        intros r' Hr' Hname. apply in_app_or in Hr' as [Hr'|[<-|[]]]; [now apply H5|].
        congruence.
      * simpl. destruct (String.eqb_spec (nameOf r) name) as [<-|Hne]; [|discriminate].
        intros [= <-]. simpl. rewrite orElse_0.
        repeat split; try reflexivity; [apply in_or_app; right; now left|].
        intros r' Hr' Hname. apply in_app_or in Hr' as [Hr'|[<-|[]]]; [|lra].
        apply Hall in Hr'. rewrite Hname in Hr'. congruence.
Qed.

Lemma bestSoFar_fold l : forall seen characterMap,
  bestSoFar seen characterMap ->
  bestSoFar (seen ++ l) (fold_left noteRanking l characterMap).
Proof.
  induction l as [|r l IH]; intros seen characterMap H; simpl.
  - now rewrite app_nil_r.
  - replace (seen ++ r :: l) with ((seen ++ [r]) ++ l) by now rewrite <- app_assoc.
    apply IH. now apply bestSoFar_step.
Qed.

Lemma bestSoFar_nil : bestSoFar [] [].
Proof.
  split; [constructor|]. split; [intros r []|]. intros name e H. discriminate.
Qed.

Lemma insertEntry_perm x l : Permutation (x :: l) (insertEntry x l).
Proof.
  induction l as [|y l IH]; simpl; [apply Permutation_refl|].
  destruct (Rlt_dec _ _); [|apply Permutation_refl].
  eapply perm_trans; [apply perm_swap|]. now apply perm_skip.
Qed.

Lemma sortEntries_perm l : Permutation l (sortEntries l).
Proof.
  induction l as [|x l IH]; simpl; [constructor|].
  eapply perm_trans; [apply perm_skip, IH|apply insertEntry_perm].
Qed.

Lemma insertEntry_sorted x l :
  StronglySorted (fun a b => entryScore b <= entryScore a) l ->
  StronglySorted (fun a b => entryScore b <= entryScore a) (insertEntry x l).
Proof.
  induction l as [|y l IH]; intros Hs; simpl.
  - repeat constructor.
  - inversion Hs as [|? ? Hl Hy]; subst. rewrite !orElse_0.
    destruct (Rlt_dec (entryScore x) (entryScore y)) as [Hlt|Hge].
    + constructor; [now apply IH|].
      rewrite Forall_forall in *. intros z Hz.
      apply (Permutation_in _ (Permutation_sym (insertEntry_perm x l))) in Hz.
      destruct Hz as [<-|Hz]; [lra|now apply Hy].
    + constructor; [assumption|]. constructor; [lra|].
      rewrite Forall_forall in *. intros z Hz. specialize (Hy z Hz). lra.
Qed.

Lemma sortEntries_sorted l :
  StronglySorted (fun a b => entryScore b <= entryScore a) (sortEntries l).
Proof.
  induction l as [|x l IH]; simpl; [constructor|now apply insertEntry_sorted].
Qed.

(** X20: [getUniqueCharactersForTierFromGlobal] returns one entry for every
    character name of the rankings and no other: the names of the entries
    are pairwise different; the best move of an entry is a ranking of that
    character whose score no ranking of the character exceeds, and the
    entry carries that score; and the entries are sorted by descending
    score. *)
Theorem one_entry_per_character globalRankings :
  let entries := getUniqueCharactersForTierFromGlobal globalRankings in
  NoDup (map entryName entries) /\
  (forall name, In name (map entryName entries) <-> In name (map nameOf globalRankings)) /\
  (forall e, In e entries ->
     In (bestMove e) globalRankings /\
     nameOf (bestMove e) = entryName e /\
     entryScore e = btlScore (rankingOf (bestMove e)) /\
     forall r, In r globalRankings -> nameOf r = entryName e ->
               btlScore (rankingOf r) <= entryScore e) /\
  StronglySorted (fun a b => entryScore b <= entryScore a) entries.
Proof.
  intros entries.
  pose proof (bestSoFar_fold globalRankings [] [] bestSoFar_nil) as (Hnd & Hall & Hbest).
  simpl app in *. set (characterMap := fold_left noteRanking globalRankings []) in *.
  pose proof (sortEntries_perm (values characterMap)) as Hp.
  fold (getUniqueCharactersForTierFromGlobal globalRankings) in Hp. fold entries in Hp.
  assert (Hval : forall e, In e (values characterMap) -> lookup (entryName e) characterMap = Some e).
  { intros e He. apply in_map_iff in He as ([k e'] & <- & Hin). simpl.
    pose proof (In_lookup k e' characterMap Hnd Hin) as Hl.
    destruct (Hbest _ _ Hl) as (-> & _). exact Hl. }
  assert (Hnames : map entryName (values characterMap) = keys characterMap).
  { unfold values, keys. rewrite map_map. apply map_ext_in. intros [k e] Hin. simpl.
    pose proof (In_lookup k e characterMap Hnd Hin) as Hl.
    now destruct (Hbest _ _ Hl). }
  split; [|split; [|split]].
  - eapply Permutation_NoDup; [apply Permutation_map, Hp|]. now rewrite Hnames.
  - intros name. split; intros H.
    + apply (Permutation_in _ (Permutation_sym (Permutation_map entryName Hp))) in H.
      apply in_map_iff in H as (e & <- & He). apply Hval in He.
      destruct (Hbest _ _ He) as (_ & Hn & Hin & _).
      rewrite <- Hn. now apply in_map.
    + apply in_map_iff in H as (r & <- & Hr).
      apply (Permutation_in _ (Permutation_map entryName Hp)). rewrite Hnames.
      destruct (in_dec string_dec (nameOf r) (keys characterMap)) as [Hk|Hk]; [exact Hk|].
      apply lookup_None in Hk. now apply Hall in Hr.
  - intros e He. apply (Permutation_in _ (Permutation_sym Hp)) in He. apply Hval in He.
    destruct (Hbest _ _ He) as (_ & Hn & Hin & Hs & Hmax). auto.
  - apply sortEntries_sorted.
Qed.

(** ** The estimate of [getTotalComparisons] *)

Lemma faced_gain a b c : faced a b c = true -> (1 <= totalGain a c)%nat.
Proof.
  unfold faced, totalGain.
  destruct (String.eqb (id (move1 c)) a), (String.eqb (id (move2 c)) a); simpl;
    try lia; discriminate.
Qed.

Lemma faced_sym a b c : faced a b c = faced b a c.
Proof.
  unfold faced.
  destruct (String.eqb (id (move1 c)) a), (String.eqb (id (move2 c)) b),
           (String.eqb (id (move2 c)) a), (String.eqb (id (move1 c)) b); reflexivity.
Qed.

Lemma faced_count a b l :
  (List.length (filter (faced a b) l) <= totalFrom a l 0)%nat.
Proof.
  induction l as [|c l IH]; [simpl; unfold totalFrom; simpl; lia|].
  rewrite totalFrom_cons, totalFrom_shift. simpl filter.
  destruct (faced a b c) eqn:E; simpl; [|lia].
  apply faced_gain in E. lia.
Qed.

(** X21: [getTotalComparisons] never undercounts: for two entries of
    [createMoveDataMap], the number of counted choices between the two moves
    is at most the minimum of their totals. *)
Theorem getTotalComparisons_bounds_meetings moves cs a b da db :
  lookup a (createMoveDataMap moves cs) = Some da ->
  lookup b (createMoveDataMap moves cs) = Some db ->
  (List.length (filter (fun c => bothKnown moves c && faced a b c) cs)
   <= getTotalComparisons da db)%nat.
Proof.
  intros Ha Hb.
  apply lookup_createMoveDataMap in Ha as (_ & _ & _ & Hta).
  apply lookup_createMoveDataMap in Hb as (_ & _ & _ & Htb).
  assert (E : filter (fun c => bothKnown moves c && faced a b c) cs =
              filter (faced a b) (filter (bothKnown moves) cs)).
  { clear Hta Htb. induction cs as [|c l IH]; [reflexivity|]. simpl.
    destruct (bothKnown moves c); simpl; [|exact IH].
    destruct (faced a b c); now rewrite IH. }
  rewrite E. unfold getTotalComparisons. rewrite Hta, Htb.
  apply Nat.min_glb; [apply faced_count|].
  rewrite (filter_ext (faced a b) (faced b a)) by (intros c; apply faced_sym).
  apply faced_count.
Qed.

Lemma getTotalComparisons_bounds_meetings_witness :
  let moves := [mk "a"; mk "b"; mk "c"] in
  let cs := [jab "a" "b" 1; jab "b" "a" 2; jab "a" "c" 0] in
  exists da db,
    lookup "a" (createMoveDataMap moves cs) = Some da /\
    lookup "b" (createMoveDataMap moves cs) = Some db /\
    getTotalComparisons da db = 2%nat /\
    (2 <= getTotalComparisons da db)%nat.
Proof.
  intros moves cs. eexists. eexists.
  split; [reflexivity|]. split; [reflexivity|]. split; [reflexivity|].
  exact (getTotalComparisons_bounds_meetings moves cs "a" "b" _ _ eq_refl eq_refl).
Defined.

(** ** The order of the choices does not matter *)

Lemma filter_perm {A : Type} (p : A -> bool) l l' :
  Permutation l l' -> Permutation (filter p l) (filter p l').
Proof.
  induction 1 as [|x l l' _ IH|x y l|l l' l'' _ IH1 _ IH2]; simpl.
  - constructor.
  - destruct (p x); [now constructor|exact IH].
  - destruct (p x), (p y); try apply Permutation_refl. apply perm_swap.
  - eapply perm_trans; eassumption.
Qed.

Lemma existsb_perm {A : Type} (p : A -> bool) l l' :
  Permutation l l' -> existsb p l = existsb p l'.
Proof.
  intros Hp. destruct (existsb p l) eqn:E, (existsb p l') eqn:E'; try reflexivity.
  - apply existsb_exists in E as (x & Hx & Hpx).
    assert (H : existsb p l' = true)
      by (apply existsb_exists; exists x; split; [now apply (Permutation_in _ Hp)|exact Hpx]).
    congruence.
  - apply existsb_exists in E' as (x & Hx & Hpx).
    assert (H : existsb p l = true)
      by (apply existsb_exists; exists x; split;
          [now apply (Permutation_in _ (Permutation_sym Hp))|exact Hpx]).
    congruence.
Qed.

Lemma totalFrom_sum key l : totalFrom key l 0 = list_sum (map (totalGain key) l).
Proof.
  induction l as [|c l IH]; [reflexivity|].
  rewrite totalFrom_cons, totalFrom_shift, IH. simpl. lia.
Qed.

Lemma winsFrom_sum key l : winsFrom key l 0 = fold_right Rplus 0 (map (winsGain key) l).
Proof.
  induction l as [|c l IH]; [reflexivity|].
  rewrite winsFrom_cons, winsFrom_shift, IH. simpl. lra.
Qed.

Lemma Rsum_perm l l' :
  Permutation l l' -> fold_right Rplus 0 l = fold_right Rplus 0 l'.
Proof.
  induction 1 as [|x l l' _ IH|x y l|l l' l'' _ IH1 _ IH2]; simpl; lra.
Qed.

Lemma maxOf_same l l' :
  l <> [] -> (forall x, In x l <-> In x l') -> maxOf l = maxOf l'.
Proof.
  intros Hne Hiff.
  assert (Hne' : l' <> []).
  { destruct l as [|x l]; [congruence|]. intros ->.
    destruct (proj1 (Hiff x) (or_introl eq_refl)). }
  pose proof (maxOf_in l Hne) as H1. pose proof (maxOf_in l' Hne') as H2.
  apply Hiff in H1. apply Hiff in H2.
  apply (maxOf_upper l') in H1. apply (maxOf_upper l) in H2. lra.
Qed.

Lemma minOf_same l l' :
  l <> [] -> (forall x, In x l <-> In x l') -> minOf l = minOf l'.
Proof.
  intros Hne Hiff.
  assert (Hne' : l' <> []).
  { destruct l as [|x l]; [congruence|]. intros ->.
    destruct (proj1 (Hiff x) (or_introl eq_refl)). }
  pose proof (minOf_in l Hne) as H1. pose proof (minOf_in l' Hne') as H2.
  apply Hiff in H1. apply Hiff in H2.
  apply (minOf_lower l') in H1. apply (minOf_lower l) in H2. lra.
Qed.

(** Two entries under one key, made from two orders of the same choices. *)
Lemma entries_agree moves cs cs' key d d' :
  Permutation cs cs' ->
  lookup key (createMoveDataMap moves cs) = Some d ->
  lookup key (createMoveDataMap moves cs') = Some d' ->
  move d = move d' /\ wins d = wins d' /\ total d = total d'.
Proof.
  intros Hp Hd Hd'.
  apply lookup_createMoveDataMap in Hd as (Hm & _ & Hw & Ht).
  apply lookup_createMoveDataMap in Hd' as (Hm' & _ & Hw' & Ht').
  pose proof (filter_perm (bothKnown moves) _ _ Hp) as Hf.
  split; [congruence|]. split.
  - rewrite Hw, Hw', !winsFrom_sum. apply Rsum_perm. now apply Permutation_map.
  - rewrite Ht, Ht', !totalFrom_sum. apply Permutation_list_sum. now apply Permutation_map.
Qed.

Lemma has_perm moves cs cs' key :
  Permutation cs cs' ->
  has key (createMoveDataMap moves cs) = has key (createMoveDataMap moves cs').
Proof.
  intros Hp. rewrite !has_createMoveDataMap. f_equal. now apply existsb_perm.
Qed.

Lemma seeds_same moves cs cs' :
  Permutation cs cs' ->
  forall x, In x (values (seedScores (createMoveDataMap moves cs))) ->
            In x (values (seedScores (createMoveDataMap moves cs'))).
Proof.
  intros Hp x. rewrite !values_seedScores. intros Hx.
  apply in_map_iff in Hx as ([key d] & <- & Hin). simpl.
  apply (In_lookup key d _ (NoDup_createMoveDataMap moves cs)) in Hin.
  assert (Hhas : has key (createMoveDataMap moves cs') = true).
  { rewrite <- (has_perm moves cs cs' key Hp). apply has_lookup. now exists d. }
  apply has_lookup in Hhas as [d' Hd'].
  destruct (entries_agree moves cs cs' key d d' Hp Hin Hd') as (_ & Hw & Ht).
  apply in_map_iff. exists (key, d'). split; [|now apply lookup_Some_In].
  simpl. unfold seedScore. now rewrite Hw, Ht.
Qed.

(** X22: the standings do not depend on the order in which the choices
    were recorded: for two orders of the same choices the results hold the
    same standings. *)
Theorem standings_do_not_depend_on_order moves choices choices' mt :
  Permutation choices choices' ->
  Permutation (calculateBTLScores moves choices mt) (calculateBTLScores moves choices' mt).
Proof.
  intros Hperm.
  pose proof (filter_perm (fun choice => String.eqb (moveType choice) mt) _ _ Hperm) as Hp.
  fold (typeChoicesOf choices mt) (typeChoicesOf choices' mt) in Hp.
  set (cs := typeChoicesOf choices mt) in *. set (cs' := typeChoicesOf choices' mt) in *.
  set (md := createMoveDataMap moves cs). set (md' := createMoveDataMap moves cs').
  assert (Hres : forall ch tc, tc = typeChoicesOf ch mt ->
            calculateBTLScores moves ch mt =
            map (standingOf (calculateBTLIterative (createMoveDataMap moves tc)))
                (values (createMoveDataMap moves tc))).
  { intros ch tc ->. destruct (typeChoicesOf ch mt) as [|c0 l] eqn:E.
    - now rewrite calculateBTLScores_empty.
    - rewrite calculateBTLScores_nonempty by (rewrite E; discriminate). now rewrite E. }
  rewrite (Hres choices cs eq_refl), (Hres choices' cs' eq_refl). fold md md'.
  assert (Hnd : NoDup (keys md)) by apply NoDup_createMoveDataMap.
  assert (Hnd' : NoDup (keys md')) by apply NoDup_createMoveDataMap.
  assert (Hkeys : Permutation (keys md) (keys md')).
  { apply NoDup_Permutation; try assumption. intros key.
    rewrite !In_keys_has. unfold md, md'. now rewrite (has_perm moves cs cs' key Hp). }
  assert (Hmax : maxSeed md = maxSeed md' /\ minSeed md = minSeed md').
  { destruct md as [|kd m] eqn:E.
    - apply Permutation_nil in Hkeys. destruct md'; [now split|discriminate].
    - rewrite <- E in *. unfold maxSeed, minSeed.
      assert (Hne : values (seedScores md) <> []) by (rewrite E; discriminate).
      assert (Hiff : forall x, In x (values (seedScores md)) <->
                               In x (values (seedScores md'))).
      { intros x. split; [apply seeds_same; exact Hp|].
        apply seeds_same. now apply Permutation_sym. }
      split; [now apply maxOf_same|now apply minOf_same]. }
  destruct Hmax as [Hmax Hmin].
  set (standingAt := fun key =>
         match lookup key md with
         | Some d => standingOf (calculateBTLIterative md) d
         | None => standing key 0
         end).
  assert (E1 : map (standingOf (calculateBTLIterative md)) (values md) =
               map standingAt (keys md)).
  { unfold values, keys. rewrite !map_map. apply map_ext_in. intros [key d] Hin. simpl.
    unfold standingAt. now rewrite (In_lookup key d md Hnd Hin). }
  assert (E2 : map (standingOf (calculateBTLIterative md')) (values md') =
               map standingAt (keys md')).
  { unfold values, keys. rewrite !map_map. apply map_ext_in. intros [key d'] Hin. simpl.
    pose proof (In_lookup key d' md' Hnd' Hin) as Hd'.
    assert (Hhas : has key md = true).
    { unfold md. rewrite (has_perm moves cs cs' key Hp). apply has_lookup. now exists d'. }
    apply has_lookup in Hhas as [d Hd]. unfold standingAt. rewrite Hd.
    destruct (entries_agree moves cs cs' key d d' Hp Hd Hd') as (Hm & Hw & Ht).
    assert (Hid : id (move d) = key).
    { apply lookup_createMoveDataMap in Hd as (Hg & _). now apply moveMap_get_Some in Hg. }
    assert (Hseed : seedScore d = seedScore d') by (unfold seedScore; now rewrite Hw, Ht).
    unfold standingOf. rewrite <- Hm, <- Hw, <- Ht. f_equal.
    change (scoreOr (calculateBTLIterative md') (id (move d)))
      with (btlScore (standingOf (calculateBTLIterative md')
              {| move := move d; wins := wins d'; total := total d'; opponents := opponents d' |})).
    change (scoreOr (calculateBTLIterative md) (id (move d)))
      with (btlScore (standingOf (calculateBTLIterative md) d)).
    rewrite (btlScore_standingOf md d) by (now rewrite Hid).
    unfold standingOf, scoreOr. cbn [btlScore move].
    rewrite lookup_calculateBTLIterative, Hid, Hd'. simpl.
    unfold scaled. now rewrite Hmax, Hmin, Hseed. }
  rewrite E1, E2. now apply Permutation_map.
Qed.

Lemma standings_do_not_depend_on_order_witness :
  Permutation
    (calculateBTLScores [mk "a"; mk "b"; mk "c"] [jab "a" "b" 1; jab "c" "a" 0] "jab")
    (calculateBTLScores [mk "a"; mk "b"; mk "c"] [jab "c" "a" 0; jab "a" "b" 1] "jab").
Proof.
  apply standings_do_not_depend_on_order. apply perm_swap.
Defined.

(** ** Standings into tiers *)

(** X23: when the standings of [calculateBTLScores] are handed to
    [groupMovesByTier], the tiers hold exactly those standings, each id once
    (all tiers are empty when no choice is of the category); and since the
    entry with the smallest seed is reported at [0.5], it is never put into a
    lower tier than a standing whose score is below [0.5]. *)
Theorem tiers_of_the_standings moves choices mt :
  let moveData := createMoveDataMap moves (typeChoicesOf choices mt) in
  let result := calculateBTLScores moves choices mt in
  let tiers := snd (groupMovesByTier result) in
  Permutation result (allTiers tiers) /\
  NoDup (standingIds (allTiers tiers)) /\
  (typeChoicesOf choices mt = [] -> forall t, bucket t tiers = []) /\
  (forall key d other t t',
     lookup key moveData = Some d ->
     seedScore d = minSeed moveData -> minSeed moveData < maxSeed moveData ->
     In other result -> btlScore other < 0.5 ->
     In (standingOf (calculateBTLIterative moveData) d) (bucket t tiers) ->
     In other (bucket t' tiers) ->
     (tierIdx t <= tierIdx t')%nat).
Proof.
  intros md result tiers.
  assert (Hperm : Permutation result (allTiers tiers)).
  { unfold tiers. rewrite groupMovesByTier_allTiers. apply sortDesc_perm. }
  split; [exact Hperm|]. split; [|split].
  - eapply Permutation_NoDup; [apply Permutation_map, Hperm|].
    apply (one_standing_per_compared_item_aux moves choices mt).
  - intros Hempty t. unfold tiers, result.
    rewrite calculateBTLScores_empty by exact Hempty. now destruct t.
  - intros key d other t t' Hd Hseed Hlt Hother Hweak Hin Hin'.
    apply (tier_order_aux result _ other t t' Hin Hin').
    destruct (scale_ends_aux moves choices mt Hlt) as (Hends & _).
    destruct (Hends key d Hd) as (_ & Hmin).
    destruct (Hmin Hseed) as (_ & Hhalf). fold md in Hhalf.
    rewrite Hhalf. exact Hweak.
Qed.

(** The scenario of three moves: [x] chosen twice over [y], [y] once over
    [z]. *)
Lemma chain_moveData :
  createMoveDataMap [mk "x"; mk "y"; mk "z"] [jab "x" "y" 1; jab "x" "y" 1; jab "y" "z" 1] =
  [("x"%string, {| move := mk "x"; wins := 0 + 1 + 1; total := 2; opponents := ["y"%string] |});
   ("y"%string, {| move := mk "y"; wins := 0 + 1; total := 3;
                   opponents := ["x"%string; "z"%string] |});
   ("z"%string, {| move := mk "z"; wins := 0; total := 1; opponents := ["y"%string] |})].
Proof. reflexivity. Qed.

Lemma chain_seeds :
  let md := createMoveDataMap [mk "x"; mk "y"; mk "z"]
              [jab "x" "y" 1; jab "x" "y" 1; jab "y" "z" 1] in
  maxSeed md = 0.5 + 0.5 * logistic 2 /\ minSeed md = 0 /\
  seedScore {| move := mk "y"; wins := 0 + 1; total := 3;
               opponents := ["x"%string; "z"%string] |} = (0.5 + 0.5 * logistic 3) / 3 /\
  seedScore {| move := mk "z"; wins := 0; total := 1; opponents := ["y"%string] |} = 0.
Proof.
  intros md.
  pose proof (logistic_pos 2) as Hp2. pose proof (logistic_pos 3) as Hp3.
  pose proof (logistic_lt_1 3) as Hl3.
  assert (Ex : seedScore {| move := mk "x"; wins := 0 + 1 + 1; total := 2;
                            opponents := ["y"%string] |} = 0.5 + 0.5 * logistic 2).
  { unfold seedScore. simpl. rewrite calculateConfidence_nonzero by lra.
    replace (1 + 1) with 2 by lra. field. }
  assert (Ey : seedScore {| move := mk "y"; wins := 0 + 1; total := 3;
                            opponents := ["x"%string; "z"%string] |} =
               (0.5 + 0.5 * logistic 3) / 3).
  { unfold seedScore. simpl. rewrite calculateConfidence_nonzero by lra.
    replace (1 + 1 + 1) with 3 by lra. field. }
  assert (Ez : seedScore {| move := mk "z"; wins := 0; total := 1;
                            opponents := ["y"%string] |} = 0).
  { unfold seedScore. simpl. rewrite calculateConfidence_nonzero by lra. field. }
  assert (Hy : (0.5 + 0.5 * logistic 3) / 3 < 0.5) by lra.
  split; [|split; [|split; [exact Ey|exact Ez]]].
  - unfold md. rewrite chain_moveData. unfold maxSeed, seedScores.
    cbn [map fst snd values maxOf fold_left]. rewrite Ex, Ey, Ez.
    rewrite (Rmax_left (0.5 + 0.5 * logistic 2)) by lra.
    rewrite Rmax_left by lra. reflexivity.
  - unfold md. rewrite chain_moveData. unfold minSeed, seedScores.
    cbn [map fst snd values minOf fold_left]. rewrite Ex, Ey, Ez.
    rewrite (Rmin_right (0.5 + 0.5 * logistic 2)) by lra.
    rewrite Rmin_right by lra. reflexivity.
Qed.

Lemma tiers_of_the_standings_witness :
  let moves := [mk "x"; mk "y"; mk "z"] in
  let choices := [jab "x" "y" 1; jab "x" "y" 1; jab "y" "z" 1] in
  let md := createMoveDataMap moves choices in
  let dy := {| move := mk "y"; wins := 0 + 1; total := 3;
               opponents := ["x"%string; "z"%string] |} in
  let dz := {| move := mk "z"; wins := 0; total := 1; opponents := ["y"%string] |} in
  let tiers := snd (groupMovesByTier (calculateBTLScores moves choices "jab")) in
  exists t t',
    In (standingOf (calculateBTLIterative md) dz) (bucket t tiers) /\
    In (standingOf (calculateBTLIterative md) dy) (bucket t' tiers) /\
    btlScore (standingOf (calculateBTLIterative md) dy) < 0.5 /\
    (tierIdx t <= tierIdx t')%nat.
Proof.
  intros moves choices md dy dz tiers.
  destruct chain_seeds as (Hmax & Hmin & Ey & Ez).
  change (maxSeed md = 0.5 + 0.5 * logistic 2) in Hmax.
  change (minSeed md = 0) in Hmin.
  change (seedScore dy = (0.5 + 0.5 * logistic 3) / 3) in Ey.
  change (seedScore dz = 0) in Ez.
  pose proof (logistic_pos 2) as Hp2. pose proof (logistic_pos 3) as Hp3.
  assert (Hl3 : logistic 3 < 0.5)
    by (rewrite <- logistic_10; apply logistic_increasing; lra).
  assert (Hdz : lookup "z" md = Some dz)
    by (unfold md, moves, choices; now rewrite chain_moveData).
  assert (Hdy : lookup "y" md = Some dy)
    by (unfold md, moves, choices; now rewrite chain_moveData).
  pose proof (standing_of_entry moves choices "jab" "z" dz Hdz) as Hinz.
  pose proof (standing_of_entry moves choices "jab" "y" dy Hdy) as Hiny.
  change (createMoveDataMap moves (typeChoicesOf choices "jab")) with md in Hinz, Hiny.
  assert (Hy : btlScore (standingOf (calculateBTLIterative md) dy) < 0.5).
  { rewrite btlScore_standingOf by exact Hdy. unfold scaled. rewrite Hmax, Hmin, Ey.
    destruct (Rlt_dec 0 (0.5 + 0.5 * logistic 2 - 0)); [|lra].
    rewrite !Rminus_0_r.
    assert (Hq : (0.5 + 0.5 * logistic 3) / 3 / (0.5 + 0.5 * logistic 2) < 0.5).
    { apply (Rmult_lt_reg_r (0.5 + 0.5 * logistic 2)); [lra|].
      unfold Rdiv at 1. rewrite Rmult_assoc, Rinv_l by lra. nra. }
    assert (Hq0 : 0 < (0.5 + 0.5 * logistic 3) / 3 / (0.5 + 0.5 * logistic 2)).
    { apply Rdiv_lt_0_compat; lra. }
    rewrite orElse_nonzero by lra. exact Hq. }
  destruct (tiers_of_the_standings moves choices "jab") as (Hperm & _ & _ & Hlow).
  fold tiers in Hperm, Hlow.
  assert (Hbucket : forall s, In s (calculateBTLScores moves choices "jab") ->
            exists t, In s (bucket t tiers)).
  { intros s Hs. apply (Permutation_in _ Hperm) in Hs. unfold allTiers in Hs.
    rewrite !in_app_iff in Hs.
    destruct Hs as [H|[H|[H|[H|[H|H]]]]];
      [exists TierS|exists TierA|exists TierB|exists TierC|exists TierD|exists TierF];
      exact H. }
  destruct (Hbucket _ Hinz) as (t & Ht). destruct (Hbucket _ Hiny) as (t' & Ht').
  exists t, t'. repeat split; try assumption.
  apply (Hlow "z"%string dz (standingOf (calculateBTLIterative md) dy) t t' Hdz);
    try assumption.
  - change (seedScore dz = minSeed md). rewrite Ez. now symmetry.
  - change (minSeed md < maxSeed md). rewrite Hmax, Hmin. lra.
Defined.

(** ** One more choice *)



(** ** The tally pass of the demo script *)

Lemma has_setEntry key k v md :
  has key (Demo.setEntry k v md) = has key md || String.eqb k key.
Proof.
  unfold Demo.setEntry, has. destruct (lookup k md) eqn:Ek.
  - rewrite lookup_update. destruct (String.eqb_spec k key) as [<-|Hne].
    + rewrite Ek. reflexivity.
    + now rewrite orb_false_r.
  - rewrite lookup_app. destruct (lookup key md); [reflexivity|]. simpl.
    now destruct (String.eqb k key).
Qed.

(** Every entry made by the first loop of the demo is the last move of the
    list with its id, with empty tallies; no id is entered twice. *)
Lemma demo_init moves : forall seen md,
  NoDup (keys md) ->
  (forall key d, lookup key md = Some d ->
     find (fun m => String.eqb (id m) key) (rev seen) = Some (move d) /\
     wins d = 0 /\ total d = 0%nat) ->
  (forall key, has key md = existsb (fun m => String.eqb (id m) key) seen) ->
  let md' := fold_left Demo.initEntry moves md in
  NoDup (keys md') /\
  (forall key d, lookup key md' = Some d ->
     find (fun m => String.eqb (id m) key) (rev (seen ++ moves)) = Some (move d) /\
     wins d = 0 /\ total d = 0%nat) /\
  (forall key, has key md' = existsb (fun m => String.eqb (id m) key) (seen ++ moves)).
Proof.
  induction moves as [|m moves IH]; intros seen md Hnd Hall Hhas; simpl.
  - rewrite app_nil_r. auto.
  - replace (seen ++ m :: moves) with ((seen ++ [m]) ++ moves) by now rewrite <- app_assoc.
    apply IH.
    + unfold Demo.initEntry, Demo.setEntry. destruct (lookup (id m) md) eqn:E.
      * now rewrite keys_update.
      * rewrite keys_app. apply NoDup_app; [assumption|repeat constructor; simpl; tauto|].
        intros x Hx [<-|[]]. now apply lookup_None in E.
    + intros key d. rewrite rev_app_distr. simpl rev. simpl find.
      unfold Demo.initEntry, Demo.setEntry. destruct (lookup (id m) md) eqn:E.
      * rewrite lookup_update. destruct (String.eqb_spec (id m) key) as [<-|Hne].
        -- rewrite E. simpl. intros [= <-]. simpl. auto.
        -- apply Hall.
      * rewrite lookup_app. destruct (lookup key md) as [d0|] eqn:E0.
        -- intros [= <-]. destruct (String.eqb_spec (id m) key) as [<-|Hne]; [congruence|].
           now apply Hall.
        -- simpl. destruct (String.eqb_spec (id m) key) as [<-|Hne]; [|discriminate].
           intros [= <-]. simpl. auto.
    + intros key. rewrite existsb_app. simpl. rewrite orb_false_r.
      unfold Demo.initEntry. now rewrite has_setEntry, Hhas.
Qed.

Lemma moveMap_has_existsb moves key :
  moveMap_has moves key = existsb (fun m => String.eqb (id m) key) moves.
Proof.
  unfold moveMap_has, moveMap_get.
  destruct (find (fun m => String.eqb (id m) key) (rev moves)) as [m|] eqn:E.
  - apply find_some in E as [Hin Hm]. symmetry. apply existsb_exists.
    exists m. split; [now apply in_rev|exact Hm].
  - destruct (existsb (fun m => String.eqb (id m) key) moves) eqn:E'; [|reflexivity].
    apply existsb_exists in E' as (m & Hin & Hm).
    apply in_rev in Hin. pose proof (find_none _ _ E m Hin) as Hn. simpl in Hn. congruence.
Qed.

(** X25: the tally pass of the demo script gives every move of the list
    an entry, compared or not, under pairwise different ids; the tallies of
    an entry are the sums over the choices whose two participants are both
    in the list; so wherever the calculator of the web page has an entry,
    the demo has one with the same move, wins and total, and an entry that
    only the demo has holds a move that takes part in no choice, with total
    [0] and [0] wins. *)
Theorem demo_tallies_every_move moves cs :
  let demo := Demo.createMoveDataMap moves cs in
  let web := createMoveDataMap moves cs in
  NoDup (keys demo) /\
  (forall key, has key demo = moveMap_has moves key) /\
  (forall key d, lookup key demo = Some d ->
     moveMap_get moves key = Some (move d) /\
     wins d = winsFrom key (filter (bothKnown moves) cs) 0 /\
     total d = totalFrom key (filter (bothKnown moves) cs) 0%nat) /\
  (forall key d, lookup key web = Some d ->
     exists d', lookup key demo = Some d' /\
                move d' = move d /\ wins d' = wins d /\ total d' = total d) /\
  (forall key d, lookup key demo = Some d -> lookup key web = None ->
     existsb (participant key) cs = false /\ wins d = 0 /\ total d = 0%nat).
Proof.
  intros demo web.
  destruct (demo_init moves [] [] (NoDup_nil _)) as (Hnd0 & Hall0 & Hhas0).
  { intros key d H. discriminate. }
  { intros key. reflexivity. }
  simpl app in *. set (md0 := fold_left Demo.initEntry moves []) in *.
  assert (Hpresent : forall c, present md0 c = bothKnown moves c).
  { intros c. unfold present, bothKnown. now rewrite !Hhas0, !moveMap_has_existsb. }
  assert (Hfilter : filter (present md0) cs = filter (bothKnown moves) cs)
    by (apply filter_ext; exact Hpresent).
  assert (Hentry : forall key d, lookup key demo = Some d ->
            moveMap_get moves key = Some (move d) /\
            wins d = winsFrom key (filter (bothKnown moves) cs) 0 /\
            total d = totalFrom key (filter (bothKnown moves) cs) 0%nat).
  { intros key d Hd. unfold demo, Demo.createMoveDataMap in Hd. fold md0 in Hd.
    pose proof (move_recordLoop key cs md0) as Hm.
    pose proof (wins_recordLoop key cs md0) as Hw.
    pose proof (total_recordLoop key cs md0) as Ht.
    rewrite Hd in Hm, Hw, Ht. rewrite Hfilter in Hw, Ht. simpl in Hm, Hw, Ht.
    destruct (lookup key md0) as [d0|] eqn:E0; [|discriminate].
    destruct (Hall0 _ _ E0) as (Hf & Hw0 & Ht0). simpl in Hm, Hw, Ht.
    injection Hm as Hm. injection Hw as Hw. injection Ht as Ht.
    unfold moveMap_get. rewrite Hm, Hw, Ht, Hw0, Ht0. auto. }
  assert (Hhas : forall key, has key demo = moveMap_has moves key).
  { intros key. unfold demo, Demo.createMoveDataMap. fold md0.
    now rewrite has_recordLoop, Hhas0, moveMap_has_existsb. }
  split; [|split; [exact Hhas|split; [exact Hentry|split]]].
  - unfold demo, Demo.createMoveDataMap. fold md0. now rewrite keys_recordLoop.
  - intros key d Hd.
    pose proof (lookup_createMoveDataMap _ _ _ _ Hd) as (Hm & _ & Hw & Ht).
    assert (Hk : has key demo = true).
    { rewrite Hhas. unfold moveMap_has. now rewrite Hm. }
    apply has_lookup in Hk as [d' Hd']. exists d'. split; [exact Hd'|].
    destruct (Hentry _ _ Hd') as (Hm' & Hw' & Ht'). repeat split; congruence.
  - intros key d Hd Hweb.
    destruct (Hentry _ _ Hd) as (Hm & Hw & Ht).
    assert (Hp : existsb (participant key) cs = false).
    { assert (Hk : has key web = false) by (unfold has; now rewrite Hweb).
      unfold web in Hk. rewrite has_createMoveDataMap in Hk.
      unfold moveMap_has in Hk. rewrite Hm in Hk. exact Hk. }
    assert (Hnone : forall c, In c (filter (bothKnown moves) cs) -> participant key c = false).
    { intros c Hc. apply filter_In in Hc as [Hc _].
      destruct (participant key c) eqn:E; [|reflexivity].
      assert (existsb (participant key) cs = true)
        by (apply existsb_exists; now exists c).
      congruence. }
    rewrite winsFrom_nonparticipant in Hw by exact Hnone.
    rewrite totalFrom_nonparticipant in Ht by exact Hnone. auto.
Qed.

(** * The engine on inherited names *)

(** X26: [createMoveDataMap] and [calculateBTLScores] throw exactly when a
    choice of the category passes the guard of the tally loop on an
    inherited value, that is, when one of its participants is named like an
    inherited property and the other one is so too or is a move of the list;
    otherwise they return what the engine computes on own properties from
    the moves that are not named like an inherited property; and on choices
    that name no inherited property, from all moves of the list. *)
Theorem inherited_names_throw_or_are_ignored moves choices mt :
  let typeChoices := typeChoicesOf choices mt in
  (existsb (Proto.poisoned moves) typeChoices = true ->
     Proto.createMoveDataMap moves typeChoices = Proto.Throws /\
     Proto.calculateBTLScores moves choices mt = Proto.Throws) /\
  (existsb (Proto.poisoned moves) typeChoices = false ->
     Proto.createMoveDataMap moves typeChoices =
       Proto.Returns (createMoveDataMap (Proto.plainMoves moves) typeChoices) /\
     Proto.calculateBTLScores moves choices mt =
       Proto.Returns (calculateBTLScores (Proto.plainMoves moves) choices mt)) /\
  (forallb Proto.plain typeChoices = true ->
     Proto.createMoveDataMap moves typeChoices =
       Proto.Returns (createMoveDataMap moves typeChoices) /\
     Proto.calculateBTLScores moves choices mt =
       Proto.Returns (calculateBTLScores moves choices mt)).
Proof.
  intros typeChoices. unfold typeChoices.
  rewrite createMoveDataMap_outcome, calculateBTLScores_outcome.
  repeat split.
  - now rewrite H.
  - now rewrite H.
  - now rewrite H.
  - now rewrite H.
  - rewrite existsb_poisoned_plain by assumption.
    now rewrite createMoveDataMap_plain.
  - rewrite <- calculateBTLScores_outcome. now apply calculateBTLScores_plain.
Qed.

(** X27: a choice one of whose participants is not in the move list, and
    neither of whose participants is named like an inherited property, is
    passed over by the tally loop; on choices that name no inherited
    property the call returns; and whenever it returns, every standing is
    the standing of a move of the list, and its wins and its total are the
    sums over the choices of the category whose two participants are both in
    the list. *)
Theorem unknown_participants_are_passed_over moves choices mt :
  let typeChoices := typeChoicesOf choices mt in
  let counted := filter (bothKnown moves) typeChoices in
  (forall md c,
     Proto.noInherited md ->
     (forall key, has key md = true -> moveMap_has moves key = true) ->
     bothKnown moves c = false -> Proto.plain c = true ->
     Proto.recordChoice md c = Proto.Returns md) /\
  (forallb Proto.plain typeChoices = true ->
     exists l, Proto.calculateBTLScores moves choices mt = Proto.Returns l) /\
  (forall l, Proto.calculateBTLScores moves choices mt = Proto.Returns l ->
     forall s, In s l ->
       In (moveOf s) moves /\
       userWins s = winsFrom (id (moveOf s)) counted 0 /\
       userTotal s = totalFrom (id (moveOf s)) counted 0%nat).
Proof.
  intros typeChoices counted. repeat apply conj.
  - intros md c Hno Hknown Hc Hp.
    rewrite recordChoice_failsOn by assumption.
    unfold Proto.plain in Hp. apply andb_prop in Hp as [H1 H2].
    apply negb_true_iff in H1, H2.
    unfold Proto.failsOn. rewrite H1, H2, andb_false_r.
    f_equal. now apply (recordChoice_unknown moves).
  - intros Hp. eexists. now apply calculateBTLScores_plain.
  - intros l Hl s Hin. apply calculateBTLScores_returns in Hl as [Hex ->].
    apply standing_is_compared_item in Hin as (_ & Hm & _ & Hw & Ht).
    unfold Proto.plainMoves in Hm. apply filter_In in Hm as [Hm _].
    rewrite bothKnown_plainMoves in Hw, Ht by assumption.
    auto.
Qed.

Lemma unknown_participants_are_passed_over_witness :
  let moves := [mk "a"; mk "b"] in
  let choices := [jab "a" "b" 1; jab "a" "z" 1; jab "z" "b" 0] in
  exists l s,
    Proto.calculateBTLScores moves choices "jab" = Proto.Returns l /\
    In s l /\ moveOf s = mk "a" /\ userWins s = 0 + 1 /\ userTotal s = 1%nat.
Proof.
  intros moves choices.
  destruct (unknown_participants_are_passed_over moves choices "jab") as (_ & Hret & Hcount).
  destruct Hret as [l Hl]; [reflexivity|].
  exists l.
  destruct (createMoveDataMap_entry moves (typeChoicesOf choices "jab") "a" (mk "a")
              eq_refl eq_refl) as (d & Hd & Hm).
  exists (standingOf (calculateBTLIterative
                        (createMoveDataMap moves (typeChoicesOf choices "jab"))) d).
  assert (Hin := standing_of_entry moves choices "jab" "a" d Hd).
  assert (El : l = calculateBTLScores moves choices "jab").
  { rewrite calculateBTLScores_plain in Hl by reflexivity. now injection Hl. }
  split; [exact Hl|]. rewrite El. split; [exact Hin|]. split; [exact Hm|].
  rewrite <- El in Hin.
  destruct (Hcount l Hl _ Hin) as (_ & Hw & Ht).
  change (moveOf (standingOf (calculateBTLIterative
           (createMoveDataMap moves (typeChoicesOf choices "jab"))) d)) with (move d) in Hw, Ht.
  rewrite Hm in Hw, Ht. split; [exact Hw|exact Ht].
Defined.

(** ** A move whose opponents are all unknown *)

Lemma unknown_opponents_aux moves choices mt key m :
  let typeChoices := typeChoicesOf choices mt in
  let moveData := createMoveDataMap moves typeChoices in
  moveMap_get moves key = Some m ->
  existsb (participant key) typeChoices = true ->
  (forall c, In c typeChoices -> participant key c = true -> bothKnown moves c = false) ->
  exists d s,
    lookup key moveData = Some d /\
    In s (calculateBTLScores moves choices mt) /\
    moveOf s = m /\
    userWins s = 0 /\ userTotal s = 0%nat /\ winRate s = 0 /\ confidence s = 0 /\
    lookup key (seedScores moveData) = Some 0.5 /\
    minSeed moveData <= 0.5 <= maxSeed moveData /\
    lookup key (calculateBTLIterative moveData) = Some (scaled moveData 0.5) /\
    btlScore s = orElse (scaled moveData 0.5) 0.5.
Proof.
  intros typeChoices moveData Hm Hpart Honly.
  destruct (createMoveDataMap_entry moves typeChoices key m Hm Hpart) as (d & Hd & Hmove).
  fold moveData in Hd.
  pose proof (lookup_createMoveDataMap _ _ _ _ Hd) as (_ & _ & Hw & Ht).
  assert (Hnone : forall c, In c (filter (bothKnown moves) typeChoices) ->
                            participant key c = false).
  { intros c Hc. apply filter_In in Hc as [Hin Hb].
    destruct (participant key c) eqn:E; [|reflexivity].
    rewrite (Honly c Hin E) in Hb. discriminate. }
  rewrite winsFrom_nonparticipant in Hw by assumption.
  rewrite totalFrom_nonparticipant in Ht by assumption.
  assert (Hseed : seedScore d = 0.5) by (unfold seedScore; now rewrite Ht).
  assert (Hid : id (move d) = key)
    by (rewrite Hmove; now apply moveMap_get_Some in Hm).
  exists d, (standingOf (calculateBTLIterative moveData) d).
  repeat apply conj.
  - exact Hd.
  - now apply (standing_of_entry moves choices mt key d).
  - exact Hmove.
  - exact Hw.
  - exact Ht.
  - simpl. now rewrite Ht.
  - simpl. rewrite Ht. apply calculateConfidence_0.
  - unfold seedScores. rewrite (lookup_map_values seedScore), Hd. simpl. now rewrite Hseed.
  - rewrite <- Hseed. now apply (minSeed_lower _ _ key).
  - rewrite <- Hseed. now apply (maxSeed_upper _ _ key).
  - rewrite lookup_calculateBTLIterative, Hd. simpl. now rewrite Hseed.
  - rewrite btlScore_standingOf by (now rewrite Hid). now rewrite Hseed.
Qed.

(** X28: whenever the call returns, a move of the list that is not named
    like an inherited property and takes part in choices of the category,
    but only in choices whose other participant is not in the list, has a
    standing with [0] wins, total [0], win rate [0] and confidence [0]; its
    seed score [0.5] lies between the minimum and the maximum used for the
    scaling and is scaled like every other seed; its strength score is the
    scaled seed, or [0.5] when that is [0]. *)
Theorem item_with_unknown_opponents_is_scaled moves choices mt key m l :
  let typeChoices := typeChoicesOf choices mt in
  Proto.calculateBTLScores moves choices mt = Proto.Returns l ->
  moveMap_get moves key = Some m ->
  Proto.inherited key = false ->
  existsb (participant key) typeChoices = true ->
  (forall c, In c typeChoices -> participant key c = true -> bothKnown moves c = false) ->
  exists moveData d s,
    Proto.createMoveDataMap moves typeChoices = Proto.Returns moveData /\
    lookup key moveData = Some d /\
    In s l /\
    moveOf s = m /\
    userWins s = 0 /\ userTotal s = 0%nat /\ winRate s = 0 /\ confidence s = 0 /\
    lookup key (seedScores moveData) = Some 0.5 /\
    minSeed moveData <= 0.5 <= maxSeed moveData /\
    lookup key (calculateBTLIterative moveData) = Some (scaled moveData 0.5) /\
    btlScore s = orElse (scaled moveData 0.5) 0.5.
Proof.
  intros typeChoices Hl Hm Hi Hpart Honly.
  apply calculateBTLScores_returns in Hl as [Hex ->].
  assert (Hm' : moveMap_get (Proto.plainMoves moves) key = Some m)
    by (now rewrite moveMap_get_plainMoves, Hi).
  destruct (unknown_opponents_aux (Proto.plainMoves moves) choices mt key m Hm' Hpart)
    as (d & s & H).
  { intros c Hc Hp. specialize (Honly c Hc Hp).
    unfold bothKnown in *. rewrite !moveMap_has_plainMoves.
    destruct (moveMap_has moves (id (move1 c))), (moveMap_has moves (id (move2 c)));
      try discriminate; now rewrite ?andb_false_r. }
  exists (createMoveDataMap (Proto.plainMoves moves) typeChoices), d, s.
  split; [|exact H].
  unfold typeChoices. now rewrite createMoveDataMap_outcome, Hex.
Qed.

Lemma item_with_unknown_opponents_is_scaled_witness :
  exists l s,
    Proto.calculateBTLScores [mk "a"; mk "b"; mk "c"] [jab "a" "b" 1; jab "c" "z" 1] "jab"
      = Proto.Returns l /\
    In s l /\ moveOf s = mk "c" /\ userTotal s = 0%nat /\
    btlScore s = 0.5 / (0.5 + 0.5 * logistic 1) /\ btlScore s <> 0.5.
Proof.
  set (moves := [mk "a"; mk "b"; mk "c"]).
  set (choices := [jab "a" "b" 1; jab "c" "z" 1]).
  assert (Hl : Proto.calculateBTLScores moves choices "jab" =
               Proto.Returns (calculateBTLScores moves choices "jab"))
    by (apply calculateBTLScores_plain; reflexivity).
  destruct (item_with_unknown_opponents_is_scaled moves choices "jab" "c" (mk "c") _ Hl
              eq_refl eq_refl eq_refl)
    as (md & d & s & Hmd & _ & Hin & Hm & _ & Ht & _ & _ & _ & _ & _ & Hs).
  - intros c [<-|[<-|[]]]; [discriminate|reflexivity].
  - exists (calculateBTLScores moves choices "jab"), s.
    assert (Emd : md = createMoveDataMap moves choices).
    { change (typeChoicesOf choices "jab") with choices in Hmd.
      assert (Hp : Proto.createMoveDataMap moves choices =
                   Proto.Returns (createMoveDataMap moves choices)) by reflexivity.
      rewrite Hp in Hmd. now injection Hmd. }
    destruct sample_scaled as (Hv & Hne & Hnz).
    fold moves choices in Hv, Hne, Hnz. rewrite <- Emd in Hv, Hne, Hnz.
    rewrite orElse_nonzero in Hs by exact Hnz.
    repeat split; try assumption; rewrite Hs; assumption.
Defined.

(** ** The strength score of an entry *)

Lemma strength_aux moves choices mt key d :
  let moveData := createMoveDataMap moves (typeChoicesOf choices mt) in
  let max := maxSeed moveData in
  let min := minSeed moveData in
  let score := if Rlt_dec min max then (seedScore d - min) / (max - min) else seedScore d in
  lookup key moveData = Some d ->
  ((0 < total d)%nat ->
     seedScore d = wins d / INR (total d) * (0.5 + 0.5 * logistic (INR (total d)))) /\
  (total d = 0%nat -> seedScore d = 0.5) /\
  (exists k' d', lookup k' moveData = Some d' /\ seedScore d' = max) /\
  (exists k' d', lookup k' moveData = Some d' /\ seedScore d' = min) /\
  (forall k' d', lookup k' moveData = Some d' -> min <= seedScore d' <= max) /\
  lookup key (calculateBTLIterative moveData) = Some score /\
  (exists s, In s (calculateBTLScores moves choices mt) /\ moveOf s = move d /\
             btlScore s = orElse score 0.5) /\
  ((forall k' d', lookup k' moveData = Some d' -> (0 < total d')%nat) ->
     score = Reference.strength moveData d).
Proof.
  intros moveData max min score Hd.
  assert (Hnd : NoDup (keys moveData)) by apply NoDup_createMoveDataMap.
  assert (Hne : moveData <> []) by (intros E; rewrite E in Hd; discriminate).
  assert (Hscore : score = scaled moveData (seedScore d))
    by (now rewrite scaled_by_comparison).
  repeat apply conj.
  - apply seedScore_scored.
  - intros Ht. unfold seedScore. now rewrite Ht.
  - destruct (maxSeed_attained moveData Hne) as ([k' d'] & Hin & Hmax).
    exists k', d'. split; [now apply In_lookup|exact Hmax].
  - destruct (minSeed_attained moveData Hne) as ([k' d'] & Hin & Hmin).
    exists k', d'. split; [now apply In_lookup|exact Hmin].
  - intros k' d' H'.
    split; [now apply (minSeed_lower _ _ k')|now apply (maxSeed_upper _ _ k')].
  - rewrite lookup_calculateBTLIterative, Hd, Hscore. reflexivity.
  - exists (standingOf (calculateBTLIterative moveData) d).
    split; [now apply (standing_of_entry moves choices mt key d)|].
    split; [reflexivity|].
    pose proof (lookup_createMoveDataMap _ _ _ _ Hd) as (Hm & _).
    apply moveMap_get_Some in Hm as [Hid _].
    rewrite btlScore_standingOf by (now rewrite Hid).
    now rewrite <- Hscore.
  - intros Hall.
    assert (Hforall : Forall (fun kd => (0 < total (snd kd))%nat) moveData).
    { apply Forall_forall. intros [k' d'] Hin. apply (Hall k' d'). now apply In_lookup. }
    unfold Reference.strength.
    destruct (Nat.ltb_spec 0 (total d)) as [_|Hz]; [|specialize (Hall key d Hd); lia].
    rewrite scoredSeeds_all by assumption.
    fold (maxSeed moveData) (minSeed moveData). fold max min.
    rewrite <- seedScore_scored by now apply (Hall key d).
    reflexivity.
Qed.

(** X29: whenever [createMoveDataMap] returns, an entry with [total > 0]
    has the seed [winRate * (0.5 + 0.5 * confidence(total))], an entry with
    [total = 0] the seed [0.5]; the maximum and the minimum are seeds of
    entries and bound the seeds of all entries, those with [total = 0]
    included; when [max > min] the score of every entry is
    [(seed - min) / (max - min)], otherwise it is the seed; the standing of
    the entry carries that score as its strength score, or [0.5] when the
    score is [0]; and when every entry has [total > 0] the score is the one
    of the two-step definition. *)
Theorem strength_is_the_scaled_seed moves choices mt moveData key d :
  let max := maxSeed moveData in
  let min := minSeed moveData in
  let score := if Rlt_dec min max then (seedScore d - min) / (max - min) else seedScore d in
  Proto.createMoveDataMap moves (typeChoicesOf choices mt) = Proto.Returns moveData ->
  lookup key moveData = Some d ->
  ((0 < total d)%nat ->
     seedScore d = wins d / INR (total d) * (0.5 + 0.5 * logistic (INR (total d)))) /\
  (total d = 0%nat -> seedScore d = 0.5) /\
  (exists k' d', lookup k' moveData = Some d' /\ seedScore d' = max) /\
  (exists k' d', lookup k' moveData = Some d' /\ seedScore d' = min) /\
  (forall k' d', lookup k' moveData = Some d' -> min <= seedScore d' <= max) /\
  lookup key (calculateBTLIterative moveData) = Some score /\
  (exists l s, Proto.calculateBTLScores moves choices mt = Proto.Returns l /\
               In s l /\ moveOf s = move d /\ btlScore s = orElse score 0.5) /\
  ((forall k' d', lookup k' moveData = Some d' -> (0 < total d')%nat) ->
     score = Reference.strength moveData d).
Proof.
  intros max min score Hmd Hd.
  apply createMoveDataMap_returns in Hmd as [Hex Emd].
  subst moveData.
  destruct (strength_aux (Proto.plainMoves moves) choices mt key d Hd)
    as (H1 & H2 & H3 & H4 & H5 & H6 & (s & Hin & Hm & Hs) & H8).
  repeat apply conj; try assumption.
  exists (calculateBTLScores (Proto.plainMoves moves) choices mt), s.
  split; [|auto].
  rewrite calculateBTLScores_outcome. now rewrite Hex.
Qed.

Lemma strength_is_the_scaled_seed_witness :
  let md := createMoveDataMap [mk "a"; mk "b"; mk "c"] [jab "a" "b" 1; jab "c" "z" 1] in
  let dc := {| move := mk "c"; wins := 0; total := 0; opponents := [] |} in
  seedScore dc = 0.5 /\
  lookup "c" (calculateBTLIterative md) =
  Some (if Rlt_dec (minSeed md) (maxSeed md)
        then (seedScore dc - minSeed md) / (maxSeed md - minSeed md) else seedScore dc).
Proof.
  intros md dc.
  assert (Hd : lookup "c" md = Some dc) by (unfold md; now rewrite sample_moveData).
  assert (Hmd : Proto.createMoveDataMap [mk "a"; mk "b"; mk "c"]
                  (typeChoicesOf [jab "a" "b" 1; jab "c" "z" 1] "jab") = Proto.Returns md)
    by reflexivity.
  destruct (strength_is_the_scaled_seed
              [mk "a"; mk "b"; mk "c"] [jab "a" "b" 1; jab "c" "z" 1] "jab" md "c" dc Hmd Hd)
    as (_ & Hz & _ & _ & _ & Hl & _).
  split; [now apply Hz|exact Hl].
Defined.

(** * The prediction on double precision numbers *)

Lemma agreeUpTo_20 : Band.agreeUpTo 20 = true.
Proof. vm_compute. reflexivity. Qed.

Lemma In_tallies n h t :
  (t <= n)%nat -> (h <= 2 * t)%nat -> In (Z.of_nat h, Z.of_nat t) (Band.tallies n).
Proof.
  intros Ht Hh. unfold Band.tallies. apply in_flat_map. exists t. split.
  - apply in_seq. lia.
  - apply in_map_iff. exists h. split; [reflexivity|]. apply in_seq. lia.
Qed.

Lemma agree_tallies h1 t1 h2 t2 :
  (t1 <= 20)%nat -> (t2 <= 20)%nat ->
  (0 <= h1 <= 2 * Z.of_nat t1)%Z -> (0 <= h2 <= 2 * Z.of_nat t2)%Z ->
  Band.agree (h1, Z.of_nat t1) (h2, Z.of_nat t2) = true.
Proof.
  intros Ht1 Ht2 Hh1 Hh2.
  pose proof agreeUpTo_20 as H. unfold Band.agreeUpTo in H.
  rewrite forallb_forall in H.
  assert (H1 : In (h1, Z.of_nat t1) (Band.tallies 20)).
  { rewrite <- (Z2Nat.id h1) by lia. apply In_tallies; lia. }
  assert (H2 : In (h2, Z.of_nat t2) (Band.tallies 20)).
  { rewrite <- (Z2Nat.id h2) by lia. apply In_tallies; lia. }
  specialize (H _ H1). rewrite forallb_forall in H. exact (H _ H2).
Qed.

(** The win rate of the model is the fraction of [Band.rate]. *)
Lemma predictionRate_fraction d h :
  wins d = IZR h / 2 -> (0 <= h)%Z ->
  let r := Band.rate h (Z.of_nat (total d)) in
  0 <= IZR (fst r) /\ 0 < IZR (snd r) /\ predictionRate d = IZR (fst r) / IZR (snd r).
Proof.
  intros Hw Hh r. unfold r, Band.rate, predictionRate.
  destruct (Nat.ltb_spec 0 (total d)) as [Ht|Ht].
  - destruct (Z.ltb_spec 0 (Z.of_nat (total d))) as [_|Hz]; [|lia]. cbn [fst snd].
    assert (HT : 0 < INR (total d)) by now apply lt_0_INR.
    rewrite mult_IZR, <- INR_IZR_INZ. repeat split.
    + now apply IZR_le.
    + lra.
    + rewrite Hw. field. lra.
  - destruct (Z.ltb_spec 0 (Z.of_nat (total d))) as [Hz|_]; [lia|]. cbn [fst snd].
    repeat split; lra.
Qed.

Lemma band_in_rates rA rB :
  0 <= rA -> 0 <= rB ->
  let s1 := if Rlt_dec 0 (rA + rB) then rA / (rA + rB) else 0.5 in
  let s2 := if Rlt_dec 0 (rA + rB) then rB / (rA + rB) else 0.5 in
  (s2 + 0.1 < s1 <-> 11 * rB < 9 * rA) /\
  (0 < rA + rB -> 11 * rB = 9 * rA -> s1 - s2 = 0.1).
Proof.
  intros HA HB s1 s2. unfold s1, s2.
  destruct (Rlt_dec 0 (rA + rB)) as [Hpos|Hz].
  - assert (Hg : rA / (rA + rB) - rB / (rA + rB) - 0.1 =
                 (9 * rA - 11 * rB) * / (10 * (rA + rB)))
      by (replace 0.1 with (1 / 10) by lra; field; lra).
    assert (Hd : 0 < / (10 * (rA + rB))) by (apply Rinv_0_lt_compat; lra).
    split; [split; intros H|].
    + destruct (Rlt_le_dec 0 (9 * rA - 11 * rB)) as [Hlt|Hle]; [lra|exfalso].
      assert ((9 * rA - 11 * rB) * / (10 * (rA + rB)) <= 0); [|lra].
      nra.
    + assert (0 < (9 * rA - 11 * rB) * / (10 * (rA + rB)))
        by (apply Rmult_lt_0_compat; lra).
      lra.
    + intros _ He. replace (9 * rA - 11 * rB) with 0 in Hg by lra.
      rewrite Rmult_0_l in Hg. lra.
  - split; [split; intros H; exfalso; lra|]. intros H. contradiction.
Qed.

Lemma cross_multiply x1 y1 x2 y2 :
  0 < y1 -> 0 < y2 ->
  (11 * (x2 / y2) < 9 * (x1 / y1) <-> 11 * x2 * y1 < 9 * x1 * y2) /\
  (11 * x2 * y1 = 9 * x1 * y2 -> 11 * (x2 / y2) = 9 * (x1 / y1)).
Proof.
  intros Hy1 Hy2.
  assert (Hyy : 0 < y1 * y2) by now apply Rmult_lt_0_compat.
  assert (Hc : 9 * x1 * y2 - 11 * x2 * y1 = y1 * y2 * (9 * (x1 / y1) - 11 * (x2 / y2)))
    by (field; lra).
  split; [split; intros H|intros H].
  - assert (0 < y1 * y2 * (9 * (x1 / y1) - 11 * (x2 / y2)))
      by (apply Rmult_lt_0_compat; lra).
    lra.
  - destruct (Rlt_le_dec (11 * (x2 / y2)) (9 * (x1 / y1))) as [Hlt|Hle]; [exact Hlt|exfalso].
    assert (y1 * y2 * (9 * (x1 / y1) - 11 * (x2 / y2)) <= 0); [|lra].
    nra.
  - assert (Hz : y1 * y2 * (9 * (x1 / y1) - 11 * (x2 / y2)) = 0) by lra.
    apply Rmult_integral in Hz. destruct Hz; lra.
Qed.

Lemma Zlt_cross a1 b1 a2 b2 :
  (11 * a2 * b1 < 9 * a1 * b2)%Z <->
  11 * IZR a2 * IZR b1 < 9 * IZR a1 * IZR b2.
Proof.
  replace (11 * IZR a2 * IZR b1) with (IZR (11 * a2 * b1)) by (now rewrite !mult_IZR).
  replace (9 * IZR a1 * IZR b2) with (IZR (9 * a1 * b2)) by (now rewrite !mult_IZR).
  split; [apply IZR_lt|apply lt_IZR].
Qed.

Lemma Zeq_cross a1 b1 a2 b2 :
  (11 * a2 * b1 = 9 * a1 * b2)%Z ->
  11 * IZR a2 * IZR b1 = 9 * IZR a1 * IZR b2.
Proof.
  intros H.
  replace (11 * IZR a2 * IZR b1) with (IZR (11 * a2 * b1)) by (now rewrite !mult_IZR).
  replace (9 * IZR a1 * IZR b2) with (IZR (9 * a1 * b2)) by (now rewrite !mult_IZR).
  now rewrite H.
Qed.

(** On tallies in whole numbers the winner of the model is the one of
    [Band.winner], and [Band.onEdge] says that the scores differ by
    [0.1]. *)
Lemma winner_in_whole_numbers m1 m2 md d1 d2 h1 h2 :
  lookup (id m1) md = Some d1 -> lookup (id m2) md = Some d2 ->
  wins d1 = IZR h1 / 2 -> wins d2 = IZR h2 / 2 ->
  (0 <= h1)%Z -> (0 <= h2)%Z ->
  let p := calculateBTLPrediction m1 m2 md in
  let t1 := Z.of_nat (total d1) in
  let t2 := Z.of_nat (total d2) in
  predictedWinner p = Band.winner h1 t1 h2 t2 /\
  (Band.onEdge h1 t1 h2 t2 = true -> Rabs (move1Score p - move2Score p) = 0.1).
Proof.
  intros L1 L2 W1 W2 H1 H2 p t1 t2.
  destruct (predictionRate_fraction d1 h1 W1 H1) as (Ha1 & Hb1 & E1).
  destruct (predictionRate_fraction d2 h2 W2 H2) as (Ha2 & Hb2 & E2).
  fold t1 in Ha1, Hb1, E1. fold t2 in Ha2, Hb2, E2.
  unfold Band.winner, Band.onEdge.
  set (rA := Band.rate h1 t1) in *. set (rB := Band.rate h2 t2) in *.
  destruct rA as [a1 b1]. destruct rB as [a2 b2]. cbn [fst snd] in *.
  assert (HA : 0 <= predictionRate d1)
    by (rewrite E1; apply Rmult_le_pos; [assumption|left; now apply Rinv_0_lt_compat]).
  assert (HB : 0 <= predictionRate d2)
    by (rewrite E2; apply Rmult_le_pos; [assumption|left; now apply Rinv_0_lt_compat]).
  destruct (band_in_rates _ _ HA HB) as [F1 G1].
  destruct (band_in_rates _ _ HB HA) as [F2 G2].
  rewrite (Rplus_comm (predictionRate d2) (predictionRate d1)) in F2, G2.
  destruct (cross_multiply (IZR a1) (IZR b1) (IZR a2) (IZR b2) Hb1 Hb2) as [C1 D1].
  destruct (cross_multiply (IZR a2) (IZR b2) (IZR a1) (IZR b1) Hb2 Hb1) as [C2 D2].
  rewrite <- E1, <- E2 in C1, D1, C2, D2.
  unfold p, calculateBTLPrediction. rewrite L1, L2. cbv zeta.
  set (s1 := if Rlt_dec 0 (predictionRate d1 + predictionRate d2)
             then predictionRate d1 / (predictionRate d1 + predictionRate d2) else 0.5) in *.
  set (s2 := if Rlt_dec 0 (predictionRate d1 + predictionRate d2)
             then predictionRate d2 / (predictionRate d1 + predictionRate d2) else 0.5) in *.
  cbn [move1Score move2Score predictedWinner].
  split.
  - destruct (Z.ltb_spec (11 * a2 * b1) (9 * a1 * b2)) as [Z1|Z1].
    + apply Zlt_cross, C1, F1 in Z1.
      destruct (Rlt_dec (s2 + 0.1) s1); [reflexivity|contradiction].
    + assert (N1 : ~ s2 + 0.1 < s1).
      { intros H. apply F1, C1, Zlt_cross in H. lia. }
      destruct (Rlt_dec (s2 + 0.1) s1); [contradiction|].
      destruct (Z.ltb_spec (11 * a1 * b2) (9 * a2 * b1)) as [Z2|Z2].
      * apply Zlt_cross, C2, F2 in Z2.
        destruct (Rlt_dec (s1 + 0.1) s2); [reflexivity|contradiction].
      * assert (N2 : ~ s1 + 0.1 < s2).
        { intros H. apply F2, C2, Zlt_cross in H. lia. }
        destruct (Rlt_dec (s1 + 0.1) s2); [contradiction|reflexivity].
  - intros He. apply andb_prop in He as [Hnz He].
    assert (Hpos : 0 < predictionRate d1 + predictionRate d2).
    { destruct (Rlt_le_dec 0 (predictionRate d1 + predictionRate d2)) as [H|H];
        [exact H|exfalso].
      assert (EA : predictionRate d1 = 0) by lra.
      assert (EB : predictionRate d2 = 0) by lra.
      rewrite E1 in EA. rewrite E2 in EB.
      assert (X1 : IZR a1 = 0).
      { apply (Rmult_eq_reg_r (/ IZR b1)); [|apply Rinv_neq_0_compat; lra].
        rewrite Rmult_0_l. exact EA. }
      assert (X2 : IZR a2 = 0).
      { apply (Rmult_eq_reg_r (/ IZR b2)); [|apply Rinv_neq_0_compat; lra].
        rewrite Rmult_0_l. exact EB. }
      apply eq_IZR in X1, X2. subst a1 a2. discriminate Hnz. }
    apply orb_prop in He as [He|He]; apply Z.eqb_eq in He.
    + apply Zeq_cross, D1 in He. rewrite (G1 Hpos He).
      unfold Rabs. destruct (Rcase_abs 0.1); lra.
    + apply Zeq_cross, D2 in He. specialize (G2 Hpos He).
      replace (s1 - s2) with (- (s2 - s1)) by lra. rewrite G2, Rabs_Ropp.
      unfold Rabs. destruct (Rcase_abs 0.1); lra.
Qed.

(** X30: for two tallies of at most 20 comparisons each, with wins counted
    in steps of one half and at most the total, the predicted winner
    computed on double precision numbers is the one of the model, unless the
    two scores differ by exactly [0.1]. *)
Theorem binary64_winner_off_the_edge m1 m2 md d1 d2 h1 h2 :
  lookup (id m1) md = Some d1 -> lookup (id m2) md = Some d2 ->
  wins d1 = IZR h1 / 2 -> wins d2 = IZR h2 / 2 ->
  (0 <= h1 <= 2 * Z.of_nat (total d1))%Z ->
  (0 <= h2 <= 2 * Z.of_nat (total d2))%Z ->
  (total d1 <= 20)%nat -> (total d2 <= 20)%nat ->
  let p := calculateBTLPrediction m1 m2 md in
  Rabs (move1Score p - move2Score p) <> 0.1 ->
  Binary64.predictedWinner
    (Binary64.halves h1) (Binary64.number (Z.of_nat (total d1)))
    (Binary64.halves h2) (Binary64.number (Z.of_nat (total d2))) =
  predictedWinner p.
Proof.
  intros L1 L2 W1 W2 H1 H2 T1 T2 p Hgap.
  destruct (winner_in_whole_numbers m1 m2 md d1 d2 h1 h2 L1 L2 W1 W2) as [Hw He];
    [lia|lia|].
  fold p in Hw, He.
  pose proof (agree_tallies h1 (total d1) h2 (total d2) T1 T2 H1 H2) as Ha.
  unfold Band.agree in Ha. cbn [fst snd] in Ha.
  destruct (Band.onEdge h1 (Z.of_nat (total d1)) h2 (Z.of_nat (total d2))) eqn:E.
  - exfalso. apply Hgap. now apply He.
  - simpl in Ha. apply Z.eqb_eq in Ha. now rewrite Ha, Hw.
Qed.

Lemma binary64_winner_off_the_edge_witness :
  let md := [entry "a" (IZR 6 / 2) 4; entry "b" (IZR 2 / 2) 4] in
  Binary64.predictedWinner (Binary64.halves 6) (Binary64.number (Z.of_nat 4))
                           (Binary64.halves 2) (Binary64.number (Z.of_nat 4)) =
  predictedWinner (calculateBTLPrediction (mk "a") (mk "b") md).
Proof.
  intros md.
  refine (binary64_winner_off_the_edge (mk "a") (mk "b") md _ _ 6 2
            eq_refl eq_refl eq_refl eq_refl _ _ _ _ _).
  - simpl. lia.
  - simpl. lia.
  - simpl. lia.
  - simpl. lia.
  - cbv zeta. unfold md, calculateBTLPrediction, predictionRate. simpl.
    match goal with |- context [Rlt_dec 0 ?x] => destruct (Rlt_dec 0 x) as [_|H] end.
    + cbv zeta. cbn [move1Score move2Score].
      match goal with |- Rabs ?e <> _ => replace e with 0.5 by lra end.
      unfold Rabs. destruct (Rcase_abs 0.5); lra.
    + exfalso. apply H. lra.
Defined.
